(** * Image-idea-to-Minecraft: the voxel scene template and the HTML helpers

    A shallow embedding of the two parts of the repository that carry
    behaviour:

    - [src/services/gemini.ts], the script of [VOXEL_TEMPLATE]: [addBlock],
      the execution of the injected instructions inside [init], the fallback
      platform, the camera framing, [generateRecipeBook] and the
      ['message'] listener that drives the day/night cycle;
    - [src/utils/html.ts]: [extractHtmlFromText], [hideBodyText] and
      [zoomCamera], three string transforms written with JavaScript regular
      expressions.

    Conventions of the embedding.

    - A JavaScript string is a [list ascii] ([str]), the strings whose code
      units lie below 256 (Latin-1); [lit "..."] writes a literal. Case
      mapping and white space are those of JavaScript on these code units:
      [toLowerCase] moves A-Z and U+00C0..U+00DE (without U+00D7) by 32, and
      [\s] and [trim] take U+0009..U+000D, U+0020 and U+00A0 for white space.
    - The regular expressions of [html.ts] are values of a small syntax
      ([Regex.regex]) run by a backtracking matcher that tries the
      alternatives in the order of the JavaScript engine (greedy and lazy
      quantifiers, leftmost match, captures).
    - Voxel coordinates are integers ([Z]), as the data model says. To the
      script they are numbers: the bounding box and the camera are computed
      in IEEE-754 binary64, Rocq's primitive [float], as are the numbers of
      the environment message and of the camera rescaling.
    - Library functions of the JavaScript runtime that the code calls but does
      not define ([Math.sin], [Math.cos], [parseFloat], the number-to-string
      conversion of template literals) are [Variable]s of a [Section]. *)

From Stdlib Require Import List Ascii String ZArith Lia Bool Arith PrimFloat Permutation Sorting.Sorted.
From Stdlib Require Import FloatAxioms FloatOps SpecFloat.
Import ListNotations.

Set Warnings "-inexact-float".

(* ================================================================== *)
(** ** JavaScript strings *)
(* ================================================================== *)

Module JsString.

(** A string whose code units are below 256, one [ascii] for each. *)
Definition str := list ascii.

Definition lit (s : string) : str := list_ascii_of_string s.

Definition str_eq_dec : forall a b : str, {a = b} + {a <> b} :=
  list_eq_dec ascii_dec.

(** [c.toLowerCase()] on one character: the capital letters of the range,
    A-Z (65..90), and the accented ones U+00C0..U+00DE (192..222) but the
    multiplication sign U+00D7 (215), move 32 places up; every other
    character below 256 is its own lower case. *)
Definition lower_char (c : ascii) : ascii :=
  let n := nat_of_ascii c in
  if ((65 <=? n)%nat && (n <=? 90)%nat) ||
     ((192 <=? n)%nat && (n <=? 222)%nat && negb (n =? 215)%nat)
  then ascii_of_nat (n + 32) else c.

(** [s.toLowerCase()] *)
Definition toLowerCase (s : str) : str := map lower_char s.

(** White space as [String.prototype.trim] and the class [\s] see it
    (WhiteSpace and LineTerminator of ECMAScript), below 256: TAB, LF, VT,
    FF, CR, SPACE and the no-break space U+00A0 (160). *)
Definition is_space (c : ascii) : bool :=
  let n := nat_of_ascii c in
  ((9 <=? n)%nat && (n <=? 13)%nat) || (n =? 32)%nat || (n =? 160)%nat.

Definition is_digit (c : ascii) : bool :=
  let n := nat_of_ascii c in
  (48 <=? n)%nat && (n <=? 57)%nat.

Fixpoint trimStart (s : str) : str :=
  match s with
  | c :: t => if is_space c then trimStart t else s
  | [] => []
  end.

Definition trimEnd (s : str) : str := rev (trimStart (rev s)).

(** [s.trim()] *)
Definition trim (s : str) : str := trimEnd (trimStart s).

(** [p] is a prefix of [s], character by character. *)
Fixpoint starts_with (p s : str) : bool :=
  match p, s with
  | [], _ => true
  | a :: p', b :: s' => if ascii_dec a b then starts_with p' s' else false
  | _ :: _, [] => false
  end.

(** [s.includes(p)] *)
Fixpoint includes (p s : str) : bool :=
  starts_with p s ||
  match s with
  | [] => false
  | _ :: t => includes p t
  end.

End JsString.

Import JsString.

(* ================================================================== *)
(** ** The script of VOXEL_TEMPLATE *)
(* ================================================================== *)

Module Template.

(** *** Voxels and [addBlock] *)

(** [{x, y, z, type}] *)
Record voxel := Voxel { vx : Z; vy : Z; vz : Z; vtype : str }.

(** The fourth argument of [addBlock], as the generator is told to pass it:
    left out ([undefined]), [null], or a string. Other values are outside
    the embedding: a falsy one ([0], [false], [NaN]) is replaced by
    ['stone'] like [null], and a truthy one that is no string has no
    [toLowerCase], so that the call raises a TypeError. *)
Inductive jsarg :=
| JUndefined
| JNull
| JString (s : str).

(** [type || 'stone']: [undefined], [null] and [''] are falsy. *)
Definition or_stone (type : jsarg) : str :=
  match type with
  | JString (c :: s) => c :: s
  | _ => lit "stone"
  end.

(** [.replace(/ /g, '_')] *)
Definition replace_spaces (s : str) : str :=
  map (fun c => if ascii_dec c " "%char then "_"%char else c) s.

(** [[
function addBlock(x, y, z, type) {
    type = (type || 'stone').toLowerCase().replace(/ /g, '_');
    voxels.push({x, y, z, type});
}
]] *)
Definition addBlock (x y z : Z) (type : jsarg) (voxels : list voxel) : list voxel :=
  let type' := replace_spaces (toLowerCase (or_stone type)) in
  voxels ++ [Voxel x y z type'].

(** *** The injected instructions

    [init] pastes the text produced by the generator into an arrow function
    and runs it. The texts embedded here are those that the generator is
    instructed to write: texts that parse, and whose effect is a sequence
    of calls of [addBlock], at the top level or inside one top-level
    function [generateWorld], of calls of that function, and of statements
    that raise an exception. Loops and conditionals are taken unrolled.
    Outside this class are texts that do not parse (the whole script is
    then rejected and [init] never runs), and texts that assign to
    [addBlock], [generateWorld] or [voxels], write to [voxels] otherwise
    than through [addBlock], or leave the arrow function early with a
    [return]. *)

(** A statement of the body of [generateWorld]. *)
Inductive stmt :=
| Place (x y z : Z) (type : jsarg)   (* addBlock(x, y, z, type) *)
| Throw.                             (* any statement that raises *)

(** A top-level statement of the injected text. *)
Inductive top :=
| Do (s : stmt)
| CallGenerateWorld.                 (* generateWorld() *)

(** The injected text: the declaration of [generateWorld] when there is one
    (a function declaration is hoisted, so it is in scope for the whole
    text), and the top-level statements in order. *)
Record aiCode := AiCode {
  generateWorld : option (list stmt);
  body : list top
}.

(** The part of the script's state that the instructions touch: the global
    [voxels] array, and how many times [generateWorld] has been entered. *)
Record store := Store {
  voxels : list voxel;
  calls : nat
}.

(** Outcome of running statements: completion, or an exception that unwinds
    to the [catch] of [init]. Either way the store is what the statements
    left behind. *)
Inductive outcome :=
| Done (st : store)
| Raised (st : store).

Definition store_of (o : outcome) : store :=
  match o with Done st | Raised st => st end.

Definition bind (o : outcome) (k : store -> outcome) : outcome :=
  match o with
  | Done st => k st
  | Raised st => Raised st
  end.

Notation "o >>= k" := (bind o k) (at level 50, left associativity).

Definition exec_stmt (s : stmt) (st : store) : outcome :=
  match s with
  | Place x y z type => Done (Store (addBlock x y z type (voxels st)) (calls st))
  | Throw => Raised st
  end.

Fixpoint exec_stmts (l : list stmt) (st : store) : outcome :=
  match l with
  | [] => Done st
  | s :: l' => exec_stmt s st >>= exec_stmts l'
  end.

(** [generateWorld()]: a ReferenceError when the text declares no such
    function. *)
Definition call_generateWorld (gw : option (list stmt)) (st : store) : outcome :=
  match gw with
  | Some b => exec_stmts b (Store (voxels st) (S (calls st)))
  | None => Raised st
  end.

Definition exec_top (gw : option (list stmt)) (t : top) (st : store) : outcome :=
  match t with
  | Do s => exec_stmt s st
  | CallGenerateWorld => call_generateWorld gw st
  end.

Fixpoint exec_tops (gw : option (list stmt)) (l : list top) (st : store) : outcome :=
  match l with
  | [] => Done st
  | t :: l' => exec_top gw t st >>= exec_tops gw l'
  end.

(** [[
(() => {
    ${aiCode}
    // If the AI defined a function but didn't call it, call it now.
    if (typeof generateWorld === 'function') {
        generateWorld();
    }
})();
]] *)
Definition run_injected (code : aiCode) (st : store) : outcome :=
  exec_tops (generateWorld code) (body code) st >>= fun st' =>
  match generateWorld code with
  | Some _ => call_generateWorld (generateWorld code) st'
  | None => Done st'
  end.

(** *** The fallback platform *)

(** [for (let v = -2; v <= 2; v++)] *)
Definition minus2_to_2 : list Z := [-2; -1; 0; 1; 2]%Z.

(** [[
for(let x=-2; x<=2; x++) {
    for(let z=-2; z<=2; z++) {
        addBlock(x, 0, z, 'bedrock');
    }
}
addBlock(0, 1, 0, 'planks_oak');
addBlock(0, 2, 0, 'planks_oak');
]] *)
Definition create_fallback (vs : list voxel) : list voxel :=
  let vs1 :=
    fold_left (fun acc x =>
      fold_left (fun acc' z => addBlock x 0 z (JString (lit "bedrock")) acc')
                minus2_to_2 acc)
      minus2_to_2 vs in
  let vs2 := addBlock 0 1 0 (JString (lit "planks_oak")) vs1 in
  addBlock 0 2 0 (JString (lit "planks_oak")) vs2.

(** [if (voxels.length === 0) { ... }] *)
Definition fallback_if_empty (vs : list voxel) : list voxel :=
  match vs with
  | [] => create_fallback vs
  | _ :: _ => vs
  end.

(** *** Bounding box and camera framing

    To the script a coordinate is a number, an IEEE-754 binary64 value, and
    the bounding box and the camera are computed in binary64 arithmetic,
    starting from [Infinity] and [-Infinity]. *)

(** The number that an integer coordinate is to the script: the binary64
    value nearest to it (the integer itself up to 2^53 in size, an infinity
    beyond the range of binary64). *)
Definition Number_of (z : Z) : float :=
  SF2Prim (binary_normalize prec emax z 0 false).

Record bbox := BBox {
  minX : float; maxX : float;
  minY : float; maxY : float;
  minZ : float; maxZ : float
}.

(** [let minX=Infinity, maxX=-Infinity, minY=Infinity, ...] *)
Definition bbox_init : bbox :=
  BBox infinity neg_infinity infinity neg_infinity infinity neg_infinity.

(** [if(v<lo) lo=v;] *)
Definition lower (v lo : float) : float := if (v <? lo)%float then v else lo.

(** [if(v>hi) hi=v;] *)
Definition raise (v hi : float) : float := if (hi <? v)%float then v else hi.

(** The bounding-box part of the body of [voxels.forEach(v => { ... })]. *)
Definition bbox_step (b : bbox) (v : voxel) : bbox :=
  BBox (lower (Number_of (vx v)) (minX b)) (raise (Number_of (vx v)) (maxX b))
       (lower (Number_of (vy v)) (minY b)) (raise (Number_of (vy v)) (maxY b))
       (lower (Number_of (vz v)) (minZ b)) (raise (Number_of (vz v)) (maxZ b)).

Definition bounding_box (vs : list voxel) : bbox :=
  fold_left bbox_step vs bbox_init.

(** [Math.max(a, b)]: NaN when an argument is NaN, else the larger one,
    [+0] counting as larger than [-0]. *)
Definition Math_max (a b : float) : float :=
  if is_nan a || is_nan b then nan
  else if (a <? b)%float then b
  else if (b <? a)%float then a
  else if get_sign a then b else a.

(** [Math.max(a, b, c)] *)
Definition Math_max3 (a b c : float) : float := Math_max (Math_max a b) c.

Definition vec3 := (float * float * float)%type.

(** What [init] does to the camera and the orbit controls: the arguments of
    [camera.position.set] and of [controls.target.set], and whether it then
    calls [controls.update()], the routine of the three.js library that
    turns the camera towards the target (re-deriving the position from the
    orbit around the target, which can move its last digits). *)
Record framing := Framing {
  camera_position_set : vec3;
  controls_target_set : vec3;
  controls_update_called : bool
}.

(** [[
if(voxels.length > 0) {
    const cx = (minX+maxX)/2;
    const cy = (minY+maxY)/2;
    const cz = (minZ+maxZ)/2;
    const size = Math.max(maxX-minX, maxY-minY, maxZ-minZ);
    controls.target.set(cx, cy, cz);
    camera.position.set(cx + size + 15, cy + size + 10, cz + size + 15);
    controls.update();
} else {
    camera.position.set(20,20,20);
    controls.target.set(0,0,0);
}
]] *)
Definition frame_camera (vs : list voxel) : framing :=
  let b := bounding_box vs in
  if (0 <? List.length vs)%nat then
    let cx := ((minX b + maxX b) / 2)%float in
    let cy := ((minY b + maxY b) / 2)%float in
    let cz := ((minZ b + maxZ b) / 2)%float in
    let size := Math_max3 (maxX b - minX b) (maxY b - minY b) (maxZ b - minZ b) in
    Framing (cx + size + 15, cy + size + 10, cz + size + 15)%float (cx, cy, cz) true
  else
    Framing (20, 20, 20)%float (0, 0, 0)%float false.

(** *** [generateRecipeBook]

    [counts] and each [layers[y]] are plain objects ([{}]) indexed by the
    voxel type. A plain object answers a read with its own property when it
    has one and with what it inherits from [Object.prototype] otherwise; of
    the inherited names only [constructor] and [__proto__] can equal a
    stored type, every other one having an upper-case letter that
    [addBlock] would have lowered. *)

(** A value held by a property of [counts]: a number, or the text that [+]
    produces once one operand is not a number. *)
Inductive jsval :=
| VNum (n : nat)
| VText (s : str).

(** Own properties, in insertion order, which is the order of
    [Object.entries] for keys that do not spell an array index (an engine
    lists those first); the statements about arbitrary voxel lists read the
    table by key, through [own]. *)
Definition object := list (str * jsval).

Fixpoint own (o : object) (k : str) : option jsval :=
  match o with
  | [] => None
  | (k', v) :: o' => if str_eq_dec k' k then Some v else own o' k
  end.

(** How [Object] (the value of the inherited [constructor]) converts to a
    string: the source text of a native function, as V8, SpiderMonkey and
    JavaScriptCore print it. *)
Definition Object_source : str := lit "function Object() { [native code] }".

(** How [Object.prototype] (the value of the inherited [__proto__]) converts
    to a string. *)
Definition Object_prototype_text : str := lit "[object Object]".

(** [(o[k] || 0) + 1]. The operand of [+] is the own property when it is
    truthy, an inherited object (converted to its text) for the two inherited
    names, and [0] otherwise. *)
Definition bump (o : object) (k : str) : jsval :=
  match own o k with
  | Some (VNum 0) => VNum 1
  | Some (VNum n) => VNum (n + 1)
  | Some (VText []) => VNum 1
  | Some (VText s) => VText (s ++ lit "1")
  | None =>
      if str_eq_dec k (lit "constructor") then VText (Object_source ++ lit "1")
      else if str_eq_dec k (lit "__proto__") then VText (Object_prototype_text ++ lit "1")
      else VNum 1
  end.

Fixpoint update (o : object) (k : str) (v : jsval) : object :=
  match o with
  | [] => [(k, v)]
  | (k', v') :: o' =>
      if str_eq_dec k' k then (k', v) :: o' else (k', v') :: update o' k v
  end.

(** [o[k] = v] for a number or a string [v]: the inherited setter of
    [__proto__] ignores such a value; any other name becomes (or stays) an
    own property. *)
Definition assign (o : object) (k : str) (v : jsval) : object :=
  if str_eq_dec k (lit "__proto__") then o else update o k v.

(** [o[k] = (o[k]||0)+1] *)
Definition count_one (o : object) (k : str) : object := assign o k (bump o k).

(** [[
const counts = {};
voxels.forEach(v => counts[v.type] = (counts[v.type]||0)+1);
]] *)
Definition total_counts (vs : list voxel) : object :=
  fold_left (fun counts v => count_one counts (vtype v)) vs [].

(** [layers]: an object indexed by [v.y]. Its keys are the decimal
    spellings of integers, which no inherited name collides with and which
    [parseInt] reads back, so the integer itself stands for the key. (This
    is so for coordinates below 10^21 in size, which a number spells out
    digit by digit; beyond, the spelling has an exponent, which [parseInt]
    does not read.) *)
Definition layer_table := list (Z * object).

Fixpoint layer_get (ls : layer_table) (y : Z) : option object :=
  match ls with
  | [] => None
  | (y', o) :: ls' => if Z.eq_dec y' y then Some o else layer_get ls' y
  end.

Fixpoint layer_set (ls : layer_table) (y : Z) (o : object) : layer_table :=
  match ls with
  | [] => [(y, o)]
  | (y', o') :: ls' =>
      if Z.eq_dec y' y then (y', o) :: ls' else (y', o') :: layer_set ls' y o
  end.

(** [[
if(!layers[v.y]) layers[v.y] = {};
layers[v.y][v.type] = (layers[v.y][v.type]||0)+1;
]] *)
Definition layer_step (ls : layer_table) (v : voxel) : layer_table :=
  let o := match layer_get ls (vy v) with Some o => o | None => [] end in
  layer_set ls (vy v) (count_one o (vtype v)).

Definition layers_of (vs : list voxel) : layer_table :=
  fold_left layer_step vs [].

(** [.sort((a,b) => parseInt(a)-parseInt(b))]: a stable sort by the numeric
    value of the keys, here by insertion. *)
Fixpoint insert_sorted (y : Z) (l : list Z) : list Z :=
  match l with
  | [] => [y]
  | h :: t => if (y <? h)%Z then y :: h :: t else h :: insert_sorted y t
  end.

Definition sort_keys (l : list Z) : list Z := fold_right insert_sorted [] l.

(** [Object.keys(layers)]. (An engine lists the keys that are array indices
    first and in ascending order; the keys are pairwise different, so the
    sort that follows returns the same array from either order, see
    [sort_keys_order_irrelevant].) *)
Definition Object_keys (ls : layer_table) : list Z := map fst ls.

(** One group of the layer guide: the title ["Layer n (Y=y)"] and the rows
    of [Object.entries(layers[y])]. *)
Record layer_group := LayerGroup {
  layer_number : nat;
  layer_y : Z;
  layer_rows : object
}.

Fixpoint number_layers (ls : layer_table) (idx : nat) (ys : list Z) : list layer_group :=
  match ys with
  | [] => []
  | y :: ys' =>
      LayerGroup (idx + 1) y (match layer_get ls y with Some o => o | None => [] end)
      :: number_layers ls (S idx) ys'
  end.

(** What [generateRecipeBook] writes into the two lists of the panel: the
    rows of [#list-summary] and the groups of [#list-layers]. *)
Record recipe_book := RecipeBook {
  list_summary : object;
  list_layers : list layer_group
}.

(** [[
const sortedYs = Object.keys(layers).sort((a,b) => parseInt(a)-parseInt(b));
sortedYs.forEach((y, idx) => { ... Layer ${idx+1} (Y=${y}) ...
    for (const [t, c] of Object.entries(layers[y])) { ... } });
]] *)
Definition generateRecipeBook (vs : list voxel) : recipe_book :=
  let layers := layers_of vs in
  let sortedYs := sort_keys (Object_keys layers) in
  RecipeBook (total_counts vs) (number_layers layers 0 sortedYs).

(** *** [init] *)

(** What [init] leaves behind, as far as the voxels are concerned. *)
Record scene := Scene {
  scene_voxels : list voxel;
  generateWorld_calls : nat;
  scene_framing : framing;
  scene_recipe : option recipe_book;
  error_box_shown : bool
}.

(** When [init] does not get as far as the framing, nothing is set. *)
Definition framing_default : framing :=
  Framing (0, 0, 0)%float (0, 0, 0)%float false.

(** [[
function init() {
    try {
        ...
        (() => { ${aiCode} ... })();
        if (voxels.length === 0) { ...fallback... }
        ...bounding box, camera...
        generateRecipeBook();
        animate();
    } catch (err) {
        errBox.style.display = 'block';
        ...
    }
}
]] *)
Definition init (code : aiCode) : scene :=
  match run_injected code (Store [] 0) with
  | Done st =>
      let vs := fallback_if_empty (voxels st) in
      Scene vs (calls st) (frame_camera vs) (Some (generateRecipeBook vs)) false
  | Raised st =>
      Scene (voxels st) (calls st) framing_default None true
  end.

End Template.

(* ================================================================== *)
(** ** The ['message'] listener of VOXEL_TEMPLATE *)
(* ================================================================== *)

Module Environment.

Local Open Scope float_scope.

Definition vec := (float * float * float)%type.

Inductive color :=
| Hex (rgb : Z)                 (* new THREE.Color(0x...) *)
| HSL (h s l : float).          (* color.setHSL(h, s, l) *)

Record light := Light {
  intensity : float;
  position : vec
}.

(** The cone of light shafts. *)
Record godray := GodRay {
  ray_position : vec;
  ray_visible : bool;
  ray_opacity : float
}.

(** What the listener reads and writes once [init] has built the lights. *)
Record rig := Rig {
  sunLight : light;
  moonLight : light;
  godRayMesh : option godray;
  background : color;
  fog_color : color
}.

(** [el.style.display] of the build-guide panel. *)
Inductive display := DisplayNone | DisplayFlex.

(** [lights] is [None] while the global [sunLight] is still undefined. *)
Record world := World {
  lights : option rig;
  instructions : display
}.

(** [e.data] *)
Inductive message :=
| MsgEnvironment (sunlight godrays : float)   (* {type: 'environment', ...} *)
| MsgToggleInstructions                       (* {type: 'toggleInstructions'} *)
| MsgOther.

(** The bands of the sky, named as the comments of the listener name them. *)
Inductive band := Dawn | Day | Sunset | Night | Sunrise.

(** The argument of [sky.setHSL] in each branch. *)
Definition band_hsl (b : band) : color :=
  match b with
  | Dawn => HSL 0.05 0.8 0.5
  | Day => HSL 0.6 0.7 0.8
  | Sunset => HSL 0.85 0.6 0.6
  | Night => HSL 0.65 0.5 0.05
  | Sunrise => HSL 0.05 0.8 0.5
  end.

(** [[
if (time < 0.1) { // Dawn (Dark -> Orange)
} else if (time < 0.4) { // Morning/Noon (Blue)
} else if (time < 0.55) { // Sunset (Purple/Orange)
} else if (time < 0.9) { // Night (Black/Dark Blue)
} else { // Sunrise
}
]] *)
Definition sky_band (time : float) : band :=
  if time <? 0.1 then Dawn
  else if time <? 0.4 then Day
  else if time <? 0.55 then Sunset
  else if time <? 0.9 then Night
  else Sunrise.

(** [intensity !== 0] *)
Definition lit_up (l : light) : bool := negb (intensity l =? 0).

Section Listener.

(** [Math.sin] and [Math.cos] of the runtime. *)
Variables Math_sin Math_cos : float -> float.

Definition Math_PI : float := 3.141592653589793.

(** [const angle = (time * Math.PI * 2) - Math.PI/2;] *)
Definition sun_angle (time : float) : float :=
  (time * Math_PI * 2) - Math_PI / 2.

Definition radius : float := 120.

(** [const sx = Math.cos(angle) * radius;] *)
Definition sun_x (time : float) : float := Math_cos (sun_angle time) * radius.

(** [const sy = Math.sin(angle) * radius;], the height of the sun. *)
Definition sun_y (time : float) : float := Math_sin (sun_angle time) * radius.

(** [const isDay = sy > -10;] *)
Definition isDay (sy : float) : bool := -10 <? sy.

(** The branch of the listener for an environment message. *)
Definition set_environment (time godRayInt : float) (r : rig) : rig :=
  let sx := sun_x time in
  let sy := sun_y time in
  let sun_pos := (sx, sy, 20) in
  let sun := Light (if isDay sy then 1.2 else 0) sun_pos in
  let moon := Light (if isDay sy then 0 else 0.5) (- sx, - sy, 20) in
  let rays :=
    match godRayMesh r with
    | Some _ => Some (GodRay sun_pos (0 <? sy) (if 0 <? sy then godRayInt * 0.3 else 0))
    | None => None
    end in
  let sky := band_hsl (sky_band time) in
  Rig sun moon rays sky sky.

Definition toggle (d : display) : display :=
  match d with
  | DisplayNone => DisplayFlex
  | DisplayFlex => DisplayNone
  end.

(** [window.addEventListener('message', (e) => { ... })] *)
Definition onMessage (m : message) (w : world) : world :=
  match m with
  | MsgToggleInstructions => World (lights w) (toggle (instructions w))
  | MsgEnvironment time godRayInt =>
      match lights w with
      | Some r => World (Some (set_environment time godRayInt r)) (instructions w)
      | None => w
      end
  | MsgOther => w
  end.

End Listener.

End Environment.

(* ================================================================== *)
(** ** Regular expressions, as the JavaScript engine runs them *)
(* ================================================================== *)

Module Regex.

(** The character classes that occur in [html.ts]. *)
Inductive cls :=
| Any      (* [\s\S] *)
| Space    (* \s *)
| Digit.   (* \d *)

Definition in_cls (k : cls) (c : ascii) : bool :=
  match k with
  | Any => true
  | Space => is_space c
  | Digit => is_digit c
  end.

(** The fragment of the pattern language that [html.ts] uses. Quantifiers
    apply to character classes only, as they do there. *)
Inductive regex :=
| Chars (p : str)          (* literal characters *)
| Alt (r1 r2 : regex)      (* r1|r2 *)
| Cat (r1 r2 : regex)      (* r1r2 *)
| Opt (r : regex)          (* r? *)
| Star (k : cls)           (* k* *)
| Plus (k : cls)           (* k+ *)
| Lazy (k : cls)           (* k*? *)
| Group (r : regex).       (* (r), capturing *)

(** The text between two positions of the same string, the second given by
    what is left of the input there. *)
Definition consumed (s rest : str) : str :=
  firstn (List.length s - List.length rest) s.

Section Matcher.

(** The [i] flag. The engine compares the upper cases of two characters;
    below 256 two characters have the same upper case exactly when they
    have the same lower case. *)
Variable ignoreCase : bool.

Definition char_eqb (a b : ascii) : bool :=
  if ignoreCase
  then if ascii_dec (lower_char a) (lower_char b) then true else false
  else if ascii_dec a b then true else false.

(** Match the literal [p] at the head of [s]; the rest of [s] on success. *)
Fixpoint match_chars (p s : str) : option str :=
  match p, s with
  | [], _ => Some s
  | a :: p', b :: s' => if char_eqb a b then match_chars p' s' else None
  | _ :: _, [] => None
  end.

Variable A : Type.

(** Greedy [k*]: take one more character first, give it back when what
    follows fails. *)
Fixpoint star_greedy (k : cls) (kont : str -> option A) (s : str) : option A :=
  match s with
  | c :: t =>
      if in_cls k c then
        match star_greedy k kont t with
        | Some a => Some a
        | None => kont s
        end
      else kont s
  | [] => kont s
  end.

(** Lazy [k*?]: try what follows first, take one more character when it
    fails. *)
Fixpoint star_lazy (k : cls) (kont : str -> option A) (s : str) : option A :=
  match kont s with
  | Some a => Some a
  | None =>
      match s with
      | c :: t => if in_cls k c then star_lazy k kont t else None
      | [] => None
      end
  end.

(** The backtracking matcher: [run r s caps kont] matches [r] at the head of
    [s], having captured [caps] so far, and hands the rest of the input and
    the captures to [kont]; when [kont] fails the next alternative of [r] is
    tried, in the engine's order. *)
Fixpoint run (r : regex) (s : str) (caps : list str)
             (kont : str -> list str -> option A) : option A :=
  match r with
  | Chars p =>
      match match_chars p s with
      | Some s' => kont s' caps
      | None => None
      end
  | Alt r1 r2 =>
      match run r1 s caps kont with
      | Some a => Some a
      | None => run r2 s caps kont
      end
  | Cat r1 r2 => run r1 s caps (fun s' caps' => run r2 s' caps' kont)
  | Opt r1 =>
      match run r1 s caps kont with
      | Some a => Some a
      | None => kont s caps
      end
  | Star k => star_greedy k (fun s' => kont s' caps) s
  | Plus k =>
      match s with
      | c :: t => if in_cls k c then star_greedy k (fun s' => kont s' caps) t else None
      | [] => None
      end
  | Lazy k => star_lazy k (fun s' => kont s' caps) s
  | Group r1 => run r1 s caps (fun s' caps' => kont s' (caps' ++ [consumed s s']))
  end.

End Matcher.

(** A match: the text before it, the matched text ([m[0]]), the captures
    ([m[1]], [m[2]], ...) and the text after it. *)
Record rmatch := RMatch {
  before : str;
  matched : str;
  groups : list str;
  after : str
}.

(** [m[n]] for [n >= 1] *)
Definition group (n : nat) (m : rmatch) : str := nth (n - 1) (groups m) [].

(** Match [r] at the head of [s]. *)
Definition match_here (ignoreCase : bool) (r : regex) (s : str) : option (str * list str) :=
  run ignoreCase (str * list str) r s [] (fun s' caps => Some (s', caps)).

(** The leftmost match: every start position in turn. [pre] holds the
    characters passed so far, last first. *)
Fixpoint search (ignoreCase : bool) (r : regex) (pre s : str) : option rmatch :=
  match match_here ignoreCase r s with
  | Some (s', caps) => Some (RMatch (rev pre) (consumed s s') caps s')
  | None =>
      match s with
      | [] => None
      | c :: t => search ignoreCase r (c :: pre) t
      end
  end.

(** [s.match(r)] for a pattern without the [g] flag. *)
Definition exec (ignoreCase : bool) (r : regex) (s : str) : option rmatch :=
  search ignoreCase r [] s.

(** [s.replace(r, text)] for a pattern without the [g] flag and a
    replacement text without [$]: the first match is replaced. *)
Definition replace_first (ignoreCase : bool) (r : regex) (text s : str) : str :=
  match exec ignoreCase r s with
  | Some m => before m ++ text ++ after m
  | None => s
  end.

(** [s.replace(r, f)] for a pattern with the [g] flag: the matches are found
    from left to right, each search starting where the previous match ended
    (one character further after an empty match). [fuel] bounds the number
    of matches; a string of [n] characters has at most [n + 1]. *)
Fixpoint replace_loop (fuel : nat) (ignoreCase : bool) (r : regex)
                      (f : rmatch -> str) (s : str) : str :=
  match fuel with
  | O => s
  | S fuel' =>
      match exec ignoreCase r s with
      | None => s
      | Some m =>
          before m ++ f m ++
          match matched m, after m with
          | [], [] => []
          | [], c :: t => c :: replace_loop fuel' ignoreCase r f t
          | _ :: _, rest => replace_loop fuel' ignoreCase r f rest
          end
      end
  end.

Definition replace_all (ignoreCase : bool) (r : regex) (f : rmatch -> str) (s : str) : str :=
  replace_loop (S (List.length s)) ignoreCase r f s.

End Regex.

Import Regex.

(* ================================================================== *)
(** ** src/utils/html.ts *)
(* ================================================================== *)

Module Html.

(** [/(<!DOCTYPE html>|<html)[\s\S]*?<\/html>/i] *)
Definition html_re : regex :=
  Cat (Group (Alt (Chars (lit "<!DOCTYPE html>")) (Chars (lit "<html"))))
      (Cat (Lazy Any) (Chars (lit "</html>"))).

(** [/```(?:html)?\s*([\s\S]*?)```/] *)
Definition code_block_re : regex :=
  Cat (Chars (lit "```"))
      (Cat (Opt (Chars (lit "html")))
           (Cat (Star Space)
                (Cat (Group (Lazy Any)) (Chars (lit "```"))))).

(** [[
export const extractHtmlFromText = (text: string): string => {
  if (!text) return "";
  const htmlMatch = text.match(/(<!DOCTYPE html>|<html)[\s\S]*?<\/html>/i);
  if (htmlMatch) { return htmlMatch[0]; }
  const codeBlockMatch = text.match(/```(?:html)?\s*([\s\S]*?)```/);
  if (codeBlockMatch) { return codeBlockMatch[1].trim(); }
  return text.trim();
};
]] *)
Definition extractHtmlFromText (text : str) : str :=
  match text with
  | [] => []
  | _ :: _ =>
      match exec true html_re text with
      | Some htmlMatch => matched htmlMatch
      | None =>
          match exec false code_block_re text with
          | Some codeBlockMatch => trim (group 1 codeBlockMatch)
          | None => trim text
          end
      end
  end.

(** The template literal [cssToInject], character for character. *)
Definition cssToInject : str := lit "
    <style>
      /* Hides common overlay IDs and classes used in Three.js examples and generated code */
      #info, #loading, #ui, #instructions, .label, .overlay, #description {
        display: none !important;
        opacity: 0 !important;
        pointer-events: none !important;
        visibility: hidden !important;
      }
      /* Exception for our build instructions panel */
      #mc-build-instructions {
        opacity: 1 !important;
        pointer-events: auto !important;
        visibility: visible !important;
        /* Don't force display:block here, let JS toggle it */
      }
      /* Ensure the body doesn't show selected text cursor interaction outside canvas */
      body {
        user-select: none !important;
      }
    </style>
  ".

(** [[
if (html.toLowerCase().includes('</head>')) {
  return html.replace(/<\/head>/i, `${cssToInject}</head>`);
}
if (html.toLowerCase().includes('</body>')) {
  return html.replace(/<\/body>/i, `${cssToInject}</body>`);
}
return html + cssToInject;
]] *)
Definition hideBodyText (html : str) : str :=
  if includes (lit "</head>") (toLowerCase html) then
    replace_first true (Chars (lit "</head>")) (cssToInject ++ lit "</head>") html
  else if includes (lit "</body>") (toLowerCase html) then
    replace_first true (Chars (lit "</body>")) (cssToInject ++ lit "</body>") html
  else html ++ cssToInject.

(** [(-?\d*\.?\d+)] *)
Definition number_re : regex :=
  Group (Cat (Opt (Chars (lit "-")))
             (Cat (Star Digit) (Cat (Opt (Chars (lit "."))) (Plus Digit)))).

(** [/camera\.position\.set\(\s*(-?\d*\.?\d+)\s*,\s*(-?\d*\.?\d+)\s*,\s*(-?\d*\.?\d+)\s*\)/g] *)
Definition camera_re : regex :=
  Cat (Chars (lit "camera.position.set("))
  (Cat (Star Space) (Cat number_re (Cat (Star Space) (Cat (Chars (lit ","))
  (Cat (Star Space) (Cat number_re (Cat (Star Space) (Cat (Chars (lit ","))
  (Cat (Star Space) (Cat number_re (Cat (Star Space) (Chars (lit ")"))))))))))))).

Section ZoomCamera.

(** [parseFloat] and the conversion of a number to a string that a template
    literal performs, both of the runtime. *)
Variable parseFloat : str -> float.
Variable Number_toString : float -> str.

(** The replacement function of [zoomCamera]:
[[
(match, x, y, z) => {
  const newX = parseFloat(x) * zoomFactor;
  const newY = parseFloat(y) * zoomFactor;
  const newZ = parseFloat(z) * zoomFactor;
  return `camera.position.set(${newX}, ${newY}, ${newZ})`;
}
]] *)
Definition rescaled_call (zoomFactor : float) (x y z : str) : str :=
  let newX := (parseFloat x * zoomFactor)%float in
  let newY := (parseFloat y * zoomFactor)%float in
  let newZ := (parseFloat z * zoomFactor)%float in
  lit "camera.position.set(" ++ Number_toString newX ++ lit ", " ++
  Number_toString newY ++ lit ", " ++ Number_toString newZ ++ lit ")".

(** [html.replace(regex, (match, x, y, z) => ...)] *)
Definition zoomCamera (html : str) (zoomFactor : float) : str :=
  replace_all false camera_re
    (fun m => rescaled_call zoomFactor (group 1 m) (group 2 m) (group 3 m))
    html.

(** [zoomCamera(html)], the factor left to its default [0.8]. *)
Definition zoomCamera_default (html : str) : str := zoomCamera html 0.8%float.

End ZoomCamera.

End Html.

(* ================================================================== *)
(** ** The order of binary64 numbers *)
(* ================================================================== *)

Module FloatOrder.

Local Open Scope float_scope.

Ltac compare_cases :=
  repeat match goal with
         | |- context [(?a ?= ?b)%Z] => destruct (Z.compare_spec a b)
         | |- context [PosDef.Pos.compare_cont Eq ?a ?b] =>
             change (PosDef.Pos.compare_cont Eq a b) with (Pos.compare a b);
             destruct (Pos.compare_spec a b)
         end.

Ltac by_cases :=
  unfold SFltb, SFeqb, SFcompare;
  repeat match goal with
         | x : spec_float |- _ => destruct x as [[]|[]| |[] ? ?]
         end;
  cbn; try discriminate; try reflexivity;
  compare_cases; cbn; intros; subst;
  try discriminate; try reflexivity; try lia.

Lemma SFltb_irrefl x : SFltb x x = false.
Proof. by_cases. Qed.

Lemma SFltb_asym x y : SFltb x y = true -> SFltb y x = false.
Proof. by_cases. Qed.

Lemma SFltb_trans x y z : SFltb x y = true -> SFltb y z = true -> SFltb x z = true.
Proof. by_cases. Qed.

(** Two numbers neither of which is below the other compare alike with
    every third one. *)
Lemma SFltb_tie x y z :
  SFeqb x x = true -> SFeqb y y = true ->
  SFltb x y = false -> SFltb y x = false -> SFltb y z = SFltb x z.
Proof.
  unfold SFltb, SFeqb, SFcompare.
  destruct x as [[]|[]| |[] mx ex], y as [[]|[]| |[] my ey];
    cbn; try discriminate;
    compare_cases; cbn; intros; subst; try discriminate; try lia;
    destruct z as [[]|[]| |[] mz ez]; reflexivity.
Qed.

Lemma ltb_irrefl a : (a <? a) = false.
Proof. rewrite ltb_spec. apply SFltb_irrefl. Qed.

Lemma ltb_asym a b : (a <? b) = true -> (b <? a) = false.
Proof. rewrite !ltb_spec. apply SFltb_asym. Qed.

Lemma ltb_trans a b c : (a <? b) = true -> (b <? c) = true -> (a <? c) = true.
Proof. rewrite !ltb_spec. apply SFltb_trans. Qed.

Lemma ltb_tie a b c :
  is_nan a = false -> is_nan b = false ->
  (a <? b) = false -> (b <? a) = false -> (b <? c) = (a <? c).
Proof.
  unfold is_nan. rewrite !negb_false_iff, !eqb_spec, !ltb_spec. apply SFltb_tie.
Qed.

Lemma nan_ltb a : (nan <? a) = false.
Proof. rewrite ltb_spec. reflexivity. Qed.

End FloatOrder.

(* ================================================================== *)
(** ** Properties of [addBlock] and of the execution of the instructions *)
(* ================================================================== *)

Module TemplateProofs.

Import Template FloatOrder.

(** Lower-casing neither creates nor removes a space. *)
Lemma lower_char_space : forall c, lower_char c = " "%char <-> c = " "%char.
Proof.
  intros [[] [] [] [] [] [] [] []]; vm_compute; split; congruence.
Qed.

Lemma nth_error_map_some {A B} (f : A -> B) l i a :
  nth_error l i = Some a -> nth_error (map f l) i = Some (f a).
Proof.
  revert i; induction l as [|h t IH]; intros [|i]; simpl; try discriminate.
  - intros [= ->]; reflexivity.
  - apply IH.
Qed.

(** The stored type, character by character. *)
Lemma normalised_type_char s i c :
  nth_error s i = Some c ->
  nth_error (replace_spaces (toLowerCase s)) i =
    Some (if ascii_dec c " "%char then "_"%char else lower_char c).
Proof.
  intros H. unfold replace_spaces, toLowerCase.
  rewrite (nth_error_map_some _ _ _ _ (nth_error_map_some lower_char _ _ _ H)).
  f_equal.
  destruct (ascii_dec (lower_char c) " ") as [e|n], (ascii_dec c " ") as [e'|n'];
    try reflexivity.
  - apply (proj1 (lower_char_space c)) in e; contradiction.
  - subst c; exfalso; apply n; reflexivity.
Qed.

(** The capital letters below 256: A-Z, and the accented capitals
    U+00C0..U+00DE without the multiplication sign U+00D7. *)
Definition is_capital (c : ascii) : bool :=
  let n := nat_of_ascii c in
  ((65 <=? n)%nat && (n <=? 90)%nat) ||
  ((192 <=? n)%nat && (n <=? 222)%nat && negb (n =? 215)%nat).

(** What [addBlock] stores for the character [c] of the type, by character
    codes: an underscore (95) for a space (32), the small letter 32 places
    up for a capital, the character itself otherwise. *)
Lemma stored_char_code c :
  nat_of_ascii (if ascii_dec c " "%char then "_"%char else lower_char c) =
  if (nat_of_ascii c =? 32)%nat then 95%nat
  else if is_capital c then (nat_of_ascii c + 32)%nat
  else nat_of_ascii c.
Proof. destruct c as [[] [] [] [] [] [] [] []]; reflexivity. Qed.

(** C10. For a [type] that is [undefined], [null] or a string,
    [addBlock(x, y, z, type)] appends exactly one voxel and leaves the
    voxels already in the list as they were; the new voxel carries the given
    coordinates; its type is ['stone'] when [type] is [undefined], [null] or
    the empty string, and otherwise the argument, character for character,
    with every capital letter replaced by its small letter and every space
    by an underscore. So ['Oak Planks'] is stored as ['oak_planks'], and the
    capital E with acute accent (201) as the small one (233). *)
Theorem addBlock_appends_normalised_voxel :
  (forall x y z type vs,
     exists ty,
       addBlock x y z type vs = vs ++ [Voxel x y z ty] /\
       List.length (addBlock x y z type vs) = S (List.length vs) /\
       (forall i, (i < List.length vs)%nat ->
                  nth_error (addBlock x y z type vs) i = nth_error vs i) /\
       (type = JUndefined \/ type = JNull \/ type = JString [] -> ty = lit "stone") /\
       (forall s, type = JString s -> s <> [] ->
          List.length ty = List.length s /\
          forall i c, nth_error s i = Some c ->
            exists c',
              nth_error ty i = Some c' /\
              nat_of_ascii c' =
                if (nat_of_ascii c =? 32)%nat then 95%nat
                else if is_capital c then (nat_of_ascii c + 32)%nat
                else nat_of_ascii c)) /\
  addBlock 1 2 3 (JString (lit "Oak Planks")) [] = [Voxel 1 2 3 (lit "oak_planks")] /\
  addBlock 0 0 0 (JString [ascii_of_nat 201]) [Voxel 1 2 3 (lit "dirt")] =
    [Voxel 1 2 3 (lit "dirt"); Voxel 0 0 0 [ascii_of_nat 233]].
Proof.
  split; [|split; reflexivity].
  intros x y z type vs.
  exists (replace_spaces (toLowerCase (or_stone type))).
  split; [reflexivity|]. split; [|split; [|split]].
  - unfold addBlock. rewrite length_app. simpl. lia.
  - intros i Hi. unfold addBlock. apply nth_error_app1. exact Hi.
  - intros [-> | [-> | ->]]; reflexivity.
  - intros s -> Hs. destruct s as [|c s]; [contradiction|].
    split.
    + unfold replace_spaces, toLowerCase. simpl or_stone. now rewrite !length_map.
    + intros i c' H. simpl or_stone. eexists. split.
      * exact (normalised_type_char _ _ _ H).
      * apply stored_char_code.
Qed.

(** *** Running the instructions *)

(** The text raised an exception. *)
Definition raises (code : aiCode) : Prop :=
  exists st, run_injected code (Store [] 0) = Raised st.

(** The text placed no voxel. *)
Definition places_nothing (code : aiCode) : Prop :=
  voxels (store_of (run_injected code (Store [] 0))) = [].

(** The footprint of the fallback: bedrock at every [(x, 0, z)] with [x] and
    [z] in [-2..2], and planks at [(0, 1, 0)] and [(0, 2, 0)]. *)
Definition has_fallback_footprint (vs : list voxel) : Prop :=
  (forall x z, (-2 <= x <= 2)%Z -> (-2 <= z <= 2)%Z ->
               In (Voxel x 0 z (lit "bedrock")) vs) /\
  In (Voxel 0 1 0 (lit "planks_oak")) vs /\
  In (Voxel 0 2 0 (lit "planks_oak")) vs.

Lemma create_fallback_footprint : has_fallback_footprint (create_fallback []).
Proof.
  split; [|split].
  - intros x z Hx Hz.
    assert (Ex : (x = -2 \/ x = -1 \/ x = 0 \/ x = 1 \/ x = 2)%Z) by lia.
    assert (Ez : (z = -2 \/ z = -1 \/ z = 0 \/ z = 1 \/ z = 2)%Z) by lia.
    destruct Ex as [E|[E|[E|[E|E]]]]; destruct Ez as [E'|[E'|[E'|[E'|E']]]];
      subst x z; vm_compute; tauto.
  - vm_compute; tauto.
  - vm_compute; tauto.
Qed.

Lemma create_fallback_length : List.length (create_fallback []) = 27%nat.
Proof. reflexivity. Qed.

(** An exception is caught by [init], which shows the error box and builds
    nothing more: the voxel list is what the text had placed so far. *)
Lemma init_raised code st :
  run_injected code (Store [] 0) = Raised st ->
  init code = Scene (voxels st) (calls st) framing_default None true.
Proof. intros H. unfold init. now rewrite H. Qed.

Lemma init_done code st :
  run_injected code (Store [] 0) = Done st ->
  scene_voxels (init code) = fallback_if_empty (voxels st) /\
  error_box_shown (init code) = false.
Proof. intros H. unfold init. rewrite H. split; reflexivity. Qed.

(** C1, as the claim states it, fails: a text whose first statement raises
    leaves the voxel list empty. *)
Lemma fallback_on_throw_fails :
  ~ (forall code, raises code \/ places_nothing code ->
       scene_voxels (init code) <> [] /\
       has_fallback_footprint (scene_voxels (init code))).
Proof.
  intros H.
  destruct (H (AiCode None [Do Throw])) as [Hne _].
  - left. exists (Store [] 0). reflexivity.
  - apply Hne. reflexivity.
Qed.

(** C1, amended. For the texts of [aiCode], sequences of calls of
    [addBlock] and of [generateWorld] any of which may raise: when the text
    runs to its end and has placed no voxel, the voxel list of the scene is
    the fallback: 27 voxels, not empty, holding the bedrock platform and the
    two planks. When the text raises, [init] catches the exception, shows
    the error box and synthesises nothing: the voxel list is exactly what
    the text had placed before the exception. *)
Theorem fallback_when_nothing_placed :
  forall code st,
    (run_injected code (Store [] 0) = Done st -> voxels st = [] ->
       scene_voxels (init code) = create_fallback [] /\
       scene_voxels (init code) <> [] /\
       List.length (scene_voxels (init code)) = 27%nat /\
       has_fallback_footprint (scene_voxels (init code)) /\
       error_box_shown (init code) = false) /\
    (run_injected code (Store [] 0) = Raised st ->
       scene_voxels (init code) = voxels st /\
       error_box_shown (init code) = true).
Proof.
  intros code st. split.
  - intros Hrun Hnil.
    destruct (init_done _ _ Hrun) as [Hv He].
    rewrite Hnil in Hv. simpl in Hv. rewrite Hv.
    repeat split; try apply create_fallback_footprint; try exact He.
    discriminate.
  - intros Hrun. rewrite (init_raised _ _ Hrun). split; reflexivity.
Qed.

(** The amended statement at two texts: the empty one, and one that raises
    after placing a block. *)
Lemma fallback_when_nothing_placed_witness :
  (scene_voxels (init (AiCode None [])) = create_fallback [] /\
   scene_voxels (init (AiCode None [])) <> [] /\
   List.length (scene_voxels (init (AiCode None []))) = 27%nat /\
   has_fallback_footprint (scene_voxels (init (AiCode None []))) /\
   error_box_shown (init (AiCode None [])) = false) /\
  (scene_voxels (init (AiCode None [Do (Place 1 2 3 JNull); Do Throw]))
     = [Voxel 1 2 3 (lit "stone")] /\
   error_box_shown (init (AiCode None [Do (Place 1 2 3 JNull); Do Throw])) = true).
Proof.
  split.
  - apply (proj1 (fallback_when_nothing_placed (AiCode None []) (Store [] 0)));
      reflexivity.
  - apply (proj2 (fallback_when_nothing_placed
                    (AiCode None [Do (Place 1 2 3 JNull); Do Throw])
                    (Store [Voxel 1 2 3 (lit "stone")] 0))).
    reflexivity.
Defined.

(** *** How often [generateWorld] runs *)

(** The top-level calls of [generateWorld] written in the text. *)
Fixpoint written_calls (l : list top) : nat :=
  match l with
  | [] => O
  | CallGenerateWorld :: l' => S (written_calls l')
  | Do _ :: l' => written_calls l'
  end.

Lemma exec_stmts_calls b st st' :
  exec_stmts b st = Done st' -> calls st' = calls st.
Proof.
  revert st; induction b as [|s b IH]; intros st; simpl.
  - now intros [= <-].
  - destruct s; simpl; [|discriminate].
    intros H. apply IH in H. exact H.
Qed.

Lemma exec_tops_calls b l st st' :
  exec_tops (Some b) l st = Done st' ->
  calls st' = (calls st + written_calls l)%nat.
Proof.
  revert st; induction l as [|t l IH]; intros st; simpl.
  - intros [= <-]. lia.
  - destruct t as [s|]; simpl.
    + destruct s; simpl; [|discriminate].
      intros H. apply IH in H. simpl in H. exact H.
    + destruct (exec_stmts b _) as [st1|st1] eqn:E; simpl; [|discriminate].
      intros H. apply IH in H. apply exec_stmts_calls in E. simpl in E. lia.
Qed.

(** When the text declares [generateWorld] and runs to its end, the function
    has run once for every call written in the text and once more for the
    call that [init] adds, whether or not the text had called it. *)
Lemma generateWorld_runs_once_more b l st :
  run_injected (AiCode (Some b) l) (Store [] 0) = Done st ->
  calls st = S (written_calls l).
Proof.
  unfold run_injected. simpl.
  destruct (exec_tops (Some b) l _) as [st1|st1] eqn:E; simpl; [|discriminate].
  intros H. apply exec_stmts_calls in H. apply exec_tops_calls in E.
  simpl in *. lia.
Qed.

(** C3 at two texts that declare the same [generateWorld]. The text that
    does not call it has it run exactly once, by the call that [init] adds.
    The text that calls it has it run twice, once for its own call and once
    for the call that [init] adds without looking whether one was made, and
    the block is placed twice. *)
Theorem generateWorld_called_again :
  let declared := Some [Place 0 0 0 (JString (lit "stone"))] in
  let silent := AiCode declared [] in
  let calling := AiCode declared [CallGenerateWorld] in
  generateWorld_calls (init silent) = 1%nat /\
  scene_voxels (init silent) = [Voxel 0 0 0 (lit "stone")] /\
  generateWorld_calls (init calling) = 2%nat /\
  scene_voxels (init calling) =
    [Voxel 0 0 0 (lit "stone"); Voxel 0 0 0 (lit "stone")] /\
  error_box_shown (init calling) = false.
Proof. repeat split. Qed.

(** *** Camera framing *)

(** [lo] and [hi] are the least and the greatest member of [l]. *)
Definition spans (l : list Z) (lo hi : Z) : Prop :=
  In lo l /\ In hi l /\ forall v, In v l -> (lo <= v <= hi)%Z.

(** The numbers that the script sees as the coordinates of the voxels. *)
Definition xs (vs : list voxel) : list float := map Number_of (map vx vs).
Definition ys (vs : list voxel) : list float := map Number_of (map vy vs).
Definition zs (vs : list voxel) : list float := map Number_of (map vz vs).

(** [m] is the least of the numbers [l] in the order of [<]: one of them
    (or the [Infinity] that the scan starts from, when none of them is below
    it), and none of them is below it. *)
Definition least (l : list float) (m : float) : Prop :=
  (In m l \/ m = infinity) /\ forall x, In x l -> (x <? m)%float = false.

(** [m] is the greatest of the numbers [l]. *)
Definition greatest (l : list float) (m : float) : Prop :=
  (In m l \/ m = neg_infinity) /\ forall x, In x l -> (m <? x)%float = false.

Section Scan.

Local Open Scope float_scope.

Lemma fold_lower_spec l : forall init,
  let r := fold_left (fun lo x => lower x lo) l init in
  (In r l \/ r = init) /\ (r = init \/ (r <? init) = true) /\
  forall x, In x l -> (x <? r) = false.
Proof.
  induction l as [|a l IH]; intros init; cbn zeta.
  - cbn. repeat split; auto. intros x [].
  - cbn [fold_left]. destruct (IH (lower a init)) as (M & B & L).
    set (r := fold_left _ l (lower a init)) in *. unfold lower in M, B.
    destruct (a <? init) eqn:E.
    + split; [|split].
      * destruct M as [M| ->]; [left; now right|left; now left].
      * right. destruct B as [->|B]; [exact E|exact (ltb_trans _ _ _ B E)].
      * intros x [<-|Hx]; [|now apply L].
        destruct B as [->|B]; [apply ltb_irrefl|now apply ltb_asym].
    + split; [|split].
      * destruct M as [M| ->]; [left; now right|now right].
      * exact B.
      * intros x [<-|Hx]; [|now apply L].
        destruct B as [->|B]; [exact E|].
        destruct (a <? r) eqn:X; [|reflexivity].
        rewrite (ltb_trans _ _ _ X B) in E. discriminate.
Qed.

Lemma fold_raise_spec l : forall init,
  let r := fold_left (fun hi x => raise x hi) l init in
  (In r l \/ r = init) /\ (r = init \/ (init <? r) = true) /\
  forall x, In x l -> (r <? x) = false.
Proof.
  induction l as [|a l IH]; intros init; cbn zeta.
  - cbn. repeat split; auto. intros x [].
  - cbn [fold_left]. destruct (IH (raise a init)) as (M & B & L).
    set (r := fold_left _ l (raise a init)) in *. unfold raise in M, B.
    destruct (init <? a) eqn:E.
    + split; [|split].
      * destruct M as [M| ->]; [left; now right|left; now left].
      * right. destruct B as [->|B]; [exact E|exact (ltb_trans _ _ _ E B)].
      * intros x [<-|Hx]; [|now apply L].
        destruct B as [->|B]; [apply ltb_irrefl|now apply ltb_asym].
    + split; [|split].
      * destruct M as [M| ->]; [left; now right|now right].
      * exact B.
      * intros x [<-|Hx]; [|now apply L].
        destruct B as [->|B]; [exact E|].
        destruct (r <? a) eqn:X; [|reflexivity].
        rewrite (ltb_trans _ _ _ B X) in E. discriminate.
Qed.

Lemma scan_least l : least l (fold_left (fun lo x => lower x lo) l infinity).
Proof. destruct (fold_lower_spec l infinity) as (M & _ & L). now split. Qed.

Lemma scan_greatest l : greatest l (fold_left (fun hi x => raise x hi) l neg_infinity).
Proof. destruct (fold_raise_spec l neg_infinity) as (M & _ & L). now split. Qed.

Lemma Math_max_spec a b :
  let m := Math_max a b in
  (m = a \/ m = b \/ m = nan) /\ (m <? a) = false /\ (m <? b) = false /\
  (m = nan \/ (is_nan a = false /\ is_nan b = false)).
Proof.
  cbn zeta. unfold Math_max.
  destruct (is_nan a) eqn:Na; [cbn; rewrite !nan_ltb; auto 6|].
  destruct (is_nan b) eqn:Nb; [cbn; rewrite !nan_ltb; auto 6|]. cbn [orb].
  destruct (a <? b) eqn:E1.
  - rewrite ltb_irrefl, (ltb_asym _ _ E1). auto 6.
  - destruct (b <? a) eqn:E2.
    + rewrite ltb_irrefl, E1. auto 6.
    + destruct (get_sign a); rewrite ?ltb_irrefl, ?E1, ?E2; auto 6.
Qed.

(** [Math.max] of three numbers is one of them (or NaN, when one of them
    is), and none of them is above it. *)
Lemma Math_max3_spec a b c :
  let m := Math_max3 a b c in
  (m = a \/ m = b \/ m = c \/ m = nan) /\
  (m <? a) = false /\ (m <? b) = false /\ (m <? c) = false.
Proof.
  cbn zeta. unfold Math_max3.
  destruct (Math_max_spec a b) as (M1 & A1 & B1 & N1).
  destruct (Math_max_spec (Math_max a b) c) as (M2 & A2 & B2 & N2).
  set (m1 := Math_max a b) in *. set (m := Math_max m1 c) in *.
  split; [destruct M2 as [-> | [-> | ->]]; intuition|].
  split; [|split; [|exact B2]].
  - destruct M2 as [E | [E | E]]; rewrite E; [exact A1| |apply nan_ltb].
    destruct N2 as [N2|[Nm Nc]]; [rewrite <- E, N2; apply nan_ltb|].
    destruct (c <? a) eqn:X; [|reflexivity].
    destruct (m1 <? c) eqn:Y.
    + rewrite (ltb_trans _ _ _ Y X) in A1. discriminate.
    + rewrite E in A2.
      rewrite (ltb_tie m1 c a Nm Nc Y A2) in X. congruence.
  - destruct M2 as [E | [E | E]]; rewrite E; [exact B1| |apply nan_ltb].
    destruct N2 as [N2|[Nm Nc]]; [rewrite <- E, N2; apply nan_ltb|].
    destruct (c <? b) eqn:X; [|reflexivity].
    destruct (m1 <? c) eqn:Y.
    + rewrite (ltb_trans _ _ _ Y X) in B1. discriminate.
    + rewrite E in A2.
      rewrite (ltb_tie m1 c b Nm Nc Y A2) in X. congruence.
Qed.

End Scan.

Lemma fold_bbox_proj (p : bbox -> float) (f : float -> float -> float) (c : voxel -> Z) :
  (forall b v, p (bbox_step b v) = f (p b) (Number_of (c v))) ->
  forall vs b,
    p (fold_left bbox_step vs b) = fold_left f (map Number_of (map c vs)) (p b).
Proof.
  intros H vs; induction vs as [|v vs IH]; intros b; simpl; [reflexivity|].
  now rewrite IH, H.
Qed.

(** The scan of [init] computes the bounding box of the voxel positions. *)
Lemma bounding_box_spec vs :
  least (xs vs) (minX (bounding_box vs)) /\ greatest (xs vs) (maxX (bounding_box vs)) /\
  least (ys vs) (minY (bounding_box vs)) /\ greatest (ys vs) (maxY (bounding_box vs)) /\
  least (zs vs) (minZ (bounding_box vs)) /\ greatest (zs vs) (maxZ (bounding_box vs)).
Proof.
  unfold bounding_box, xs, ys, zs.
  rewrite (fold_bbox_proj minX (fun lo x => lower x lo) vx (fun _ _ => eq_refl)).
  rewrite (fold_bbox_proj maxX (fun hi x => raise x hi) vx (fun _ _ => eq_refl)).
  rewrite (fold_bbox_proj minY (fun lo x => lower x lo) vy (fun _ _ => eq_refl)).
  rewrite (fold_bbox_proj maxY (fun hi x => raise x hi) vy (fun _ _ => eq_refl)).
  rewrite (fold_bbox_proj minZ (fun lo x => lower x lo) vz (fun _ _ => eq_refl)).
  rewrite (fold_bbox_proj maxZ (fun hi x => raise x hi) vz (fun _ _ => eq_refl)).
  cbn [minX maxX minY maxY minZ maxZ bbox_init].
  repeat apply conj; first [apply scan_least | apply scan_greatest].
Qed.

(** The least and the greatest of the numbers of a few small integers. *)
Ltac small_span S M L :=
  let z := fresh "z" in
  let I := fresh "I" in
  let B := fresh "B" in
  destruct S as (_ & _ & S);
  destruct M as [M|M];
  [ apply in_map_iff in M; destruct M as (z & M & I);
    pose proof (S z I) as B; clear S I;
    repeat match type of B with
           | (?a <= z <= ?b)%Z =>
               first [ assert (z = a) by lia; clear B
                     | let B' := fresh "B" in
                       assert (B' : z = a \/ (Z.succ a <= z <= b)%Z) by lia;
                       clear B; destruct B' as [B|B];
                       [|let a' := eval vm_compute in (Z.succ a) in
                         change (Z.succ a) with a' in B] ]
           end;
    subst; vm_compute in L; first [discriminate L | reflexivity]
  | subst; vm_compute in L; discriminate L ].

Lemma bounding_box_example vs :
  spans (map vx vs) (-2) 2 -> spans (map vy vs) 0 3 -> spans (map vz vs) (-1) 1 ->
  bounding_box vs = BBox (-2) 2 0 3 (-1) 1.
Proof.
  intros Hx Hy Hz.
  destruct (bounding_box_spec vs)
    as ([M1 L1] & [M2 L2] & [M3 L3] & [M4 L4] & [M5 L5] & [M6 L6]).
  unfold xs, ys, zs in *.
  destruct (bounding_box vs) as [x0 x1 y0 y1 z0 z1].
  cbn [minX maxX minY maxY minZ maxZ] in *.
  assert (X0 : x0 = (-2)%float).
  { specialize (L1 (Number_of (-2)) (in_map _ _ _ (proj1 Hx))). small_span Hx M1 L1. }
  assert (X1 : x1 = 2%float).
  { specialize (L2 (Number_of 2) (in_map _ _ _ (proj1 (proj2 Hx)))). small_span Hx M2 L2. }
  assert (Y0 : y0 = 0%float).
  { specialize (L3 (Number_of 0) (in_map _ _ _ (proj1 Hy))). small_span Hy M3 L3. }
  assert (Y1 : y1 = 3%float).
  { specialize (L4 (Number_of 3) (in_map _ _ _ (proj1 (proj2 Hy)))). small_span Hy M4 L4. }
  assert (Z0 : z0 = (-1)%float).
  { specialize (L5 (Number_of (-1)) (in_map _ _ _ (proj1 Hz))). small_span Hz M5 L5. }
  assert (Z1 : z1 = 1%float).
  { specialize (L6 (Number_of 1) (in_map _ _ _ (proj1 (proj2 Hz)))). small_span Hz M6 L6. }
  now subst.
Qed.

(** C8. The scan over the voxels computes their axis-aligned bounding box
    in the numbers of the script: each bound is one of the coordinates, and
    no coordinate lies beyond it. For a non-empty list [init] sets the
    target of the controls to the centre of the box, [(min + max) / 2] along
    each axis, and the position of the camera to the centre plus [size] plus
    a margin of 15, 10 and 15 along x, y and z, where [size] is the largest
    of the three spans [max - min]; it then calls [controls.update()]. For
    a box spanning x in [-2, 2], y in [0, 3] and z in [-1, 1] the largest
    span is 4, the target is (0, 1.5, 0) and the position is (19, 15.5, 19).
    For no voxel at all the position is (20, 20, 20) and the target the
    origin. All arithmetic is that of binary64. *)
Theorem camera_frames_bounding_box :
  (forall vs,
     let b := bounding_box vs in
     least (xs vs) (minX b) /\ greatest (xs vs) (maxX b) /\
     least (ys vs) (minY b) /\ greatest (ys vs) (maxY b) /\
     least (zs vs) (minZ b) /\ greatest (zs vs) (maxZ b)) /\
  (forall vs, vs <> [] ->
     let b := bounding_box vs in
     let cx := ((minX b + maxX b) / 2)%float in
     let cy := ((minY b + maxY b) / 2)%float in
     let cz := ((minZ b + maxZ b) / 2)%float in
     let size := Math_max3 (maxX b - minX b) (maxY b - minY b) (maxZ b - minZ b) in
     controls_target_set (frame_camera vs) = (cx, cy, cz) /\
     camera_position_set (frame_camera vs) =
       (cx + size + 15, cy + size + 10, cz + size + 15)%float /\
     controls_update_called (frame_camera vs) = true) /\
  (forall a b c,
     let m := Math_max3 a b c in
     (m = a \/ m = b \/ m = c \/ m = nan) /\
     (m <? a)%float = false /\ (m <? b)%float = false /\ (m <? c)%float = false) /\
  (forall vs,
     spans (map vx vs) (-2) 2 -> spans (map vy vs) 0 3 -> spans (map vz vs) (-1) 1 ->
     bounding_box vs = BBox (-2) 2 0 3 (-1) 1 /\
     Math_max3 (2 - -2) (3 - 0) (1 - -1) = 4%float /\
     controls_target_set (frame_camera vs) = (0, 1.5, 0)%float /\
     camera_position_set (frame_camera vs) = (19, 15.5, 19)%float) /\
  frame_camera [] = Framing (20, 20, 20)%float (0, 0, 0)%float false.
Proof.
  split; [|split; [|split; [|split]]].
  - intros vs. apply bounding_box_spec.
  - intros vs N. cbn zeta. unfold frame_camera.
    destruct vs; [congruence|]. repeat split.
  - intros a b c. apply Math_max3_spec.
  - intros vs Hx Hy Hz.
    assert (L : (0 <? List.length vs)%nat = true).
    { destruct vs; [destruct Hx as [[] _]|reflexivity]. }
    pose proof (bounding_box_example vs Hx Hy Hz) as B.
    split; [exact B|]. unfold frame_camera. rewrite L, B. repeat split.
  - reflexivity.
Qed.

(** The framing at two voxels in opposite corners of the box of the
    example. *)
Lemma camera_frames_bounding_box_witness :
  let vs := [Voxel (-2) 0 (-1) (lit "stone"); Voxel 2 3 1 (lit "dirt")] in
  bounding_box vs = BBox (-2) 2 0 3 (-1) 1 /\
  Math_max3 (2 - -2) (3 - 0) (1 - -1) = 4%float /\
  controls_target_set (frame_camera vs) = (0, 1.5, 0)%float /\
  camera_position_set (frame_camera vs) = (19, 15.5, 19)%float.
Proof.
  apply (proj1 (proj2 (proj2 (proj2 camera_frames_bounding_box)))
           [Voxel (-2) 0 (-1) (lit "stone"); Voxel 2 3 1 (lit "dirt")]);
    (split; [simpl; tauto|split; [simpl; tauto|]]);
    simpl; intros v [<-|[<-|[]]]; lia.
Defined.

(** *** The build guide *)

(** How many voxels of [vs] have type [t]. *)
Definition count_type (t : str) (vs : list voxel) : nat :=
  count_occ str_eq_dec (map vtype vs) t.

(** The voxels of [vs] on level [y]. *)
Definition at_level (y : Z) (vs : list voxel) : list voxel :=
  filter (fun v => (vy v =? y)%Z) vs.

(** A type that [Object.prototype] has no member for. *)
Definition plain (t : str) : Prop :=
  t <> lit "constructor" /\ t <> lit "__proto__".

Lemma own_update o k v t :
  own (update o k v) t = if str_eq_dec k t then Some v else own o t.
Proof.
  induction o as [|[k' v'] o IH]; simpl.
  - destruct (str_eq_dec k t); reflexivity.
  - destruct (str_eq_dec k' k) as [->|Hk]; simpl.
    + destruct (str_eq_dec k t); reflexivity.
    + destruct (str_eq_dec k' t) as [->|Ht].
      * destruct (str_eq_dec k t); [congruence|reflexivity].
      * exact IH.
Qed.

(** Every own property is a positive count. *)
Definition counting (o : object) : Prop :=
  forall t v, own o t = Some v -> exists n, v = VNum (S n).

Definition count_in (o : object) (t : str) : nat :=
  match own o t with
  | Some (VNum n) => n
  | _ => O
  end.

Lemma count_one_plain o k :
  counting o -> plain k ->
  counting (count_one o k) /\
  forall t, own (count_one o k) t =
            if str_eq_dec k t then Some (VNum (S (count_in o k))) else own o t.
Proof.
  intros Ho [Hc Hp].
  assert (B : bump o k = VNum (S (count_in o k))).
  { unfold bump, count_in. destruct (own o k) as [v|] eqn:E.
    - destruct (Ho _ _ E) as [n ->]. f_equal. lia.
    - destruct (str_eq_dec k (lit "constructor")); [contradiction|].
      destruct (str_eq_dec k (lit "__proto__")); [contradiction|reflexivity]. }
  assert (O : forall t, own (count_one o k) t =
            if str_eq_dec k t then Some (VNum (S (count_in o k))) else own o t).
  { intros t. unfold count_one, assign.
    destruct (str_eq_dec k (lit "__proto__")); [contradiction|].
    now rewrite own_update, B. }
  split; [|exact O].
  intros t v. rewrite O. destruct (str_eq_dec k t).
  - intros [= <-]. eauto.
  - apply Ho.
Qed.

Lemma total_counts_snoc vs v :
  total_counts (vs ++ [v]) = count_one (total_counts vs) (vtype v).
Proof. unfold total_counts. now rewrite fold_left_app. Qed.

Lemma count_type_snoc t vs v :
  count_type t (vs ++ [v]) =
  (count_type t vs + if str_eq_dec (vtype v) t then 1 else 0)%nat.
Proof.
  unfold count_type. rewrite map_app, count_occ_app. simpl.
  destruct (str_eq_dec (vtype v) t); reflexivity.
Qed.

(** For types that are no member of [Object.prototype], the summary holds
    one row per type that occurs, with the number of its voxels. *)
Lemma total_counts_plain vs :
  (forall v, In v vs -> plain (vtype v)) ->
  counting (total_counts vs) /\
  forall t, own (total_counts vs) t =
            match count_type t vs with
            | O => None
            | S n => Some (VNum (S n))
            end.
Proof.
  induction vs as [|v vs IH] using rev_ind; intros H.
  - split; [intros t v; discriminate|reflexivity].
  - destruct IH as [C E]. { intros w Hw. apply H, in_or_app. now left. }
    assert (P : plain (vtype v)) by (apply H, in_or_app; right; now left).
    rewrite total_counts_snoc.
    destruct (count_one_plain _ _ C P) as [C' E']. split; [exact C'|].
    intros t. rewrite E', count_type_snoc.
    destruct (str_eq_dec (vtype v) t) as [->|Hn].
    + rewrite Nat.add_1_r. unfold count_in. rewrite E.
      destruct (count_type t vs); reflexivity.
    + rewrite Nat.add_0_r. apply E.
Qed.

Lemma layer_get_set ls y o y' :
  layer_get (layer_set ls y o) y' = if Z.eq_dec y y' then Some o else layer_get ls y'.
Proof.
  induction ls as [|[k v] ls IH]; simpl.
  - destruct (Z.eq_dec y y'); reflexivity.
  - destruct (Z.eq_dec k y) as [->|Hk]; simpl.
    + destruct (Z.eq_dec y y'); reflexivity.
    + destruct (Z.eq_dec k y') as [->|Hk'].
      * destruct (Z.eq_dec y y'); [congruence|reflexivity].
      * exact IH.
Qed.

Lemma layers_of_snoc vs v : layers_of (vs ++ [v]) = layer_step (layers_of vs) v.
Proof. unfold layers_of. now rewrite fold_left_app. Qed.

Lemma at_level_snoc y vs v :
  at_level y (vs ++ [v]) = at_level y vs ++ (if Z.eq_dec (vy v) y then [v] else []).
Proof.
  unfold at_level. rewrite filter_app. simpl.
  destruct (Z.eq_dec (vy v) y) as [->|H].
  - now rewrite Z.eqb_refl.
  - apply Z.eqb_neq in H. now rewrite H.
Qed.

(** [layers[y]] exists exactly when some voxel lies on level [y], and then
    it is the table of counts of the voxels of that level. *)
Lemma layer_get_layers_of vs y :
  layer_get (layers_of vs) y =
  match at_level y vs with
  | [] => None
  | l => Some (total_counts l)
  end.
Proof.
  induction vs as [|v vs IH] using rev_ind; [reflexivity|].
  rewrite layers_of_snoc, at_level_snoc. unfold layer_step.
  rewrite layer_get_set. destruct (Z.eq_dec (vy v) y) as [->|H].
  - rewrite IH.
    destruct (at_level y vs) as [|w l]; [reflexivity|].
    rewrite <- total_counts_snoc. reflexivity.
  - rewrite app_nil_r. exact IH.
Qed.

Lemma keys_layer_set ls y o :
  Object_keys (layer_set ls y o) =
  if in_dec Z.eq_dec y (Object_keys ls) then Object_keys ls else Object_keys ls ++ [y].
Proof.
  unfold Object_keys. induction ls as [|[k v] ls IH]; simpl; [reflexivity|].
  destruct (Z.eq_dec k y) as [->|Hk]; simpl; [reflexivity|].
  rewrite IH. destruct (in_dec Z.eq_dec y (map fst ls)); reflexivity.
Qed.

(** The keys of [layers] are the levels that occur, each once. *)
Lemma keys_layers_of vs :
  NoDup (Object_keys (layers_of vs)) /\
  forall y, In y (Object_keys (layers_of vs)) <-> In y (map vy vs).
Proof.
  induction vs as [|v vs [N I]] using rev_ind.
  - split; [constructor|reflexivity].
  - rewrite layers_of_snoc. unfold layer_step. rewrite keys_layer_set, map_app.
    destruct (in_dec Z.eq_dec (vy v) (Object_keys (layers_of vs))) as [Hin|Hin].
    + split; [exact N|]. intros y. rewrite in_app_iff, I. simpl.
      split; [tauto|]. intros [H|[<-|[]]]; [exact H|now apply I].
    + split.
      * apply NoDup_rev in N. rewrite <- (rev_involutive (_ ++ _)), rev_app_distr.
        apply NoDup_rev. simpl. constructor; [|exact N].
        now rewrite <- in_rev.
      * intros y. rewrite !in_app_iff, I. reflexivity.
Qed.

Lemma insert_sorted_in y l x : In x (insert_sorted y l) <-> x = y \/ In x l.
Proof.
  induction l as [|h t IH]; simpl.
  - intuition.
  - destruct (y <? h)%Z; simpl; [intuition|]. rewrite IH. intuition.
Qed.

Lemma insert_sorted_strict y l :
  StronglySorted Z.lt l -> ~ In y l -> StronglySorted Z.lt (insert_sorted y l).
Proof.
  induction 1 as [|h t S IH F]; intros Hn; simpl.
  - repeat constructor.
  - destruct (y <? h)%Z eqn:E.
    + apply Z.ltb_lt in E. constructor; [now constructor|].
      constructor; [exact E|]. rewrite Forall_forall in *. intros x Hx.
      specialize (F x Hx). lia.
    + apply Z.ltb_ge in E. simpl in Hn.
      constructor; [apply IH; tauto|].
      rewrite Forall_forall in *. intros x Hx. apply insert_sorted_in in Hx.
      destruct Hx as [->|Hx]; [|now apply F].
      assert (h <> y) by tauto. lia.
Qed.

Lemma sort_keys_in l x : In x (sort_keys l) <-> In x l.
Proof.
  induction l as [|h t IH]; simpl; [reflexivity|].
  rewrite insert_sorted_in, IH. intuition.
Qed.

(** The sorted keys ascend strictly. *)
Lemma sort_keys_strict l : NoDup l -> StronglySorted Z.lt (sort_keys l).
Proof.
  induction 1 as [|h t Hn N IH]; simpl; [constructor|].
  apply insert_sorted_strict; [exact IH|]. now rewrite sort_keys_in.
Qed.

Lemma strictly_sorted_unique a b :
  StronglySorted Z.lt a -> StronglySorted Z.lt b ->
  (forall x, In x a <-> In x b) -> a = b.
Proof.
  intros Sa; revert b; induction Sa as [|h t S IH F]; intros b Sb E.
  - destruct b as [|x b]; [reflexivity|]. destruct (proj2 (E x) (or_introl eq_refl)).
  - destruct Sb as [|h' t' S' F'].
    + destruct (proj1 (E h) (or_introl eq_refl)).
    + rewrite Forall_forall in F, F'.
      assert (h = h').
      { destruct (proj1 (E h) (or_introl eq_refl)) as [->|H1]; [reflexivity|].
        destruct (proj2 (E h') (or_introl eq_refl)) as [->|H2]; [reflexivity|].
        specialize (F _ H2). specialize (F' _ H1). lia. }
      subst h'. f_equal. apply IH; [exact S'|].
      intros x. split; intros Hx.
      * destruct (proj1 (E x) (or_intror Hx)) as [<-|H]; [|exact H].
        specialize (F _ Hx). lia.
      * destruct (proj2 (E x) (or_intror Hx)) as [<-|H]; [|exact H].
        specialize (F' _ Hx). lia.
Qed.

(** Sorting returns the same array whatever order [Object.keys] lists the
    (pairwise different) keys in. *)
Lemma sort_keys_order_irrelevant l l' :
  NoDup l -> Permutation l l' -> sort_keys l = sort_keys l'.
Proof.
  intros N P. apply strictly_sorted_unique.
  - now apply sort_keys_strict.
  - apply sort_keys_strict. eapply Permutation_NoDup; eassumption.
  - intros x. rewrite !sort_keys_in. split; apply Permutation_in;
      [exact P|now apply Permutation_sym].
Qed.

Lemma number_layers_spec ls ys idx :
  map layer_y (number_layers ls idx ys) = ys /\
  map layer_number (number_layers ls idx ys) = seq (idx + 1) (List.length ys) /\
  forall g, In g (number_layers ls idx ys) ->
    layer_rows g = match layer_get ls (layer_y g) with Some o => o | None => [] end.
Proof.
  revert idx; induction ys as [|y ys IH]; intros idx; simpl.
  - repeat split. intros g [].
  - destruct (IH (S idx)) as (A & B & C). rewrite A, B.
    replace (S idx + 1)%nat with (S (idx + 1)) by lia.
    repeat split. intros g [<-|Hg]; [reflexivity|now apply C].
Qed.

(** The layer guide of any voxel list: one group per level that occurs, the
    levels strictly ascending, the groups numbered 1, 2, ..., each holding
    the table of counts of the voxels of its level. *)
Lemma layer_guide_spec vs :
  let groups := list_layers (generateRecipeBook vs) in
  StronglySorted Z.lt (map layer_y groups) /\
  (forall y, In y (map layer_y groups) <-> In y (map vy vs)) /\
  map layer_number groups = seq 1 (List.length groups) /\
  forall g, In g groups -> layer_rows g = total_counts (at_level (layer_y g) vs).
Proof.
  unfold generateRecipeBook. cbn [list_layers].
  destruct (keys_layers_of vs) as [N I].
  destruct (number_layers_spec (layers_of vs) (sort_keys (Object_keys (layers_of vs))) 0)
    as (A & B & C).
  rewrite A. split; [|split; [|split]].
  - now apply sort_keys_strict.
  - intros y. now rewrite sort_keys_in.
  - rewrite B. f_equal. now rewrite <- A at 1; rewrite length_map.
  - intros g Hg. rewrite (C g Hg), layer_get_layers_of.
    destruct (at_level (layer_y g) vs); reflexivity.
Qed.

(** The voxel list of the build-guide example. *)
Definition example_voxels : list voxel :=
  [Voxel 0 0 0 (lit "stone"); Voxel 1 0 0 (lit "stone"); Voxel 0 1 0 (lit "dirt")].

Lemma recipe_book_example :
  generateRecipeBook example_voxels =
  RecipeBook [(lit "stone", VNum 2); (lit "dirt", VNum 1)]
             [LayerGroup 1 0 [(lit "stone", VNum 2)];
              LayerGroup 2 1 [(lit "dirt", VNum 1)]].
Proof. reflexivity. Qed.

Lemma recipe_book_empty : generateRecipeBook [] = RecipeBook [] [].
Proof. reflexivity. Qed.

(** C7 at a voxel of type ['constructor']: the list holds one such voxel,
    but the summary reports the text of [Object] followed by [1] instead of
    the number 1, because [counts['constructor']] reads the constructor
    inherited from [Object.prototype] where the code expects [undefined]. *)
Theorem recipe_book_miscounts_constructor :
  let vs := addBlock 0 0 0 (JString (lit "constructor")) [] in
  count_type (lit "constructor") vs = 1%nat /\
  list_summary (generateRecipeBook vs) =
    [(lit "constructor", VText (lit "function Object() { [native code] }1"))] /\
  own (list_summary (generateRecipeBook vs)) (lit "constructor") <> Some (VNum 1).
Proof. repeat split. discriminate. Qed.

End TemplateProofs.

(* ================================================================== *)
(** ** Properties of the ['message'] listener *)
(* ================================================================== *)

Module EnvironmentProofs.

Import Environment.

Local Open Scope float_scope.

(** The band whose colour the sky has after the listener has handled an
    environment message with this [sunlight]. *)
Definition selected_band (sunlight : float) : band := sky_band sunlight.

(** The listener paints the sky and the fog with the colour of the band of
    the message's [sunlight]. *)
Lemma environment_paints_band Math_sin Math_cos sunlight godrays w r :
  lights w = Some r ->
  exists r',
    lights (onMessage Math_sin Math_cos (MsgEnvironment sunlight godrays) w) = Some r' /\
    background r' = band_hsl (selected_band sunlight) /\
    fog_color r' = band_hsl (selected_band sunlight).
Proof.
  intros H. simpl. rewrite H. eexists. split; [reflexivity|]. split; reflexivity.
Qed.

(** C2, as the claim states it, fails: [0.45] is below [0.55], the upper
    end of the sunset band. *)
Lemma sunlight_045_is_not_night :
  ~ (selected_band 0 = Dawn /\ selected_band 0.45 = Night).
Proof. intros [_ H]. vm_compute in H. discriminate. Qed.

(** C2, amended. [sunlight = 0.0] selects the dawn band and
    [sunlight = 0.45] the sunset band, whose colour the sky and the fog
    take; the night band is the next one, selected exactly when [sunlight]
    is not below [0.55] and is below [0.9] (at [0.55] and [0.75], say). The
    five bands are fixed hue/saturation/lightness triples and the band
    changes in steps at [0.1], [0.4], [0.55] and [0.9]. *)
Theorem sunlight_selects_band :
  selected_band 0 = Dawn /\
  selected_band 0.45 = Sunset /\
  selected_band 0.55 = Night /\
  selected_band 0.75 = Night /\
  (forall Math_sin Math_cos godrays r,
     background (set_environment Math_sin Math_cos 0 godrays r) = HSL 0.05 0.8 0.5 /\
     background (set_environment Math_sin Math_cos 0.45 godrays r) = HSL 0.85 0.6 0.6 /\
     fog_color (set_environment Math_sin Math_cos 0.45 godrays r) = HSL 0.85 0.6 0.6) /\
  (forall t,
     (selected_band t = Dawn <-> (t <? 0.1) = true) /\
     (selected_band t = Day <-> (t <? 0.1) = false /\ (t <? 0.4) = true) /\
     (selected_band t = Sunset <->
        (t <? 0.1) = false /\ (t <? 0.4) = false /\ (t <? 0.55) = true) /\
     (selected_band t = Night <->
        (t <? 0.1) = false /\ (t <? 0.4) = false /\ (t <? 0.55) = false /\
        (t <? 0.9) = true) /\
     (selected_band t = Sunrise <->
        (t <? 0.1) = false /\ (t <? 0.4) = false /\ (t <? 0.55) = false /\
        (t <? 0.9) = false)) /\
  band_hsl Dawn = HSL 0.05 0.8 0.5 /\
  band_hsl Day = HSL 0.6 0.7 0.8 /\
  band_hsl Sunset = HSL 0.85 0.6 0.6 /\
  band_hsl Night = HSL 0.65 0.5 0.05 /\
  band_hsl Sunrise = HSL 0.05 0.8 0.5.
Proof.
  repeat match goal with |- _ /\ _ => split end; try reflexivity.
  - intros; repeat split.
  - intros t. unfold selected_band, sky_band.
    destruct (t <? 0.1), (t <? 0.4), (t <? 0.55), (t <? 0.9);
      repeat split; intros; try discriminate; try reflexivity;
      repeat match goal with H : _ /\ _ |- _ => destruct H end; try discriminate.
Qed.

(** C9. After an environment message has been handled the sun and the moon
    are never lit together: when the height of the sun is above [-10] the
    sun has intensity [1.2] and the moon [0], otherwise the sun has
    intensity [0] and the moon [0.5]. (A message that arrives before
    [init] has created the lights changes nothing.) *)
Theorem sun_and_moon_never_both_lit :
  forall Math_sin Math_cos sunlight godrays w,
    match lights (onMessage Math_sin Math_cos (MsgEnvironment sunlight godrays) w) with
    | None => lights w = None
    | Some r =>
        let sy := sun_y Math_sin sunlight in
        lit_up (sunLight r) && lit_up (moonLight r) = false /\
        ((-10 <? sy) = true ->
           intensity (sunLight r) = 1.2 /\ intensity (moonLight r) = 0 /\
           lit_up (sunLight r) = true /\ lit_up (moonLight r) = false) /\
        ((-10 <? sy) = false ->
           intensity (sunLight r) = 0 /\ intensity (moonLight r) = 0.5 /\
           lit_up (sunLight r) = false /\ lit_up (moonLight r) = true)
    end.
Proof.
  intros Math_sin Math_cos sunlight godrays w. simpl.
  destruct (lights w) as [r|] eqn:E; simpl; [|now rewrite E].
  unfold isDay. destruct (-10 <? sun_y Math_sin sunlight);
    repeat split; intros; try discriminate; reflexivity.
Qed.

End EnvironmentProofs.

(* ================================================================== *)
(** ** Properties of the regular-expression engine *)
(* ================================================================== *)

Module RegexProofs.

(** [m] is the text [p], up to the case of letters under the [i] flag. *)
Definition same_text (ignoreCase : bool) (p m : str) : Prop :=
  if ignoreCase then toLowerCase m = toLowerCase p else m = p.

(** What a pattern matches, without regard to the order in which the engine
    tries the alternatives: [matches i r m caps caps'] says that [r] matches
    exactly the text [m] and extends the captures [caps] to [caps']. *)
Fixpoint matches (ignoreCase : bool) (r : regex) (m : str) (caps caps' : list str) : Prop :=
  match r with
  | Chars p => same_text ignoreCase p m /\ caps' = caps
  | Alt r1 r2 => matches ignoreCase r1 m caps caps' \/ matches ignoreCase r2 m caps caps'
  | Cat r1 r2 =>
      exists m1 m2 caps1, m = m1 ++ m2 /\
        matches ignoreCase r1 m1 caps caps1 /\ matches ignoreCase r2 m2 caps1 caps'
  | Opt r1 => (m = [] /\ caps' = caps) \/ matches ignoreCase r1 m caps caps'
  | Star k | Lazy k => Forall (fun c => in_cls k c = true) m /\ caps' = caps
  | Plus k => m <> [] /\ Forall (fun c => in_cls k c = true) m /\ caps' = caps
  | Group r1 => exists caps1, matches ignoreCase r1 m caps caps1 /\ caps' = caps1 ++ [m]
  end.

Lemma consumed_app (m rest : str) : consumed (m ++ rest) rest = m.
Proof.
  unfold consumed. rewrite length_app.
  replace (List.length m + List.length rest - List.length rest)%nat
    with (List.length m + 0)%nat by lia.
  rewrite firstn_app_2. simpl. apply app_nil_r.
Qed.

Lemma char_eqb_true ci a b :
  char_eqb ci a b = true <-> same_text ci [a] [b].
Proof.
  unfold char_eqb, same_text. destruct ci; simpl.
  - destruct (ascii_dec (lower_char a) (lower_char b)); split; congruence.
  - destruct (ascii_dec a b); split; congruence.
Qed.

Lemma same_text_cons ci a p b m :
  same_text ci (a :: p) (b :: m) <-> same_text ci [a] [b] /\ same_text ci p m.
Proof.
  unfold same_text. destruct ci; simpl; split.
  - intros [= H1 H2]. split; congruence.
  - intros [[= H1] H2]. congruence.
  - intros [= H1 H2]. split; congruence.
  - intros [[= H1] H2]. congruence.
Qed.

Lemma same_text_length ci p m : same_text ci p m -> List.length m = List.length p.
Proof.
  unfold same_text, toLowerCase. destruct ci; intros H.
  - rewrite <- (length_map lower_char m), H. apply length_map.
  - now subst.
Qed.

(** A literal matches at the head of [s] exactly when [s] starts with its
    text. *)
Lemma match_chars_spec ci p s rest :
  match_chars ci p s = Some rest <-> exists m, s = m ++ rest /\ same_text ci p m.
Proof.
  revert s; induction p as [|a p IH]; intros s; simpl.
  - split.
    + intros [= ->]. exists []. split; [reflexivity|]. destruct ci; reflexivity.
    + intros (m & -> & H). apply same_text_length in H.
      destruct m; [reflexivity|discriminate].
  - destruct s as [|b s].
    + split; [discriminate|]. intros (m & E & H). apply same_text_length in H.
      destruct m; discriminate.
    + destruct (char_eqb ci a b) eqn:C.
      * rewrite IH. apply char_eqb_true in C. split.
        -- intros (m & -> & H). exists (b :: m). split; [reflexivity|].
           now apply same_text_cons.
        -- intros (m & E & H). destruct m as [|b' m].
           ++ apply same_text_length in H. discriminate.
           ++ injection E as <- ->. apply same_text_cons in H. exists m. tauto.
      * split; [discriminate|]. intros (m & E & H). destruct m as [|b' m].
        -- apply same_text_length in H. discriminate.
        -- injection E as <- ->. apply same_text_cons in H.
           destruct H as [H _]. apply char_eqb_true in H. congruence.
Qed.

Section Soundness.

Variable ci : bool.
Variable A : Type.

Lemma star_greedy_sound k kont s (a : A) :
  star_greedy A k kont s = Some a ->
  exists m rest, s = m ++ rest /\ Forall (fun c => in_cls k c = true) m /\
                 kont rest = Some a.
Proof.
  induction s as [|c t IH]; simpl.
  - intros H. exists [], []. auto.
  - destruct (in_cls k c) eqn:C.
    + destruct (star_greedy A k kont t) as [a'|] eqn:E.
      * intros [= ->]. destruct (IH eq_refl) as (m & rest & -> & F & K).
        exists (c :: m), rest. auto.
      * intros H. exists [], (c :: t). auto.
    + intros H. exists [], (c :: t). auto.
Qed.

Lemma star_greedy_complete k kont m rest :
  Forall (fun c => in_cls k c = true) m ->
  kont rest <> None ->
  star_greedy A k kont (m ++ rest) <> None.
Proof.
  intros F K. induction F as [|c m C F IH]; simpl.
  - destruct rest as [|c t]; simpl; [exact K|].
    destruct (in_cls k c); [|exact K].
    destruct (star_greedy A k kont t); [discriminate|exact K].
  - rewrite C. destruct (star_greedy A k kont (m ++ rest)); [discriminate|].
    contradiction.
Qed.

Lemma star_lazy_sound k kont s (a : A) :
  star_lazy A k kont s = Some a ->
  exists m rest, s = m ++ rest /\ Forall (fun c => in_cls k c = true) m /\
                 kont rest = Some a.
Proof.
  induction s as [|c t IH]; simpl.
  - destruct (kont []) eqn:E; [|discriminate]. intros [= ->]. exists [], []. auto.
  - destruct (kont (c :: t)) eqn:E.
    + intros [= ->]. exists [], (c :: t). auto.
    + destruct (in_cls k c) eqn:C; [|discriminate].
      intros H. destruct (IH H) as (m & rest & -> & F & K).
      exists (c :: m), rest. auto.
Qed.

Lemma star_lazy_complete k kont m rest :
  Forall (fun c => in_cls k c = true) m ->
  kont rest <> None ->
  star_lazy A k kont (m ++ rest) <> None.
Proof.
  intros F K. induction F as [|c m C F IH]; simpl.
  - destruct rest as [|c t]; simpl; destruct (kont _); congruence.
  - destruct (kont (c :: m ++ rest)); [discriminate|]. now rewrite C.
Qed.

(** Whatever the engine returns comes from a match of the pattern followed
    by a success of the continuation. *)
Lemma run_sound r : forall s caps kont (a : A),
  run ci A r s caps kont = Some a ->
  exists m rest caps', s = m ++ rest /\ matches ci r m caps caps' /\
                       kont rest caps' = Some a.
Proof.
  induction r as [p|r1 IH1 r2 IH2|r1 IH1 r2 IH2|r1 IH1|k|k|k|r1 IH1];
    intros s caps kont a; simpl.
  - destruct (match_chars ci p s) as [s'|] eqn:E; [|discriminate].
    apply match_chars_spec in E. destruct E as (m & -> & H).
    intros K. exists m, s', caps. auto.
  - destruct (run ci A r1 s caps kont) as [a'|] eqn:E.
    + intros [= ->]. destruct (IH1 _ _ _ _ E) as (m & rest & caps' & ? & ? & ?).
      exists m, rest, caps'. auto.
    + intros H. destruct (IH2 _ _ _ _ H) as (m & rest & caps' & ? & ? & ?).
      exists m, rest, caps'. auto.
  - intros H. destruct (IH1 _ _ _ _ H) as (m1 & rest1 & caps1 & -> & M1 & H1).
    destruct (IH2 _ _ _ _ H1) as (m2 & rest & caps' & -> & M2 & K).
    exists (m1 ++ m2), rest, caps'. rewrite <- app_assoc. split; [reflexivity|].
    split; [|exact K]. exists m1, m2, caps1. auto.
  - destruct (run ci A r1 s caps kont) as [a'|] eqn:E.
    + intros [= ->]. destruct (IH1 _ _ _ _ E) as (m & rest & caps' & ? & ? & ?).
      exists m, rest, caps'. auto.
    + intros K. exists [], s, caps. auto.
  - intros H. apply star_greedy_sound in H. destruct H as (m & rest & -> & F & K).
    exists m, rest, caps. auto.
  - destruct s as [|c t]; [discriminate|].
    destruct (in_cls k c) eqn:C; [|discriminate].
    intros H. apply star_greedy_sound in H. destruct H as (m & rest & -> & F & K).
    exists (c :: m), rest, caps. repeat split; auto. discriminate.
  - intros H. apply star_lazy_sound in H. destruct H as (m & rest & -> & F & K).
    exists m, rest, caps. auto.
  - intros H. destruct (IH1 _ _ _ _ H) as (m & rest & caps1 & -> & M & K).
    rewrite consumed_app in K. exists m, rest, (caps1 ++ [m]). eauto.
Qed.

(** When the pattern matches a prefix after which the continuation
    succeeds, the engine finds a match (that one or one it tries earlier). *)
Lemma run_complete r : forall m rest caps caps' kont,
  matches ci r m caps caps' ->
  kont rest caps' <> None ->
  run ci A r (m ++ rest) caps kont <> None.
Proof.
  induction r as [p|r1 IH1 r2 IH2|r1 IH1 r2 IH2|r1 IH1|k|k|k|r1 IH1];
    intros m rest caps caps' kont; simpl.
  - intros [H ->] K.
    assert (E : match_chars ci p (m ++ rest) = Some rest)
      by (apply match_chars_spec; eauto).
    now rewrite E.
  - intros [H|H] K.
    + pose proof (IH1 _ _ _ _ _ H K). destruct (run ci A r1 _ _ _); congruence.
    + pose proof (IH2 _ _ _ _ _ H K). destruct (run ci A r1 _ _ _); congruence.
  - intros (m1 & m2 & caps1 & -> & M1 & M2) K. rewrite <- app_assoc.
    apply (IH1 _ _ _ _ _ M1). now apply (IH2 _ _ _ _ _ M2).
  - intros [[-> ->]|H] K.
    + simpl. destruct (run ci A r1 _ _ _); congruence.
    + pose proof (IH1 _ _ _ _ _ H K). destruct (run ci A r1 _ _ _); congruence.
  - intros [F ->] K. now apply star_greedy_complete.
  - intros (N & F & ->) K. destruct F as [|c m C F]; [congruence|].
    simpl. rewrite C. now apply star_greedy_complete.
  - intros [F ->] K. now apply star_lazy_complete.
  - intros (caps1 & M & ->) K. apply (IH1 _ _ _ _ _ M).
    now rewrite consumed_app.
Qed.

End Soundness.

Lemma match_here_sound ci r s s' caps :
  match_here ci r s = Some (s', caps) ->
  exists m, s = m ++ s' /\ matches ci r m [] caps.
Proof.
  intros H. apply run_sound in H. destruct H as (m & rest & caps' & -> & M & [= -> ->]).
  now exists m.
Qed.

Lemma match_here_complete ci r m rest caps :
  matches ci r m [] caps -> match_here ci r (m ++ rest) <> None.
Proof. intros M. apply (run_complete _ _ _ _ _ _ _ _ M). discriminate. Qed.

(** [search] returns the match at the first position where the pattern
    matches, and fails only when it matches nowhere. *)
Lemma search_spec ci r : forall s pre,
  match search ci r pre s with
  | Some m =>
      exists n s', (n <= List.length s)%nat /\
        match_here ci r (skipn n s) = Some (s', groups m) /\
        (forall i, (i < n)%nat -> match_here ci r (skipn i s) = None) /\
        before m = rev pre ++ firstn n s /\
        matched m = consumed (skipn n s) s' /\
        after m = s'
  | None => forall i, (i <= List.length s)%nat -> match_here ci r (skipn i s) = None
  end.
Proof.
  induction s as [|c t IH]; intros pre; simpl.
  - destruct (match_here ci r []) as [[s' caps]|] eqn:E.
    + exists 0%nat, s'. simpl. rewrite app_nil_r. repeat split; auto. intros i Hi; lia.
    + intros i Hi. replace i with 0%nat by lia. exact E.
  - destruct (match_here ci r (c :: t)) as [[s' caps]|] eqn:E.
    + exists 0%nat, s'. simpl. rewrite app_nil_r. repeat split; auto; try lia.
    + specialize (IH (c :: pre)). destruct (search ci r (c :: pre) t) as [m|].
      * destruct IH as (n & s' & Hn & Hm & Hf & Hb & Hc & Ha).
        exists (S n), s'. simpl. repeat split; auto; try lia.
        -- intros [|i] Hi; [exact E|]. apply Hf. lia.
        -- rewrite Hb. simpl. now rewrite <- app_assoc.
      * intros [|i] Hi; [exact E|]. apply IH. lia.
Qed.

(** A successful [exec] splits the input around its match, the matched text
    is matched by the pattern, and the pattern matches at no earlier
    position. *)
Lemma exec_sound ci r s m :
  exec ci r s = Some m ->
  s = before m ++ matched m ++ after m /\
  matches ci r (matched m) [] (groups m) /\
  match_here ci r (matched m ++ after m) = Some (after m, groups m) /\
  forall i, (i < List.length (before m))%nat -> match_here ci r (skipn i s) = None.
Proof.
  intros H. pose proof (search_spec ci r s []) as S. unfold exec in H. rewrite H in S.
  destruct S as (n & s' & Hn & Hm & Hf & Hb & Hc & Ha). simpl in Hb.
  destruct (match_here_sound _ _ _ _ _ Hm) as (m0 & E & M).
  rewrite E, consumed_app in Hc. rewrite Hb, Hc, Ha.
  split; [|split; [|split]].
  - rewrite <- E. symmetry. apply firstn_skipn.
  - exact M.
  - now rewrite <- E.
  - intros i Hi. apply Hf. rewrite length_firstn in Hi. lia.
Qed.

Lemma exec_none ci r s :
  exec ci r s = None ->
  forall pre m rest caps, s = pre ++ m ++ rest -> ~ matches ci r m [] caps.
Proof.
  intros H pre m rest caps -> M.
  pose proof (search_spec ci r (pre ++ m ++ rest) []) as S. unfold exec in H.
  rewrite H in S. specialize (S (List.length pre)).
  rewrite skipn_app, skipn_all, Nat.sub_diag in S. simpl in S.
  apply (match_here_complete ci r m rest caps M), S.
  rewrite length_app. lia.
Qed.

(** The other way round: a match at [pre] with none before it is the one
    [exec] returns. *)
Lemma exec_first ci r pre rest s' caps :
  match_here ci r rest = Some (s', caps) ->
  (forall i, (i < List.length pre)%nat -> match_here ci r (skipn i (pre ++ rest)) = None) ->
  exec ci r (pre ++ rest) = Some (RMatch pre (consumed rest s') caps s').
Proof.
  intros Hm Hf. pose proof (search_spec ci r (pre ++ rest) []) as S. unfold exec.
  assert (At : skipn (List.length pre) (pre ++ rest) = rest).
  { rewrite skipn_app, skipn_all, Nat.sub_diag. reflexivity. }
  destruct (search ci r [] (pre ++ rest)) as [m|].
  - destruct S as (n & s'' & Hn & Hm' & Hf' & Hb & Hc & Ha). simpl in Hb.
    assert (n = List.length pre).
    { destruct (Nat.lt_trichotomy n (List.length pre)) as [L|[L|L]]; [|exact L|].
      - rewrite (Hf n L) in Hm'. discriminate.
      - pose proof (Hf' _ L) as X. rewrite At in X. congruence. }
    subst n. rewrite At in Hm', Hc. rewrite Hm in Hm'. injection Hm' as E1 E2.
    rewrite firstn_app, firstn_all, Nat.sub_diag in Hb. simpl in Hb.
    rewrite app_nil_r in Hb.
    destruct m as [b mt g a]. simpl in *. congruence.
  - specialize (S (List.length pre)). rewrite At, Hm in S.
    discriminate S. rewrite length_app. lia.
Qed.

Lemma exec_none_iff ci r s :
  exec ci r s = None <->
  forall i, (i <= List.length s)%nat -> match_here ci r (skipn i s) = None.
Proof.
  pose proof (search_spec ci r s []) as S. unfold exec. split.
  - intros H. now rewrite H in S.
  - intros H. destruct (search ci r [] s) as [m|]; [|reflexivity].
    destruct S as (n & s' & Hn & Hm & _). rewrite (H n Hn) in Hm. discriminate.
Qed.

(** *** Global replacement *)

Lemma replace_loop_fuel ci r f : forall n1 n2 s,
  (List.length s < n1)%nat -> (List.length s < n2)%nat ->
  replace_loop n1 ci r f s = replace_loop n2 ci r f s.
Proof.
  induction n1 as [|n1 IH]; intros n2 s H1 H2; [lia|].
  destruct n2 as [|n2]; [lia|]. simpl.
  destruct (exec ci r s) as [m|] eqn:E; [|reflexivity].
  destruct (exec_sound _ _ _ _ E) as (S & _).
  assert (L : List.length s =
              (List.length (before m) + (List.length (matched m) + List.length (after m)))%nat)
    by (rewrite S at 1; now rewrite !length_app).
  do 2 f_equal.
  destruct (matched m) as [|c mt]; simpl in L.
  - destruct (after m) as [|c t]; [reflexivity|]. simpl in L.
    f_equal. apply IH; lia.
  - apply IH; lia.
Qed.

(** No match: the text is returned as it is. *)
Lemma replace_all_none ci r f s :
  exec ci r s = None -> replace_all ci r f s = s.
Proof. intros H. unfold replace_all. simpl. now rewrite H. Qed.

(** A non-empty first match: the text before it is kept, the match is
    replaced, and the replacement goes on in the text after it. *)
Lemma replace_all_step ci r f s m :
  exec ci r s = Some m -> matched m <> [] ->
  replace_all ci r f s = before m ++ f m ++ replace_all ci r f (after m).
Proof.
  intros H N. set (R := replace_all ci r f (after m)).
  unfold replace_all. simpl. rewrite H.
  destruct (exec_sound _ _ _ _ H) as (S & _).
  assert (L : List.length s =
              (List.length (before m) + (List.length (matched m) + List.length (after m)))%nat)
    by (rewrite S at 1; now rewrite !length_app).
  destruct (matched m) as [|c mt]; [congruence|]. simpl in L.
  do 2 f_equal. subst R. apply replace_loop_fuel; lia.
Qed.

End RegexProofs.

Import RegexProofs.

(* ================================================================== *)
(** ** Properties of the three helpers of html.ts *)
(* ================================================================== *)

Module HtmlProofs.

Import Html.

(** *** Tags in a document *)

(** The tag [tag] (given in lower case) stands at position [i] of [s], in
    any mix of upper and lower case. *)
Definition tag_at (tag s : str) (i : nat) : bool :=
  starts_with tag (toLowerCase (skipn i s)).

(** [s] contains the tag. *)
Definition contains_tag (tag s : str) : Prop :=
  exists i, tag_at tag s i = true.

(** The first occurrence of the tag in [s] is at position [n]. *)
Definition first_tag (tag s : str) (n : nat) : Prop :=
  tag_at tag s n = true /\ forall i, (i < n)%nat -> tag_at tag s i = false.

(** How many times [s] contains the tag. *)
Fixpoint count_tag (tag s : str) : nat :=
  (if starts_with tag (toLowerCase s) then 1 else 0) +
  match s with
  | [] => 0
  | _ :: t => count_tag tag t
  end.

(** The occurrences of the tag in [a ++ b] that start inside [a]. *)
Fixpoint count_in (tag a b : str) : nat :=
  match a with
  | [] => 0
  | _ :: a' => (if starts_with tag (toLowerCase (a ++ b)) then 1 else 0) + count_in tag a' b
  end.

Lemma count_tag_app tag a b :
  count_tag tag (a ++ b) = (count_in tag a b + count_tag tag b)%nat.
Proof.
  induction a as [|c a IH]; [reflexivity|].
  simpl. rewrite IH. lia.
Qed.

Lemma count_in_zero tag a b :
  (forall i, (i < List.length a)%nat -> tag_at tag (a ++ b) i = false) ->
  count_in tag a b = 0%nat.
Proof.
  induction a as [|c a IH]; intros H; [reflexivity|].
  simpl. pose proof (H 0%nat) as H0. unfold tag_at in H0. simpl in H0.
  rewrite H0 by lia. simpl. apply IH. intros i Hi.
  specialize (H (S i)). unfold tag_at in *. simpl in H. apply H. lia.
Qed.

Lemma toLowerCase_app a b : toLowerCase (a ++ b) = toLowerCase a ++ toLowerCase b.
Proof. apply map_app. Qed.

Lemma toLowerCase_skipn i s : toLowerCase (skipn i s) = skipn i (toLowerCase s).
Proof. unfold toLowerCase. symmetry. apply skipn_map. Qed.

Lemma count_tag_lower tag : forall s s',
  toLowerCase s = toLowerCase s' -> count_tag tag s = count_tag tag s'.
Proof.
  induction s as [|c s IH]; intros [|c' s'] H; try discriminate; [reflexivity|].
  cbn [count_tag]. rewrite H. f_equal. apply IH. simpl in H. congruence.
Qed.

Lemma starts_with_app_long p : forall u v,
  (List.length p <= List.length u)%nat ->
  starts_with p (u ++ v) = starts_with p u.
Proof.
  induction p as [|a p IH]; intros u v H; [reflexivity|].
  destruct u as [|b u]; simpl in *; [lia|].
  destruct (ascii_dec a b); [apply IH; lia|reflexivity].
Qed.

Lemma starts_with_app_short p : forall u c v,
  starts_with p (u ++ c :: v) = true ->
  (List.length u < List.length p)%nat -> In c p.
Proof.
  induction p as [|a p IH]; intros u c v H L; simpl in L; [lia|].
  destruct u as [|b u]; simpl in H.
  - destruct (ascii_dec a c); [now left|discriminate].
  - destruct (ascii_dec a b); [|discriminate]. right.
    apply (IH u c v H). simpl in L. lia.
Qed.

(** [p] and [v] differ at a position that both have. *)
Fixpoint clash (p v : str) : bool :=
  match p, v with
  | a :: p', b :: v' => if ascii_dec a b then clash p' v' else true
  | _, _ => false
  end.

Lemma clash_starts_with p : forall v w,
  clash p v = true -> starts_with p (v ++ w) = false.
Proof.
  induction p as [|a p IH]; intros [|b v] w; simpl; try discriminate.
  destruct (ascii_dec a b); [apply IH|reflexivity].
Qed.

(** No occurrence of [p] can start inside [u], whatever follows [u]. *)
Definition never_starts_in (p u : str) : bool :=
  forallb (fun j => clash p (skipn j u)) (seq 0 (List.length u)).

Lemma never_starts_in_spec p u w i :
  never_starts_in p u = true -> (i < List.length u)%nat ->
  starts_with p (skipn i (u ++ w)) = false.
Proof.
  intros H L. unfold never_starts_in in H. rewrite forallb_forall in H.
  rewrite skipn_app. replace (i - List.length u)%nat with 0%nat by lia.
  apply clash_starts_with, H, in_seq. lia.
Qed.

Lemma starts_with_lower_match p : forall v,
  toLowerCase p = p ->
  starts_with p (toLowerCase v) = true <-> match_chars true p v <> None.
Proof.
  induction p as [|a p IH]; intros v H; simpl.
  - split; [discriminate|reflexivity].
  - injection H as Ha Hp. destruct v as [|b v]; simpl; [split; congruence|].
    unfold char_eqb. rewrite Ha.
    destruct (ascii_dec a (lower_char b)); [now apply IH|split; congruence].
Qed.

Lemma includes_spec p : forall u,
  includes p u = true <-> exists i, starts_with p (skipn i u) = true.
Proof.
  induction u as [|c u IH]; simpl.
  - rewrite orb_false_r. split.
    + intros H. now exists 0%nat.
    + intros [[|i] H]; exact H.
  - rewrite orb_true_iff, IH. split.
    + intros [H|[i H]]; [now exists 0%nat|now exists (S i)].
    + intros [[|i] H]; [now left|right; now exists i].
Qed.

Lemma includes_contains tag html :
  includes tag (toLowerCase html) = true <-> contains_tag tag html.
Proof.
  rewrite includes_spec. unfold contains_tag, tag_at.
  split; intros [i H]; exists i; now rewrite ?toLowerCase_skipn in *.
Qed.

Lemma tag_at_beyond tag s i :
  tag <> [] -> (List.length s <= i)%nat -> tag_at tag s i = false.
Proof.
  intros N L. unfold tag_at. rewrite skipn_all2 by exact L.
  destruct tag; [congruence|reflexivity].
Qed.

Section Inject.

(** A closing tag in lower case, such that no occurrence of it can start
    inside the style block or run into its first character. *)
Variable tag : str.
Hypothesis tag_lower : toLowerCase tag = tag.
Hypothesis tag_not_empty : tag <> [].
Hypothesis tag_css : never_starts_in tag (toLowerCase cssToInject) = true.
Hypothesis tag_newline : ~ In "010"%char tag.

Lemma match_here_tag v :
  match_here true (Chars tag) v =
  match match_chars true tag v with
  | Some rest => Some (rest, [])
  | None => None
  end.
Proof. reflexivity. Qed.

Lemma tag_at_match s i :
  tag_at tag s i = true <-> match_here true (Chars tag) (skipn i s) <> None.
Proof.
  unfold tag_at. rewrite starts_with_lower_match by exact tag_lower.
  rewrite match_here_tag. destruct (match_chars true tag (skipn i s)); split; congruence.
Qed.

Lemma tag_at_false_match s i :
  tag_at tag s i = false <-> match_here true (Chars tag) (skipn i s) = None.
Proof.
  pose proof (tag_at_match s i) as H. destruct (tag_at tag s i).
  - split; [discriminate|]. intros E. destruct (proj1 H eq_refl E).
  - split; [|reflexivity]. intros _.
    destruct (match_here true (Chars tag) (skipn i s)); [|reflexivity].
    assert (false = true) by (apply H; discriminate). discriminate.
Qed.

(** The style block goes in front of the first occurrence of the tag, which
    is rewritten in lower case; the rest of the document is untouched, the
    tag is still the first of its kind, and the document has as many such
    tags as before. *)
Lemma inject_before_first_tag html :
  contains_tag tag html ->
  exists n,
    first_tag tag html n /\
    replace_first true (Chars tag) (cssToInject ++ tag) html =
      firstn n html ++ cssToInject ++ tag ++ skipn (n + List.length tag) html /\
    first_tag tag (replace_first true (Chars tag) (cssToInject ++ tag) html)
              (n + List.length cssToInject) /\
    count_tag tag (replace_first true (Chars tag) (cssToInject ++ tag) html) =
      count_tag tag html.
Proof.
  intros [i Hi]. unfold replace_first.
  destruct (exec true (Chars tag) html) as [m|] eqn:E.
  2:{ rewrite exec_none_iff in E. apply tag_at_match in Hi. exfalso. apply Hi, E.
      destruct (Nat.le_gt_cases i (List.length html)) as [L|L]; [exact L|].
      exfalso. apply tag_at_match in Hi.
      rewrite tag_at_beyond in Hi by (auto; lia). discriminate. }
  rewrite <- (app_assoc cssToInject tag (after m)).
  destruct (exec_sound _ _ _ _ E) as (S & M & Hm & F).
  destruct M as [T _]. simpl in T. rewrite tag_lower in T.
  set (pre := before m) in *. set (mt := matched m) in *. set (post := after m) in *.
  assert (Lm : List.length mt = List.length tag).
  { transitivity (List.length (toLowerCase mt)); [|now rewrite T].
    unfold toLowerCase. now rewrite length_map. }
  assert (F1 : forall j, (j < List.length pre)%nat -> tag_at tag html j = false).
  { intros j Hj. apply tag_at_false_match, F, Hj. }
  assert (A1 : tag_at tag html (List.length pre) = true).
  { apply tag_at_match. rewrite S, skipn_app, skipn_all, Nat.sub_diag. simpl.
    rewrite Hm. discriminate. }
  assert (P1 : firstn (List.length pre) html = pre).
  { rewrite S, firstn_app, firstn_all, Nat.sub_diag. simpl. apply app_nil_r. }
  assert (P2 : skipn (List.length pre + List.length tag) html = post).
  { rewrite S, <- Lm, app_assoc, skipn_app, <- length_app, skipn_all, Nat.sub_diag.
    reflexivity. }
  (* no occurrence starts inside [pre] once the style block follows it *)
  assert (F2 : forall w j, (j < List.length pre)%nat ->
                 tag_at tag (pre ++ cssToInject ++ w) j = false).
  { intros w j Hj. specialize (F1 j Hj). unfold tag_at in F1 |- *.
    rewrite S in F1. rewrite skipn_app, toLowerCase_app in F1 |- *.
    replace (j - List.length pre)%nat with 0%nat in F1 |- * by lia.
    rewrite skipn_O in F1 |- *.
    set (u := toLowerCase (skipn j pre)) in *.
    destruct (Nat.le_gt_cases (List.length tag) (List.length u)) as [L|L].
    - rewrite starts_with_app_long in F1 |- * by exact L. exact F1.
    - assert (C : exists v, toLowerCase (cssToInject ++ w) = "010"%char :: v)
        by (eexists; reflexivity).
      destruct C as [v C]. rewrite C.
      destruct (starts_with tag (u ++ "010"%char :: v)) eqn:X; [|reflexivity].
      exfalso. apply tag_newline.
      exact (starts_with_app_short _ _ _ _ X L). }
  (* no occurrence starts inside the style block *)
  assert (F3 : forall w j, (j < List.length cssToInject)%nat ->
                 tag_at tag (cssToInject ++ w) j = false).
  { intros w j Hj. unfold tag_at. rewrite toLowerCase_skipn, toLowerCase_app.
    apply never_starts_in_spec; [exact tag_css|].
    unfold toLowerCase. now rewrite length_map. }
  exists (List.length pre). rewrite P1, P2. split; [|split; [|split]].
  - split; assumption.
  - reflexivity.
  - split.
    + unfold tag_at. rewrite app_assoc, skipn_app, <- length_app, skipn_all, Nat.sub_diag.
      simpl. rewrite toLowerCase_app, tag_lower.
      rewrite starts_with_app_long by lia.
      clear. induction tag as [|a t IH]; simpl; [reflexivity|].
      destruct (ascii_dec a a); [exact IH|congruence].
    + intros j Hj.
      destruct (Nat.lt_ge_cases j (List.length pre)) as [L|L]; [now apply F2|].
      unfold tag_at. rewrite skipn_app, skipn_all2 by exact L. simpl.
      apply (F3 (tag ++ post) (j - List.length pre)%nat). lia.
  - rewrite S. rewrite !count_tag_app.
    rewrite (count_in_zero tag pre (cssToInject ++ tag ++ post)) by (intros; now apply F2).
    rewrite (count_in_zero tag cssToInject (tag ++ post)) by (intros; now apply F3).
    rewrite (count_in_zero tag pre (mt ++ post)) by (intros; rewrite <- S; now apply F1).
    simpl. rewrite <- !count_tag_app. apply count_tag_lower.
    rewrite !toLowerCase_app. now rewrite T, tag_lower.
Qed.

End Inject.

Definition head_close : str := lit "</head>".
Definition body_close : str := lit "</body>".

Lemma hideBodyText_cases html :
  hideBodyText html =
  if includes head_close (toLowerCase html) then
    replace_first true (Chars head_close) (cssToInject ++ head_close) html
  else if includes body_close (toLowerCase html) then
    replace_first true (Chars body_close) (cssToInject ++ body_close) html
  else html ++ cssToInject.
Proof. reflexivity. Qed.




(** *** Calls of [camera.position.set] *)

Definition spaces (w : str) : Prop := Forall (fun c => is_space c = true) w.

Definition digits (d : str) : Prop := Forall (fun c => is_digit c = true) d.

(** A numeric literal as the pattern reads it: an optional minus sign,
    digits, an optional point, and at least one more digit. *)
Definition numeral (n : str) : Prop :=
  exists sign int point frac,
    n = sign ++ int ++ point ++ frac /\
    (sign = [] \/ sign = lit "-") /\ digits int /\
    (point = [] \/ point = lit ".") /\ digits frac /\ frac <> [].

(** [c] is a call [camera.position.set(x, y, z)] with three numeric
    literals, white space allowed around each of them. *)
Definition camera_call (c x y z : str) : Prop :=
  exists w0 w1 w2 w3 w4 w5,
    spaces w0 /\ spaces w1 /\ spaces w2 /\ spaces w3 /\ spaces w4 /\ spaces w5 /\
    numeral x /\ numeral y /\ numeral z /\
    c = lit "camera.position.set(" ++ w0 ++ x ++ w1 ++ lit "," ++
        w2 ++ y ++ w3 ++ lit "," ++ w4 ++ z ++ w5 ++ lit ")".

(** A call starts at the head of [s]. *)
Definition call_at (s : str) : Prop :=
  exists c x y z rest, s = c ++ rest /\ camera_call c x y z.

Lemma matches_number m caps caps' :
  matches false number_re m caps caps' <-> numeral m /\ caps' = caps ++ [m].
Proof.
  unfold number_re, numeral. simpl. unfold same_text. split.
  - intros (caps1 & (m1 & m2 & c1 & -> & S1 & m3 & m4 & c2 & -> & [D ->] &
                     m5 & m6 & c3 & -> & S2 & N & F & ->) & ->).
    assert (c3 = caps /\ (m1 = [] \/ m1 = lit "-") /\ (m5 = [] \/ m5 = lit ".")) as (-> & A & B).
    { destruct S1 as [[-> ->]|[-> ->]], S2 as [[-> ->]|[-> ->]]; auto. }
    split; [|reflexivity]. exists m1, m3, m5, m6. repeat split; assumption.
  - intros [(sign & int & point & frac & -> & S1 & D & S2 & F & N) ->].
    exists caps. split; [|reflexivity].
    exists sign, (int ++ point ++ frac), caps. split; [reflexivity|]. split.
    { destruct S1 as [->| ->]; auto. }
    exists int, (point ++ frac), caps. split; [reflexivity|]. split; [auto|].
    exists point, frac, caps. split; [reflexivity|]. split.
    { destruct S2 as [->| ->]; auto. }
    auto.
Qed.

Lemma matches_camera c caps :
  matches false camera_re c [] caps <->
  exists x y z, camera_call c x y z /\ caps = [x; y; z].
Proof.
  unfold camera_re, camera_call.
  cbn [matches]. fold number_re. unfold same_text. split.
  - intros (m0 & t0 & c0 & -> & [-> ->] &
            w0 & t1 & c1 & -> & [W0 ->] &
            x & t2 & c2 & -> & X &
            w1 & t3 & c3 & -> & [W1 ->] &
            k1 & t4 & c4 & -> & [-> ->] &
            w2 & t5 & c5 & -> & [W2 ->] &
            y & t6 & c6 & -> & Y &
            w3 & t7 & c7 & -> & [W3 ->] &
            k2 & t8 & c8 & -> & [-> ->] &
            w4 & t9 & c9 & -> & [W4 ->] &
            z & t10 & c10 & -> & Z &
            w5 & t11 & c11 & -> & [W5 ->] & -> & ->).
    apply matches_number in X, Y, Z.
    destruct X as [X ->], Y as [Y ->], Z as [Z ->].
    exists x, y, z. split; [|reflexivity].
    exists w0, w1, w2, w3, w4, w5. repeat split; assumption.
  - intros (x & y & z & (w0 & w1 & w2 & w3 & w4 & w5 & W0 & W1 & W2 & W3 & W4 & W5 &
                        X & Y & Z & ->) & ->).
    eexists _, _, _. split; [reflexivity|]. split; [split; reflexivity|].
    eexists _, _, _. split; [reflexivity|]. split; [split; [exact W0|reflexivity]|].
    eexists _, _, _. split; [reflexivity|].
    split; [apply matches_number; split; [exact X|reflexivity]|].
    eexists _, _, _. split; [reflexivity|]. split; [split; [exact W1|reflexivity]|].
    eexists _, _, _. split; [reflexivity|]. split; [split; reflexivity|].
    eexists _, _, _. split; [reflexivity|]. split; [split; [exact W2|reflexivity]|].
    eexists _, _, _. split; [reflexivity|].
    split; [apply matches_number; split; [exact Y|reflexivity]|].
    eexists _, _, _. split; [reflexivity|]. split; [split; [exact W3|reflexivity]|].
    eexists _, _, _. split; [reflexivity|]. split; [split; reflexivity|].
    eexists _, _, _. split; [reflexivity|]. split; [split; [exact W4|reflexivity]|].
    eexists _, _, _. split; [reflexivity|].
    split; [apply matches_number; split; [exact Z|reflexivity]|].
    eexists _, _, _. split; [reflexivity|]. split; [split; [exact W5|reflexivity]|].
    split; reflexivity.
Qed.

(** A character of a numeric literal. *)
Definition is_numchar (c : ascii) : bool :=
  is_digit c || (if ascii_dec c "-"%char then true else false)
             || (if ascii_dec c "."%char then true else false).

(** [t] does not go on with a character of class [P]. *)
Definition stops (P : ascii -> bool) (t : str) : Prop :=
  match t with
  | [] => True
  | c :: _ => P c = false
  end.

(** A run of characters of one class, followed by something that is not of
    the class, is read off a text in one way only. *)
Lemma run_unique (P : ascii -> bool) : forall a a' b b',
  Forall (fun c => P c = true) a -> Forall (fun c => P c = true) a' ->
  stops P b -> stops P b' ->
  a ++ b = a' ++ b' -> a = a' /\ b = b'.
Proof.
  induction a as [|c a IH]; intros a' b b' Fa Fa' Sb Sb' E.
  - destruct a' as [|c' a']; [auto|]. simpl in E. subst b.
    inversion Fa'; subst. simpl in Sb. congruence.
  - destruct a' as [|c' a'].
    + simpl in E. subst b'. inversion Fa; subst. simpl in Sb'. congruence.
    + injection E as -> E. inversion Fa; inversion Fa'; subst.
      destruct (IH a' b b') as [-> ->]; auto.
Qed.

Lemma space_not_numchar c : is_space c = true -> is_numchar c = false.
Proof.
  destruct c as [[] [] [] [] [] [] [] []]; vm_compute; congruence.
Qed.

Lemma digit_numchar c : is_digit c = true -> is_numchar c = true.
Proof. unfold is_numchar. now intros ->. Qed.

Lemma numeral_numchars n : numeral n -> Forall (fun c => is_numchar c = true) n.
Proof.
  intros (sign & int & point & frac & -> & S1 & D & S2 & F & N).
  assert (X : forall d, digits d -> Forall (fun c => is_numchar c = true) d).
  { intros d H. eapply Forall_impl; [|exact H]. apply digit_numchar. }
  apply Forall_app; split.
  { destruct S1 as [->| ->]; repeat constructor. }
  apply Forall_app; split; [now apply X|].
  apply Forall_app; split; [|now apply X].
  destruct S2 as [->| ->]; repeat constructor.
Qed.

Lemma numeral_not_empty n : numeral n -> n <> [].
Proof.
  intros (sign & int & point & frac & -> & _ & _ & _ & _ & N) E.
  repeat (apply app_eq_nil in E; destruct E as [_ E]). contradiction.
Qed.

Lemma stops_space_numeral n t : numeral n -> stops is_space (n ++ t).
Proof.
  intros H. pose proof (numeral_numchars _ H) as F.
  pose proof (numeral_not_empty _ H) as N.
  destruct n as [|c n]; [congruence|]. simpl. inversion F; subst.
  destruct (is_space c) eqn:E; [|reflexivity].
  apply space_not_numchar in E. congruence.
Qed.

Lemma stops_numchar_spaces w c t :
  spaces w -> is_numchar c = false -> stops is_numchar (w ++ c :: t).
Proof.
  intros W C. destruct w as [|d w]; simpl; [exact C|].
  inversion W; subst. now apply space_not_numchar.
Qed.

Ltac run_side :=
  auto using stops_space_numeral, numeral_numchars;
  try reflexivity;
  try (apply (stops_numchar_spaces _ ","%char); [assumption|reflexivity]);
  try (apply (stops_numchar_spaces _ ")"%char); [assumption|reflexivity]).

(** A text starts with at most one call, and the call has one reading. *)
Lemma camera_call_unique c x y z rest c' x' y' z' rest' :
  camera_call c x y z -> camera_call c' x' y' z' ->
  c ++ rest = c' ++ rest' ->
  c = c' /\ x = x' /\ y = y' /\ z = z' /\ rest = rest'.
Proof.
  intros (w0 & w1 & w2 & w3 & w4 & w5 & W0 & W1 & W2 & W3 & W4 & W5 & X & Y & Z & ->)
         (v0 & v1 & v2 & v3 & v4 & v5 & V0 & V1 & V2 & V3 & V4 & V5 & X' & Y' & Z' & ->) E.
  repeat rewrite <- app_assoc in E.
  apply app_inv_head in E.
  apply (run_unique is_space) in E; [|run_side..]. destruct E as [-> E].
  apply (run_unique is_numchar) in E; [|run_side..]. destruct E as [-> E].
  apply (run_unique is_space) in E; [|run_side..]. destruct E as [-> E].
  apply (app_inv_head (lit ",")) in E.
  apply (run_unique is_space) in E; [|run_side..]. destruct E as [-> E].
  apply (run_unique is_numchar) in E; [|run_side..]. destruct E as [-> E].
  apply (run_unique is_space) in E; [|run_side..]. destruct E as [-> E].
  apply (app_inv_head (lit ",")) in E.
  apply (run_unique is_space) in E; [|run_side..]. destruct E as [-> E].
  apply (run_unique is_numchar) in E; [|run_side..]. destruct E as [-> E].
  apply (run_unique is_space) in E; [|run_side..]. destruct E as [-> E].
  apply (app_inv_head (lit ")")) in E.
  subst. repeat split; reflexivity.
Qed.

Lemma camera_call_not_empty c x y z : camera_call c x y z -> c <> [].
Proof.
  intros (w0 & w1 & w2 & w3 & w4 & w5 & _ & _ & _ & _ & _ & _ & _ & _ & _ & ->).
  discriminate.
Qed.

(** The pattern matches at the head of a text exactly when a call starts
    there, and then it matches that call and captures its three literals. *)
Lemma match_here_call c x y z rest :
  camera_call c x y z ->
  match_here false camera_re (c ++ rest) = Some (rest, [x; y; z]).
Proof.
  intros C.
  assert (M : matches false camera_re c [] [x; y; z])
    by (apply matches_camera; eauto).
  pose proof (match_here_complete false camera_re c rest _ M) as N.
  destruct (match_here false camera_re (c ++ rest)) as [[s' caps]|] eqn:E;
    [|congruence].
  destruct (match_here_sound _ _ _ _ _ E) as (m & Em & Mm).
  apply matches_camera in Mm. destruct Mm as (x' & y' & z' & C' & ->).
  destruct (camera_call_unique _ _ _ _ _ _ _ _ _ _ C C' Em)
    as (_ & -> & -> & -> & ->).
  reflexivity.
Qed.

Lemma match_here_no_call s :
  ~ call_at s -> match_here false camera_re s = None.
Proof.
  intros N. destruct (match_here false camera_re s) as [[s' caps]|] eqn:E;
    [|reflexivity].
  destruct (match_here_sound _ _ _ _ _ E) as (m & -> & M).
  apply matches_camera in M. destruct M as (x & y & z & C & _).
  exfalso. apply N. exists m, x, y, z, s'. auto.
Qed.

Section ZoomCameraProofs.

Variable parseFloat : str -> float.
Variable Number_toString : float -> str.

(** The first call of a text is rescaled, the text before it is kept, and
    the rescaling goes on in the text after it. *)
Lemma zoomCamera_first_call p c q x y z f :
  camera_call c x y z ->
  (forall i, (i < List.length p)%nat -> ~ call_at (skipn i (p ++ c ++ q))) ->
  zoomCamera parseFloat Number_toString (p ++ c ++ q) f =
  p ++ rescaled_call parseFloat Number_toString f x y z ++
  zoomCamera parseFloat Number_toString q f.
Proof.
  intros C F. unfold zoomCamera.
  pose proof (exec_first false camera_re p (c ++ q) q [x; y; z]
                (match_here_call _ _ _ _ q C)
                (fun i Hi => match_here_no_call _ (F i Hi))) as E.
  rewrite consumed_app in E.
  rewrite (replace_all_step _ _ _ _ _ E); [reflexivity|].
  simpl. eapply camera_call_not_empty, C.
Qed.

(** A text without any call is returned as it is. *)
Lemma zoomCamera_no_call s f :
  (forall i, ~ call_at (skipn i s)) ->
  zoomCamera parseFloat Number_toString s f = s.
Proof.
  intros N. unfold zoomCamera. apply replace_all_none, exec_none_iff.
  intros i _. apply match_here_no_call, N.
Qed.

(** C5. In a text, the first literal call [camera.position.set(x, y, z)]
    (three numeric literals, integer or decimal, optionally negative) is
    replaced by the call with the three numbers [parseFloat(x) * factor],
    [parseFloat(y) * factor], [parseFloat(z) * factor], written with [", "]
    between them; the text before the call is kept and the text after it is
    treated in the same way, so that two calls are rescaled independently of
    each other and the text between and around them is untouched; a text
    without any such call is returned unchanged. With [parseFloat] and the
    number-to-string conversion behaving on the literals of the example as
    JavaScript's do, [camera.position.set(10, 20, -30)] with factor [0.5]
    becomes [camera.position.set(5, 10, -15)]. *)
Theorem zoomCamera_rescales_every_call :
  (forall p c q x y z f,
     camera_call c x y z ->
     (forall i, (i < List.length p)%nat -> ~ call_at (skipn i (p ++ c ++ q))) ->
     zoomCamera parseFloat Number_toString (p ++ c ++ q) f =
     p ++ (lit "camera.position.set(" ++
           Number_toString (parseFloat x * f)%float ++ lit ", " ++
           Number_toString (parseFloat y * f)%float ++ lit ", " ++
           Number_toString (parseFloat z * f)%float ++ lit ")") ++
     zoomCamera parseFloat Number_toString q f) /\
  (forall p0 c1 p1 c2 p2 x1 y1 z1 x2 y2 z2 f,
     camera_call c1 x1 y1 z1 -> camera_call c2 x2 y2 z2 ->
     (forall i, (i < List.length p0)%nat ->
                ~ call_at (skipn i (p0 ++ c1 ++ p1 ++ c2 ++ p2))) ->
     (forall i, (i < List.length p1)%nat -> ~ call_at (skipn i (p1 ++ c2 ++ p2))) ->
     (forall i, ~ call_at (skipn i p2)) ->
     zoomCamera parseFloat Number_toString (p0 ++ c1 ++ p1 ++ c2 ++ p2) f =
     p0 ++ rescaled_call parseFloat Number_toString f x1 y1 z1 ++
     p1 ++ rescaled_call parseFloat Number_toString f x2 y2 z2 ++ p2) /\
  (forall s f,
     (forall i, ~ call_at (skipn i s)) ->
     zoomCamera parseFloat Number_toString s f = s) /\
  (parseFloat (lit "10") = 10%float ->
   parseFloat (lit "20") = 20%float ->
   parseFloat (lit "-30") = (-30)%float ->
   Number_toString 5%float = lit "5" ->
   Number_toString 10%float = lit "10" ->
   Number_toString (-15)%float = lit "-15" ->
   zoomCamera parseFloat Number_toString
     (lit "camera.position.set(10, 20, -30)") 0.5%float =
   lit "camera.position.set(5, 10, -15)" /\
   zoomCamera parseFloat Number_toString
     (lit "camera.position.set(10, 20, -30); camera.position.set( 20 ,10,-30 );")
     0.5%float =
   lit "camera.position.set(5, 10, -15); camera.position.set(10, 5, -15);").
Proof.
  split; [|split; [|split]].
  - intros. now apply zoomCamera_first_call.
  - intros p0 c1 p1 c2 p2 x1 y1 z1 x2 y2 z2 f C1 C2 F0 F1 F2.
    rewrite (zoomCamera_first_call p0 c1 _ _ _ _ f C1 F0).
    rewrite (zoomCamera_first_call p1 c2 _ _ _ _ f C2 F1).
    now rewrite (zoomCamera_no_call p2 f F2).
  - intros. now apply zoomCamera_no_call.
  - intros H10 H20 H30 T5 T10 T15.
    vm_compute in H10, H20, H30, T5, T10, T15.
    split; vm_compute; rewrite ?H10, ?H20, ?H30; vm_compute;
      rewrite ?T5, ?T10, ?T15; reflexivity.
Qed.

End ZoomCameraProofs.

(** A reading of integer literals and a writing of small integers, to run
    the statement on. *)
Fixpoint float_of_nat (n : nat) : float :=
  match n with
  | O => 0%float
  | S n' => (float_of_nat n' + 1)%float
  end.

Definition read_digits (s : str) : float :=
  fold_left (fun acc c => (acc * 10 + float_of_nat (nat_of_ascii c - 48))%float)
            s 0%float.

Definition read_integer (s : str) : float :=
  match s with
  | "-"%char :: t => (- read_digits t)%float
  | _ => read_digits s
  end.

Fixpoint write_nat (fuel n : nat) : str :=
  match fuel with
  | O => []
  | S fuel' =>
      (if (n <? 10)%nat then [] else write_nat fuel' (n / 10)) ++
      [ascii_of_nat (48 + n mod 10)]
  end.

Definition write_integer (f : float) : str :=
  let a := PrimFloat.abs f in
  match find (fun n => PrimFloat.eqb (float_of_nat n) a) (seq 0 100) with
  | Some n => (if PrimFloat.ltb f 0 then lit "-" else []) ++ write_nat 3 n
  | None => lit "?"
  end.

(** The example of C5 with these two functions. *)
Lemma zoomCamera_rescales_every_call_witness :
  zoomCamera read_integer write_integer
    (lit "camera.position.set(10, 20, -30)") 0.5%float =
  lit "camera.position.set(5, 10, -15)" /\
  zoomCamera read_integer write_integer
    (lit "camera.position.set(10, 20, -30); camera.position.set( 20 ,10,-30 );")
    0.5%float =
  lit "camera.position.set(5, 10, -15); camera.position.set(10, 5, -15);".
Proof.
  apply (proj2 (proj2 (proj2
           (zoomCamera_rescales_every_call read_integer write_integer))));
    reflexivity.
Defined.

(** *** Documents and fenced blocks in a text *)

Definition doctype_open : str := lit "<!doctype html>".
Definition html_open : str := lit "<html".
Definition html_close : str := lit "</html>".
Definition fence : str := lit "```".

(** [o] is an opening of a document: [<!DOCTYPE html>] or [<html], in any
    mix of upper and lower case. *)
Definition opens (o : str) : Prop :=
  toLowerCase o = doctype_open \/ toLowerCase o = html_open.

(** [c] is the closing root tag [</html>], in any case. *)
Definition closes (c : str) : Prop := toLowerCase c = html_close.

(** [d] runs from an opening through the first closing root tag after it. *)
Definition document (d : str) : Prop :=
  exists o mid c,
    d = o ++ mid ++ c /\ opens o /\ closes c /\
    forall i, (i < List.length mid)%nat -> tag_at html_close (mid ++ c) i = false.

(** A document starts at the head of [s]. *)
Definition document_starts (s : str) : Prop :=
  exists d rest, s = d ++ rest /\ document d.

(** Somewhere in [text] an opening is followed by a closing root tag. *)
Definition has_document (text : str) : Prop :=
  exists pre o mid c post,
    text = pre ++ o ++ mid ++ c ++ post /\ opens o /\ closes c.

Lemma tag_at_false_chars tag s i :
  toLowerCase tag = tag ->
  tag_at tag s i = false <-> match_chars true tag (skipn i s) = None.
Proof.
  intros L. unfold tag_at.
  pose proof (starts_with_lower_match tag (skipn i s) L) as H.
  destruct (starts_with tag (toLowerCase (skipn i s))).
  - split; [discriminate|]. intros E. destruct (proj1 H eq_refl E).
  - split; [|reflexivity]. intros _.
    destruct (match_chars true tag (skipn i s)); [|reflexivity].
    assert (false = true) by (apply H; discriminate). discriminate.
Qed.

Lemma tag_at_app tag s t i :
  (i + List.length tag <= List.length s)%nat ->
  tag_at tag (s ++ t) i = tag_at tag s i.
Proof.
  intros L. unfold tag_at. rewrite skipn_app.
  replace (i - List.length s)%nat with 0%nat by lia. rewrite skipn_O.
  rewrite toLowerCase_app. apply starts_with_app_long.
  unfold toLowerCase. rewrite length_map, length_skipn. lia.
Qed.

Section LazyAny.

Variable A : Type.
Variable kont : str -> option A.

(** [[\s\S]*?] hands over at the first position where what follows
    succeeds. *)
Lemma star_lazy_any_first : forall s n a,
  (n <= List.length s)%nat ->
  kont (skipn n s) = Some a ->
  (forall i, (i < n)%nat -> kont (skipn i s) = None) ->
  star_lazy A Any kont s = Some a.
Proof.
  induction s as [|c t IH]; intros n a L K F.
  - simpl in L. replace n with 0%nat in K by lia. simpl in *. now rewrite K.
  - destruct n as [|n].
    + simpl in *. now rewrite K.
    + simpl. pose proof (F 0%nat ltac:(lia)) as F0. simpl in F0. rewrite F0.
      apply (IH n); [simpl in L; lia|exact K|].
      intros i Hi. apply (F (S i)). lia.
Qed.

Lemma star_lazy_any_inv : forall s a,
  star_lazy A Any kont s = Some a ->
  exists n, (n <= List.length s)%nat /\ kont (skipn n s) = Some a /\
            forall i, (i < n)%nat -> kont (skipn i s) = None.
Proof.
  induction s as [|c t IH]; intros a; simpl.
  - destruct (kont []) eqn:E; [|discriminate]. intros [= ->].
    exists 0%nat. repeat split; auto. intros i Hi; lia.
  - destruct (kont (c :: t)) eqn:E.
    + intros [= ->]. exists 0%nat. repeat split; auto; try lia.
    + intros H. destruct (IH _ H) as (n & L & K & F).
      exists (S n). repeat split; auto; try lia.
      intros [|i] Hi; [exact E|]. apply F. lia.
Qed.

End LazyAny.

(** The pattern of [extractHtmlFromText] for a whole document, unfolded. *)
Definition after_opening (s s' : str) : option (str * list str) :=
  star_lazy _ Any
    (fun s'' =>
       match match_chars true (lit "</html>") s'' with
       | Some rest => Some (rest, [consumed s s'])
       | None => None
       end) s'.

Lemma match_here_html s :
  match_here true html_re s =
  match
    match match_chars true (lit "<!DOCTYPE html>") s with
    | Some s' => after_opening s s'
    | None => None
    end
  with
  | Some a => Some a
  | None =>
      match match_chars true (lit "<html") s with
      | Some s' => after_opening s s'
      | None => None
      end
  end.
Proof. reflexivity. Qed.

Lemma after_opening_first s mid c rest :
  closes c ->
  (forall i, (i < List.length mid)%nat -> tag_at html_close (mid ++ c) i = false) ->
  after_opening s (mid ++ c ++ rest) = Some (rest, [consumed s (mid ++ c ++ rest)]).
Proof.
  intros C F. unfold after_opening.
  assert (Lc : List.length c = 7%nat).
  { transitivity (List.length (toLowerCase c)); [unfold toLowerCase; now rewrite length_map|].
    now rewrite C. }
  apply (star_lazy_any_first _ _ _ (List.length mid)).
  - rewrite length_app. lia.
  - rewrite skipn_app, skipn_all, Nat.sub_diag.
    change ([] ++ skipn 0 (c ++ rest)) with (c ++ rest).
    assert (E : match_chars true (lit "</html>") (c ++ rest) = Some rest).
    { apply match_chars_spec. exists c. split; [reflexivity|exact C]. }
    now rewrite E.
  - intros i Hi.
    assert (E : match_chars true (lit "</html>") (skipn i (mid ++ c ++ rest)) = None).
    { apply (tag_at_false_chars html_close); [reflexivity|].
      rewrite app_assoc, tag_at_app; [now apply F|].
      rewrite length_app. simpl. lia. }
    now rewrite E.
Qed.

Lemma after_opening_inv s s' rest caps :
  after_opening s s' = Some (rest, caps) ->
  exists mid c,
    s' = mid ++ c ++ rest /\ closes c /\
    forall i, (i < List.length mid)%nat -> tag_at html_close (mid ++ c) i = false.
Proof.
  unfold after_opening. intros H. apply star_lazy_any_inv in H.
  destruct H as (n & L & K & F).
  destruct (match_chars true (lit "</html>") (skipn n s')) as [r|] eqn:E; [|discriminate].
  injection K as -> _. apply match_chars_spec in E. destruct E as (c & E & C).
  exists (firstn n s'), c.
  assert (Ln : List.length (firstn n s') = n) by (rewrite length_firstn; lia).
  assert (Lc : List.length c = 7%nat).
  { transitivity (List.length (toLowerCase c)); [unfold toLowerCase; now rewrite length_map|].
    now rewrite C. }
  split; [|split].
  - rewrite <- E. symmetry. apply firstn_skipn.
  - exact C.
  - intros i Hi. rewrite Ln in Hi. specialize (F i Hi).
    destruct (match_chars true (lit "</html>") (skipn i s')) eqn:X; [discriminate|].
    apply (tag_at_false_chars html_close) in X; [|reflexivity].
    rewrite <- (firstn_skipn n s'), E, app_assoc, tag_at_app in X; [exact X|].
    rewrite length_app, Ln. simpl in *. lia.
Qed.

Lemma doctype_is_not_html o t :
  toLowerCase o = html_open -> match_chars true (lit "<!DOCTYPE html>") (o ++ t) = None.
Proof.
  intros H. destruct o as [|a1 [|a2 o]]; try discriminate.
  injection H as H1 H2 _. simpl. unfold char_eqb. rewrite H1, H2. reflexivity.
Qed.

(** At the head of a text that starts with a document, the pattern matches
    that document. *)
Lemma match_here_document d rest :
  document d -> exists caps, match_here true html_re (d ++ rest) = Some (rest, caps).
Proof.
  intros (o & mid & c & -> & O & C & F). rewrite match_here_html.
  rewrite <- !app_assoc. destruct O as [O|O].
  - assert (E : match_chars true (lit "<!DOCTYPE html>") (o ++ mid ++ c ++ rest)
                = Some (mid ++ c ++ rest)).
    { apply match_chars_spec. exists o. split; [reflexivity|exact O]. }
    rewrite E, (after_opening_first _ _ _ _ C F). eauto.
  - rewrite (doctype_is_not_html _ _ O).
    assert (E : match_chars true (lit "<html") (o ++ mid ++ c ++ rest)
                = Some (mid ++ c ++ rest)).
    { apply match_chars_spec. exists o. split; [reflexivity|exact O]. }
    rewrite E, (after_opening_first _ _ _ _ C F). eauto.
Qed.

(** What the pattern matches at the head of a text is a document. *)
Lemma match_here_html_inv s rest caps :
  match_here true html_re s = Some (rest, caps) ->
  exists d, s = d ++ rest /\ document d.
Proof.
  rewrite match_here_html.
  destruct (match_chars true (lit "<!DOCTYPE html>") s) as [s'|] eqn:E1.
  - destruct (after_opening s s') as [[r k]|] eqn:E2.
    + intros [= -> ->]. apply match_chars_spec in E1. destruct E1 as (o & -> & O).
      destruct (after_opening_inv _ _ _ _ E2) as (mid & c & -> & C & F).
      exists (o ++ mid ++ c). rewrite <- !app_assoc. split; [reflexivity|].
      exists o, mid, c. repeat split; auto. now left.
    + destruct (match_chars true (lit "<html") s) as [s''|] eqn:E3; [|discriminate].
      intros H. apply match_chars_spec in E3. destruct E3 as (o & -> & O).
      destruct (after_opening_inv _ _ _ _ H) as (mid & c & -> & C & F).
      exists (o ++ mid ++ c). rewrite <- !app_assoc. split; [reflexivity|].
      exists o, mid, c. repeat split; auto. now right.
  - destruct (match_chars true (lit "<html") s) as [s''|] eqn:E3; [|discriminate].
    intros H. apply match_chars_spec in E3. destruct E3 as (o & -> & O).
    destruct (after_opening_inv _ _ _ _ H) as (mid & c & -> & C & F).
    exists (o ++ mid ++ c). rewrite <- !app_assoc. split; [reflexivity|].
    exists o, mid, c. repeat split; auto. now right.
Qed.

Lemma matches_html_re o mid c :
  opens o -> closes c -> exists caps, matches true html_re (o ++ mid ++ c) [] caps.
Proof.
  intros O C. exists ([] ++ [o]). simpl.
  exists o, (mid ++ c), ([] ++ [o]). split; [reflexivity|]. split.
  - exists []. split; [|reflexivity]. destruct O as [O|O]; [left|right]; now split.
  - exists mid, c, ([] ++ [o]). split; [reflexivity|]. split.
    + split; [|reflexivity]. apply Forall_forall. reflexivity.
    + split; [exact C|reflexivity].
Qed.

(** A fence stands at position [i] of [s]. *)
Definition fence_at (s : str) (i : nat) : bool := starts_with fence (skipn i s).

(** [b] is a fenced block with body [body]: an opening fence, the language
    tag [html] when the block starts with it, the body, and the first fence
    after that. *)
Definition code_block (b body : str) : Prop :=
  exists tag,
    b = fence ++ tag ++ body ++ fence /\
    (tag = lit "html" \/ (tag = [] /\ starts_with (lit "html") body = false)) /\
    forall i, (i < List.length body)%nat -> fence_at (body ++ fence) i = false.

(** Somewhere in [text] a fence is followed by another one. *)
Definition has_code_block (text : str) : Prop :=
  exists pre mid post, text = pre ++ fence ++ mid ++ fence ++ post.

Lemma match_chars_exact p : forall v,
  match_chars false p v = if starts_with p v then Some (skipn (List.length p) v) else None.
Proof.
  induction p as [|a p IH]; intros v; simpl; [reflexivity|].
  destruct v as [|b v]; [reflexivity|]. unfold char_eqb.
  destruct (ascii_dec a b); [apply IH|reflexivity].
Qed.

Lemma starts_with_app p v : starts_with p (p ++ v) = true.
Proof.
  induction p as [|a p IH]; simpl; [reflexivity|].
  destruct (ascii_dec a a); [exact IH|congruence].
Qed.

Lemma starts_with_split p : forall v,
  starts_with p v = true -> v = p ++ skipn (List.length p) v.
Proof.
  induction p as [|a p IH]; intros v H; [reflexivity|].
  destruct v as [|b v]; [discriminate|]. simpl in *.
  destruct (ascii_dec a b) as [->|]; [|discriminate]. f_equal. now apply IH.
Qed.

Lemma starts_with_prefix p : forall u v,
  starts_with p u = true -> starts_with p (u ++ v) = true.
Proof.
  induction p as [|a p IH]; intros u v H; [reflexivity|].
  destruct u as [|b u]; [discriminate|]. simpl in *.
  destruct (ascii_dec a b); [now apply IH|discriminate].
Qed.

Lemma trimStart_skipn s :
  exists k, (k <= List.length s)%nat /\ trimStart s = skipn k s.
Proof.
  induction s as [|c t (k & L & E)]; [exists 0%nat; auto|].
  simpl. destruct (is_space c).
  - exists (S k). split; [simpl; lia|exact E].
  - exists 0%nat. split; [lia|reflexivity].
Qed.

Lemma trimStart_app_fence b t : trimStart (b ++ fence ++ t) = trimStart b ++ fence ++ t.
Proof.
  induction b as [|c b IH]; [reflexivity|].
  simpl. destruct (is_space c); [exact IH|reflexivity].
Qed.

Lemma trimStart_idem s : trimStart (trimStart s) = trimStart s.
Proof.
  induction s as [|c t IH]; [reflexivity|].
  simpl. destruct (is_space c) eqn:E; [exact IH|]. simpl. now rewrite E.
Qed.

Lemma trim_trimStart s : trim (trimStart s) = trim s.
Proof. unfold trim. now rewrite trimStart_idem. Qed.

(** [\s*] takes all the white space there is, when what follows succeeds
    after it. *)
Lemma star_greedy_trim A (kont : str -> option A) : forall s a,
  kont (trimStart s) = Some a -> star_greedy A Space kont s = Some a.
Proof.
  induction s as [|c t IH]; intros a H; simpl in *; [exact H|].
  destruct (is_space c); [now rewrite (IH _ H)|exact H].
Qed.

(** The pattern of [extractHtmlFromText] for a fenced block, unfolded. *)
Definition after_tag (s2 : str) : option (str * list str) :=
  star_greedy _ Space
    (fun s3 =>
       star_lazy _ Any
         (fun s4 =>
            match match_chars false (lit "```") s4 with
            | Some rest => Some (rest, [consumed s3 s4])
            | None => None
            end) s3) s2.

Lemma match_here_code_block s :
  match_here false code_block_re s =
  match match_chars false (lit "```") s with
  | Some s1 =>
      match
        match match_chars false (lit "html") s1 with
        | Some s2 => after_tag s2
        | None => None
        end
      with
      | Some a => Some a
      | None => after_tag s1
      end
  | None => None
  end.
Proof. reflexivity. Qed.

Lemma after_tag_first body rest :
  (forall i, (i < List.length body)%nat -> fence_at (body ++ fence) i = false) ->
  after_tag (body ++ fence ++ rest) = Some (rest, [trimStart body]).
Proof.
  intros F. unfold after_tag. apply star_greedy_trim.
  rewrite trimStart_app_fence.
  destruct (trimStart_skipn body) as (k & Lk & Ek).
  set (content := trimStart body) in *.
  apply (star_lazy_any_first _ _ _ (List.length content)).
  - rewrite length_app. lia.
  - rewrite skipn_app, skipn_all, Nat.sub_diag.
    change ([] ++ skipn 0 (fence ++ rest)) with (fence ++ rest).
    rewrite match_chars_exact. change (lit "```") with fence.
    rewrite starts_with_app, consumed_app. reflexivity.
  - intros i Hi. rewrite match_chars_exact. change (lit "```") with fence.
    assert (X : starts_with fence (skipn i (content ++ fence ++ rest)) = false).
    { assert (Lc : List.length content = (List.length body - k)%nat)
        by (rewrite Ek; apply length_skipn).
      specialize (F (k + i)%nat ltac:(lia)). unfold fence_at in F.
      rewrite skipn_app in F.
      replace (k + i - List.length body)%nat with 0%nat in F by lia.
      rewrite skipn_O, Nat.add_comm, <- skipn_skipn, <- Ek in F.
      rewrite skipn_app.
      replace (i - List.length content)%nat with 0%nat by lia.
      rewrite skipn_O, app_assoc, starts_with_app_long; [exact F|].
      rewrite length_app, length_skipn. simpl. lia. }
    now rewrite X.
Qed.

(** At the head of a text that starts with a fenced block, the pattern
    matches that block and captures its body without the leading white
    space. *)
Lemma match_here_block b body rest :
  code_block b body ->
  match_here false code_block_re (b ++ rest) = Some (rest, [trimStart body]).
Proof.
  intros (tag & -> & T & F). rewrite match_here_code_block.
  rewrite <- !app_assoc. rewrite match_chars_exact.
  change (lit "```") with fence. rewrite starts_with_app.
  change (skipn (List.length fence) (fence ++ tag ++ body ++ fence ++ rest))
    with (tag ++ body ++ fence ++ rest).
  destruct T as [->|[-> T]].
  - rewrite match_chars_exact, starts_with_app.
    change (skipn (List.length (lit "html")) (lit "html" ++ body ++ fence ++ rest))
      with (body ++ fence ++ rest).
    now rewrite (after_tag_first _ _ F).
  - change ([] ++ body ++ fence ++ rest) with (body ++ fence ++ rest).
    rewrite match_chars_exact.
    assert (X : starts_with (lit "html") (body ++ fence ++ rest) = false).
    { destruct (Nat.le_gt_cases 4 (List.length body)) as [L|L].
      - rewrite starts_with_app_long by exact L. exact T.
      - destruct (starts_with (lit "html") (body ++ fence ++ rest)) eqn:X;
          [|reflexivity].
        change (fence ++ rest) with ("`"%char :: "`"%char :: "`"%char :: rest) in X.
        apply starts_with_app_short in X; [|exact L].
        exfalso. vm_compute in X. intuition discriminate. }
    rewrite X. now apply after_tag_first.
Qed.

Lemma first_position (f : nat -> bool) : forall n,
  f n = true -> exists m, (m <= n)%nat /\ f m = true /\ forall i, (i < m)%nat -> f i = false.
Proof.
  induction n as [n IH] using lt_wf_ind. intros H.
  destruct (existsb f (seq 0 n)) eqn:E.
  - apply existsb_exists in E. destruct E as (j & Hj & Fj). apply in_seq in Hj.
    destruct (IH j ltac:(lia) Fj) as (m & Lm & Fm & Hm).
    exists m. repeat split; auto. lia.
  - exists n. repeat split; auto. intros i Hi.
    destruct (f i) eqn:Fi; [|reflexivity].
    assert (X : existsb f (seq 0 n) = true).
    { apply existsb_exists. exists i. split; [apply in_seq; lia|exact Fi]. }
    congruence.
Qed.

Lemma fence_at_split s i :
  fence_at s i = true -> s = firstn i s ++ fence ++ skipn (i + 3) s.
Proof.
  unfold fence_at. intros H. apply starts_with_split in H.
  rewrite skipn_skipn in H. rewrite <- (firstn_skipn i s) at 1.
  rewrite H at 1. now rewrite (Nat.add_comm i 3).
Qed.

Lemma fence_at_middle pre t : fence_at (pre ++ fence ++ t) (List.length pre) = true.
Proof.
  unfold fence_at. rewrite skipn_app, skipn_all, Nat.sub_diag.
  exact (starts_with_app fence t).
Qed.

Lemma fence_at_shift pre s i : fence_at (pre ++ s) (List.length pre + i) = fence_at s i.
Proof.
  unfold fence_at. rewrite skipn_app, skipn_all2 by lia.
  now replace (List.length pre + i - List.length pre)%nat with i by lia.
Qed.

(** A text with a fenced block starts its first one at its first fence. *)
Lemma first_code_block text :
  has_code_block text ->
  exists pre b body post,
    text = pre ++ b ++ post /\ code_block b body /\
    forall i, (i < List.length pre)%nat -> fence_at text i = false.
Proof.
  intros (pre0 & mid0 & post0 & E).
  assert (A : fence_at text (List.length pre0) = true)
    by (rewrite E; apply fence_at_middle).
  destruct (first_position (fence_at text) _ A) as (p & Lp & Fp & Hp).
  pose proof (fence_at_split _ _ Fp) as Sp.
  set (pre := firstn p text) in *. set (s1 := skipn (p + 3) text) in *.
  assert (Lpre : List.length pre = p).
  { assert (X : List.length text = (List.length pre + 3 + List.length s1)%nat)
      by (rewrite Sp at 1; rewrite !length_app; simpl; lia).
    unfold pre in *. rewrite length_firstn in *. lia. }
  (* a second fence after the first one *)
  assert (B : exists j, fence_at s1 j = true).
  { exists (List.length pre0 + 3 + List.length mid0 - (p + 3))%nat.
    assert (Q : fence_at text (List.length pre0 + 3 + List.length mid0) = true).
    { rewrite E. replace (pre0 ++ fence ++ mid0 ++ fence ++ post0)
        with ((pre0 ++ fence ++ mid0) ++ fence ++ post0)
        by (now rewrite <- !app_assoc).
      replace (List.length pre0 + 3 + List.length mid0)%nat
        with (List.length (pre0 ++ fence ++ mid0))
        by (rewrite !length_app; simpl; lia).
      apply fence_at_middle. }
    rewrite Sp in Q.
    replace (List.length pre0 + 3 + List.length mid0)%nat
      with (List.length (pre ++ fence) +
            (List.length pre0 + 3 + List.length mid0 - (p + 3)))%nat in Q
      by (rewrite length_app, Lpre; simpl; lia).
    rewrite app_assoc, fence_at_shift in Q. exact Q. }
  destruct B as [j Fj].
  destruct (starts_with (lit "html") s1) eqn:T.
  - (* the block is tagged *)
    pose proof (starts_with_split _ _ T) as S1. set (s2 := skipn 4 s1) in *.
    simpl List.length in S1. fold s2 in S1.
    assert (J : (4 <= j)%nat).
    { rewrite S1 in Fj. unfold fence_at in Fj.
      destruct j as [|[|[|[|j]]]]; try discriminate Fj. lia. }
    assert (Fj' : fence_at s2 (j - 4) = true).
    { rewrite S1 in Fj. replace j with (List.length (lit "html") + (j - 4))%nat in Fj
        by (simpl; lia).
      now rewrite fence_at_shift in Fj. }
    destruct (first_position (fence_at s2) _ Fj') as (q & Lq & Fq & Hq).
    pose proof (fence_at_split _ _ Fq) as S2.
    exists pre, (fence ++ lit "html" ++ firstn q s2 ++ fence), (firstn q s2),
           (skipn (q + 3) s2).
    split; [|split].
    + rewrite Sp at 1. rewrite S1 at 1. rewrite S2 at 1.
      now rewrite <- !app_assoc.
    + exists (lit "html"). split; [reflexivity|]. split; [now left|].
      intros i Hi. rewrite length_firstn in Hi.
      specialize (Hq i ltac:(lia)). rewrite S2 in Hq.
      rewrite app_assoc in Hq. unfold fence_at in *.
      rewrite skipn_app in Hq.
      replace (i - List.length (firstn q s2 ++ fence))%nat with 0%nat in Hq
        by (rewrite length_app, length_firstn; simpl; lia).
      rewrite skipn_O, starts_with_app_long in Hq; [exact Hq|].
      rewrite length_skipn, length_app, length_firstn. simpl. lia.
    + intros i Hi. apply Hp. lia.
  - (* the block is not tagged *)
    destruct (first_position (fence_at s1) _ Fj) as (q & Lq & Fq & Hq).
    pose proof (fence_at_split _ _ Fq) as S2.
    exists pre, (fence ++ [] ++ firstn q s1 ++ fence), (firstn q s1),
           (skipn (q + 3) s1).
    split; [|split].
    + rewrite Sp at 1. rewrite S2 at 1. now rewrite <- !app_assoc.
    + exists []. split; [reflexivity|]. split.
      * right. split; [reflexivity|].
        destruct (starts_with (lit "html") (firstn q s1)) eqn:X; [|reflexivity].
        apply (starts_with_prefix _ _ (skipn q s1)) in X.
        rewrite firstn_skipn in X. congruence.
      * intros i Hi. rewrite length_firstn in Hi.
        specialize (Hq i ltac:(lia)). rewrite S2 in Hq.
        rewrite app_assoc in Hq. unfold fence_at in *.
        rewrite skipn_app in Hq.
        replace (i - List.length (firstn q s1 ++ fence))%nat with 0%nat in Hq
          by (rewrite length_app, length_firstn; simpl; lia).
        rewrite skipn_O, starts_with_app_long in Hq; [exact Hq|].
        rewrite length_skipn, length_app, length_firstn. simpl. lia.
    + intros i Hi. apply Hp. lia.
Qed.

Lemma extract_unfold text :
  extractHtmlFromText text =
  match exec true html_re text with
  | Some m => matched m
  | None =>
      match exec false code_block_re text with
      | Some m => trim (group 1 m)
      | None => trim text
      end
  end.
Proof. destruct text; reflexivity. Qed.

Lemma document_starts_has_document text i :
  document_starts (skipn i text) -> has_document text.
Proof.
  intros (d & rest & E & (o & mid & c & -> & O & C & _)).
  exists (firstn i text), o, mid, c, rest. split; [|auto].
  rewrite <- (firstn_skipn i text) at 1. rewrite E. now rewrite <- !app_assoc.
Qed.

Lemma no_document_starts s :
  ~ document_starts s -> match_here true html_re s = None.
Proof.
  intros N. destruct (match_here true html_re s) as [[r k]|] eqn:E; [|reflexivity].
  destruct (match_here_html_inv _ _ _ E) as (d & -> & D).
  exfalso. apply N. now exists d, r.
Qed.

(** The first document of a text is what the pattern finds. *)
Lemma exec_first_document pre d post :
  document d ->
  (forall i, (i < List.length pre)%nat -> ~ document_starts (skipn i (pre ++ d ++ post))) ->
  exists caps, exec true html_re (pre ++ d ++ post) = Some (RMatch pre d caps post).
Proof.
  intros D F. destruct (match_here_document d post D) as [caps M].
  exists caps.
  rewrite (exec_first true html_re pre (d ++ post) post caps M
             (fun i Hi => no_document_starts _ (F i Hi))).
  now rewrite consumed_app.
Qed.

Lemma exec_document text :
  has_document text ->
  exists pre d post caps,
    text = pre ++ d ++ post /\ document d /\
    (forall i, (i < List.length pre)%nat -> ~ document_starts (skipn i text)) /\
    exec true html_re text = Some (RMatch pre d caps post).
Proof.
  intros (pre0 & o & mid & c & post0 & E & O & C).
  destruct (matches_html_re o mid c O C) as [caps0 M0].
  destruct (exec true html_re text) as [m|] eqn:X.
  2:{ exfalso. apply (exec_none _ _ _ X pre0 (o ++ mid ++ c) post0 caps0); [|exact M0].
      rewrite E. now rewrite <- !app_assoc. }
  destruct (exec_sound _ _ _ _ X) as (S & _ & Hm & F).
  destruct (match_here_html_inv _ _ _ Hm) as (d & Ed & D).
  apply app_inv_tail in Ed.
  destruct m as [pre mt caps post]. simpl in *. subst mt.
  exists pre, d, post, caps. repeat split; auto.
  intros i Hi (d' & rest' & E' & D').
  destruct (match_here_document d' rest' D') as [k K].
  rewrite <- E', (F i Hi) in K. discriminate.
Qed.

Lemma exec_no_document text :
  ~ has_document text -> exec true html_re text = None.
Proof.
  intros N. apply exec_none_iff. intros i _. apply no_document_starts.
  intros D. apply N. eapply document_starts_has_document, D.
Qed.

Lemma no_fence_no_block s i :
  fence_at s i = false -> match_here false code_block_re (skipn i s) = None.
Proof.
  unfold fence_at. intros H. rewrite match_here_code_block, match_chars_exact.
  change (lit "```") with fence. now rewrite H.
Qed.

Lemma exec_code_block text :
  has_code_block text ->
  exists pre b body post,
    text = pre ++ b ++ post /\ code_block b body /\
    (forall i, (i < List.length pre)%nat -> fence_at text i = false) /\
    exec false code_block_re text = Some (RMatch pre b [trimStart body] post).
Proof.
  intros H. destruct (first_code_block _ H) as (pre & b & body & post & E & B & F).
  exists pre, b, body, post. repeat split; auto.
  rewrite E. rewrite E in F.
  rewrite (exec_first false code_block_re pre (b ++ post) post [trimStart body]
             (match_here_block _ _ _ B)
             (fun i Hi => no_fence_no_block _ _ (F i Hi))).
  now rewrite consumed_app.
Qed.

Lemma exec_no_code_block text :
  ~ has_code_block text -> exec false code_block_re text = None.
Proof.
  intros N. apply exec_none_iff. intros i _.
  destruct (match_here false code_block_re (skipn i text)) as [[r k]|] eqn:E;
    [|reflexivity].
  exfalso. apply N. destruct (match_here_sound _ _ _ _ _ E) as (m & Em & M).
  simpl in M. unfold same_text in M.
  destruct M as (m1 & t1 & c1 & -> & [-> _] & m2 & t2 & c2 & -> & _ &
                 m3 & t3 & c3 & -> & _ & m4 & t4 & c4 & -> & _ & -> & _).
  exists (firstn i text), (m2 ++ m3 ++ m4), r.
  rewrite <- (firstn_skipn i text) at 1. rewrite Em.
  now rewrite <- !app_assoc.
Qed.

(** *** Trimming *)

(** [s] neither starts nor ends with white space. *)
Definition trimmed (s : str) : Prop :=
  stops is_space s /\ stops is_space (rev s).

Lemma trimStart_stops s : stops is_space (trimStart s).
Proof.
  induction s as [|c t IH]; simpl; [exact I|].
  destruct (is_space c) eqn:E; [exact IH|exact E].
Qed.

Lemma trimStart_fixed s : stops is_space s -> trimStart s = s.
Proof. destruct s as [|c t]; simpl; [reflexivity|]. now intros ->. Qed.

Lemma trimStart_suffix s : exists w, s = w ++ trimStart s /\ spaces w.
Proof.
  induction s as [|c t (w & E & W)]; [exists []; split; [reflexivity|constructor]|].
  simpl. destruct (is_space c) eqn:C.
  - exists (c :: w). split; [simpl; now f_equal|now constructor].
  - exists []. split; [reflexivity|constructor].
Qed.

Lemma trimEnd_prefix s : exists w, s = trimEnd s ++ w /\ spaces w.
Proof.
  unfold trimEnd. destruct (trimStart_suffix (rev s)) as (w & E & W).
  exists (rev w). split.
  - rewrite <- rev_app_distr, <- E. symmetry. apply rev_involutive.
  - now apply Forall_rev.
Qed.

Lemma trimEnd_fixed s : stops is_space (rev s) -> trimEnd s = s.
Proof. intros H. unfold trimEnd. rewrite trimStart_fixed by exact H. apply rev_involutive. Qed.

Lemma trim_trimmed s : trimmed (trim s).
Proof.
  unfold trim, trimmed. split.
  - destruct (trimEnd_prefix (trimStart s)) as (w & E & _).
    destruct (trimEnd (trimStart s)) as [|c t] eqn:T; [exact I|].
    pose proof (trimStart_stops s) as H. rewrite E in H. exact H.
  - unfold trimEnd. rewrite rev_involutive. apply trimStart_stops.
Qed.

Lemma trimmed_fixed s : trimmed s -> trim s = s.
Proof.
  intros [A B]. unfold trim. rewrite (trimStart_fixed _ A). now apply trimEnd_fixed.
Qed.

Lemma trim_idempotent s : trim (trim s) = trim s.
Proof. apply trimmed_fixed, trim_trimmed. Qed.

(** [r] is [s] without the white space at its two ends: what is cut off is
    white space only, and [r] neither starts nor ends with white space. *)
Definition trimmed_of (s r : str) : Prop :=
  exists a b, s = a ++ r ++ b /\ spaces a /\ spaces b /\ trimmed r.

Lemma trim_spec s : trimmed_of s (trim s).
Proof.
  destruct (trimStart_suffix s) as (a & Ea & Wa).
  destruct (trimEnd_prefix (trimStart s)) as (b & Eb & Wb).
  exists a, b. split; [|split; [exact Wa|split; [exact Wb|apply trim_trimmed]]].
  unfold trim. now rewrite <- Eb.
Qed.

Lemma exec_html_none text : exec true html_re text = None -> ~ has_document text.
Proof.
  intros X (pre & o & mid & c & post & E & O & C).
  destruct (matches_html_re o mid c O C) as [caps M].
  apply (exec_none _ _ _ X pre (o ++ mid ++ c) post caps); [|exact M].
  rewrite E. now rewrite <- !app_assoc.
Qed.

(** A language tag after the opening fence: a run of small letters. *)
Definition language_tag (l : str) : Prop :=
  l <> [] /\
  Forall (fun c => ((97 <=? nat_of_ascii c) && (nat_of_ascii c <=? 122))%nat = true) l.

Definition newline : str := ["010"%char].

(** C4, as the claim states it, fails for a fenced block with a language
    tag other than [html]: the tag is returned with the content. The block
    [```js], line feed, [foo();], [```] gives [js], line feed, [foo();]. *)
Lemma language_tag_is_returned :
  ~ (forall lang body,
       language_tag lang ->
       includes fence body = false ->
       ~ has_document (fence ++ lang ++ newline ++ body ++ fence) ->
       extractHtmlFromText (fence ++ lang ++ newline ++ body ++ fence) = trim body).
Proof.
  intros H. specialize (H (lit "js") (lit "foo();")).
  assert (E : extractHtmlFromText (fence ++ lit "js" ++ newline ++ lit "foo();" ++ fence) =
              lit "js" ++ newline ++ lit "foo();") by reflexivity.
  rewrite E in H. clear E.
  assert (X : lit "js" ++ newline ++ lit "foo();" = trim (lit "foo();")).
  { apply H.
    - split; [discriminate|]. repeat constructor.
    - reflexivity.
    - apply exec_html_none. reflexivity. }
  discriminate X.
Qed.

(** C4, amended. [extractHtmlFromText] searches in this order.
    (1) When the text holds a document (an opening [<!DOCTYPE html>] or
    [<html], in any case, followed somewhere by [</html>], in any case, with
    any characters and line breaks between), the result is the first one:
    it starts where a document first starts and runs through the first
    closing root tag after the opening; it is returned character for
    character, whatever stands before and after it.
    (2) Otherwise, when the text holds a fenced block, the result is the body
    of the first one without the white space at its two ends: the block
    starts at the first fence and the body runs up to the next fence; of
    language tags only [html], directly after the opening fence, is
    recognised and left out of the body, any other one is part of it.
    (3) Otherwise the result is the text without the white space at its two
    ends.
    The empty text gives the empty text. *)
Theorem extractHtmlFromText_search_order :
  (forall text, has_document text ->
     exists pre d post,
       text = pre ++ d ++ post /\ document d /\
       (forall i, (i < List.length pre)%nat -> ~ document_starts (skipn i text)) /\
       extractHtmlFromText text = d) /\
  (forall pre d post,
     document d ->
     (forall i, (i < List.length pre)%nat ->
                ~ document_starts (skipn i (pre ++ d ++ post))) ->
     extractHtmlFromText (pre ++ d ++ post) = d) /\
  (forall text, ~ has_document text -> has_code_block text ->
     exists pre b body post,
       text = pre ++ b ++ post /\ code_block b body /\
       (forall i, (i < List.length pre)%nat -> fence_at text i = false) /\
       extractHtmlFromText text = trim body /\
       trimmed_of body (extractHtmlFromText text)) /\
  (forall text, ~ has_document text -> ~ has_code_block text ->
     extractHtmlFromText text = trim text /\
     trimmed_of text (extractHtmlFromText text)) /\
  extractHtmlFromText [] = [] /\
  extractHtmlFromText (fence ++ lit "js" ++ newline ++ lit "foo();" ++ newline ++ fence) =
    lit "js" ++ newline ++ lit "foo();" /\
  extractHtmlFromText (lit "  hello world" ++ [ascii_of_nat 160; ascii_of_nat 9]) =
    lit "hello world".
Proof.
  split; [|split; [|split; [|split; [|split; [|split]]]]].
  - intros text H. destruct (exec_document _ H) as (pre & d & post & caps & E & D & F & X).
    exists pre, d, post. repeat split; auto. now rewrite extract_unfold, X.
  - intros pre d post D F. destruct (exec_first_document _ _ _ D F) as [caps X].
    now rewrite extract_unfold, X.
  - intros text N H.
    destruct (exec_code_block _ H) as (pre & b & body & post & E & B & F & X).
    assert (R : extractHtmlFromText text = trim body).
    { rewrite extract_unfold, (exec_no_document _ N), X. apply trim_trimStart. }
    exists pre, b, body, post. split; [exact E|]. split; [exact B|].
    split; [exact F|]. split; [exact R|]. rewrite R. apply trim_spec.
  - intros text N N'.
    assert (R : extractHtmlFromText text = trim text).
    { now rewrite extract_unfold, (exec_no_document _ N), (exec_no_code_block _ N'). }
    split; [exact R|]. rewrite R. apply trim_spec.
  - reflexivity.
  - reflexivity.
  - reflexivity.
Qed.

(** A document inside prose, and the fenced block of the specification's
    second test. *)
Lemma extractHtmlFromText_search_order_witness :
  extractHtmlFromText
    (lit "Here you go: " ++ lit "<!DOCTYPE html><HTML><body>x</body></Html>" ++
     lit " Enjoy </html>") =
  lit "<!DOCTYPE html><HTML><body>x</body></Html>".
Proof.
  apply (proj1 (proj2 extractHtmlFromText_search_order)).
  - exists (lit "<!DOCTYPE html>"), (lit "<HTML><body>x</body>"), (lit "</Html>").
    split; [reflexivity|]. split; [now left|]. split; [reflexivity|].
    intros i Hi. simpl in Hi.
    do 20 (destruct i as [|i]; [reflexivity|]). lia.
  - intros i Hi (d & rest & E & (o & mid & c & -> & O & _)).
    simpl in Hi.
    assert (X : tag_at doctype_open
                  (lit "Here you go: " ++
                   lit "<!DOCTYPE html><HTML><body>x</body></Html>" ++
                   lit " Enjoy </html>") i = true \/
                tag_at html_open
                  (lit "Here you go: " ++
                   lit "<!DOCTYPE html><HTML><body>x</body></Html>" ++
                   lit " Enjoy </html>") i = true).
    { unfold tag_at. rewrite E, <- !app_assoc, toLowerCase_app.
      destruct O as [-> | ->]; [left|right]; apply starts_with_app. }
    do 13 (destruct i as [|i]; [vm_compute in X; intuition discriminate|]). lia.
Defined.

Example extract_fenced_example :
  extractHtmlFromText (lit "```html
<div>x</div>
```") = lit "<div>x</div>".
Proof. reflexivity. Qed.

End HtmlProofs.

(* ================================================================== *)
(** * Further properties of the code *)
(* ================================================================== *)

(* ================================================================== *)
(** ** Textures and materials of VOXEL_TEMPLATE *)
(* ================================================================== *)

Module Materials.

Import Template.

(** The members of [Object.prototype], which every plain object inherits. *)
Definition Object_prototype_names : list str :=
  [lit "constructor"; lit "__defineGetter__"; lit "__defineSetter__";
   lit "hasOwnProperty"; lit "__lookupGetter__"; lit "__lookupSetter__";
   lit "isPrototypeOf"; lit "propertyIsEnumerable"; lit "toString";
   lit "valueOf"; lit "__proto__"; lit "toLocaleString"].

Definition inherited (k : str) : bool :=
  if in_dec str_eq_dec k Object_prototype_names then true else false.

(** What [o[k]] reads in a plain object whose own properties hold strings:
    the own property, else the inherited member, else [undefined]. *)
Inductive jsvalue :=
| VUndefined
| VString (s : str)
| VInherited (name : str).

Fixpoint own_string (o : list (str * str)) (k : str) : option str :=
  match o with
  | [] => None
  | (k', v) :: o' => if str_eq_dec k' k then Some v else own_string o' k
  end.

Definition get (o : list (str * str)) (k : str) : jsvalue :=
  match own_string o k with
  | Some v => VString v
  | None => if inherited k then VInherited k else VUndefined
  end.

(** [if (v)] *)
Definition truthy (v : jsvalue) : bool :=
  match v with
  | VUndefined | VString [] => false
  | _ => true
  end.

(** [a === b] on strings *)
Definition strict_eq (a b : str) : bool := if str_eq_dec a b then true else false.

(** The table [C] of [createBlockTexture]. *)
Definition C : list (str * str) :=
  [(lit "grass_top", lit "#5b8a3c"); (lit "grass_dark", lit "#4a6b2e");
   (lit "dirt", lit "#866043"); (lit "dirt_dark", lit "#6b4d35");
   (lit "stone", lit "#7d7d7d"); (lit "stone_dark", lit "#666666");
   (lit "planks", lit "#a07040"); (lit "planks_dark", lit "#7c5531");
   (lit "log_side", lit "#382618"); (lit "log_dark", lit "#261910");
   (lit "log_top", lit "#5c3c22");
   (lit "leaves", lit "#4a8f28"); (lit "leaves_dark", lit "#366923");
   (lit "cherry_planks", lit "#e0a3ad"); (lit "cherry_dark", lit "#c48e97");
   (lit "cherry_log", lit "#2d1e2d"); (lit "cherry_top", lit "#4a2e3d");
   (lit "sand", lit "#dbd3a0"); (lit "water", lit "#3f76e4");
   (lit "brick", lit "#966c4a"); (lit "brick_dark", lit "#78563b");
   (lit "cobble_base", lit "#6b6b6b"); (lit "cobble_light", lit "#808080")].

(** [const map = {white:'#fff', orange:'#f9801d', red:'#b02e26', black:'#1d1d21'};] *)
Definition wool_map : list (str * str) :=
  [(lit "white", lit "#fff"); (lit "orange", lit "#f9801d");
   (lit "red", lit "#b02e26"); (lit "black", lit "#1d1d21")].

(** The [side] argument of [createBlockTexture]; ['all'] is its default. *)
Inductive side := SideAll | SideTop | SideSide | SideBottom.

(** The first coat of a texture: [fillNoise(baseColor, variance)], or none
    for the glass pane. (The dots, boards and streaks drawn over it are
    placed with [Math.random] and are left out.) *)
Inductive paint :=
| Noise (baseColor : jsvalue) (variance : Z)
| Pane.

(** The colour of the last branch of [createBlockTexture]:
[[
let color = '#ff00ff';
if(C[type]) color = C[type];
else if(type.includes('wool_')) {
    const map = {...};
    const t = type.replace('wool_','');
    if(map[t]) color = map[t];
}
else if(type === 'gold') color = '#fcee4b';
else if(type === 'iron') color = '#e6e6e6';
else if(type === 'diamond') color = '#3de0d5';
else if(type === 'bedrock') color = '#333333';
else if(type === 'obsidian') color = '#140e1f';
]] *)
Definition default_color (type : str) : jsvalue :=
  if truthy (get C type) then get C type
  else if includes (lit "wool_") type then
    let t := replace_first false (Chars (lit "wool_")) [] type in
    if truthy (get wool_map t) then get wool_map t else VString (lit "#ff00ff")
  else if strict_eq type (lit "gold") then VString (lit "#fcee4b")
  else if strict_eq type (lit "iron") then VString (lit "#e6e6e6")
  else if strict_eq type (lit "diamond") then VString (lit "#3de0d5")
  else if strict_eq type (lit "bedrock") then VString (lit "#333333")
  else if strict_eq type (lit "obsidian") then VString (lit "#140e1f")
  else VString (lit "#ff00ff").

(** The branches of [createBlockTexture], in its order. *)
Definition base_coat (type : str) (s : side) : paint :=
  if strict_eq type (lit "grass") then
    match s with
    | SideTop => Noise (get C (lit "grass_top")) 20
    | SideBottom => Noise (get C (lit "dirt")) 30
    | _ => Noise (get C (lit "dirt")) 30
    end
  else if strict_eq type (lit "dirt") then Noise (get C (lit "dirt")) 30
  else if strict_eq type (lit "stone") then Noise (get C (lit "stone")) 15
  else if strict_eq type (lit "cobblestone") then Noise (get C (lit "cobble_base")) 20
  else if includes (lit "planks") type then
    Noise (if includes (lit "cherry") type
           then get C (lit "cherry_planks") else get C (lit "planks")) 10
  else if includes (lit "log") type then
    let isCherry := includes (lit "cherry") type in
    match s with
    | SideTop | SideBottom =>
        Noise (if isCherry then get C (lit "cherry_top") else get C (lit "log_top")) 20
    | _ =>
        Noise (if isCherry then get C (lit "cherry_log") else get C (lit "log_side")) 20
    end
  else if strict_eq type (lit "brick") then Noise (get C (lit "brick")) 15
  else if strict_eq type (lit "glass") then Pane
  else if includes (lit "leaves") type then
    Noise (if includes (lit "cherry") type
           then VString (lit "#f79ec6") else get C (lit "leaves")) 40
  else Noise (default_color type) 30.

(** A texture: the canvas it was drawn on (canvases are numbered as they are
    created, which tells two textures apart) and its first coat. *)
Record texture := Texture {
  canvas : nat;
  coat : paint
}.

(** [createBlockTexture(type, side)]: one new canvas per call. [n] canvases
    exist before the call. *)
Definition createBlockTexture (type : str) (s : side) (n : nat) : texture * nat :=
  (Texture n (base_coat type s), S n).

(** [new THREE.MeshStandardMaterial({map, transparent, opacity, alphaTest,
    roughness: 1.0, metalness: 0})] *)
Record standard_material := MeshStandardMaterial {
  map_texture : texture;
  transparent : bool;
  opacity : float;
  alphaTest : float
}.

(** The material made with [map] alone: three.js leaves it opaque. *)
Definition opaque (t : texture) : standard_material :=
  MeshStandardMaterial t false 1%float 0%float.

(** What [getBlockMaterial] hands out: an array of six materials, one
    material, or, for a type named like a member of [Object.prototype], that
    member, which [matCache[type]] finds before anything is built. *)
Inductive material :=
| PerFace (faces : list standard_material)
| Uniform (m : standard_material)
| Inherited (name : str).

(** [matCache]: its own properties, in insertion order. *)
Definition cache := list (str * material).

Fixpoint own_material (c : cache) (k : str) : option material :=
  match c with
  | [] => None
  | (k', m) :: c' => if str_eq_dec k' k then Some m else own_material c' k
  end.

(** [matCache[type]], when it is truthy. *)
Definition cache_get (c : cache) (type : str) : option material :=
  match own_material c type with
  | Some m => Some m
  | None => if inherited type then Some (Inherited type) else None
  end.

(** [matCache[type] = mat] *)
Fixpoint cache_set (c : cache) (type : str) (mat : material) : cache :=
  match c with
  | [] => [(type, mat)]
  | (k, m) :: c' =>
      if str_eq_dec k type then (k, mat) :: c' else (k, m) :: cache_set c' type mat
  end.

(** The globals that [getBlockMaterial] reads and writes. *)
Record gfx := Gfx {
  matCache : cache;
  canvases : nat
}.

(** [[
function getBlockMaterial(type) {
    if (matCache[type]) return matCache[type];
    let mat;
    if (type === 'grass') { ... mat = [side, side, top, bottom, side, side]; }
    else if (type === 'log_oak' || type === 'cherry_log') {
        ... mat = [side, side, top, top, side, side]; }
    else { const tex = createBlockTexture(type); ... }
    matCache[type] = mat;
    return mat;
}
]] *)
Definition getBlockMaterial (type : str) (g : gfx) : material * gfx :=
  match cache_get (matCache g) type with
  | Some m => (m, g)
  | None =>
      let n := canvases g in
      let '(mat, n') :=
        if strict_eq type (lit "grass") then
          let '(t_top, n1) := createBlockTexture (lit "grass") SideTop n in
          let '(t_side, n2) := createBlockTexture (lit "grass") SideSide n1 in
          let '(t_bottom, n3) := createBlockTexture (lit "grass") SideBottom n2 in
          let top := opaque t_top in
          let side := opaque t_side in
          let bottom := opaque t_bottom in
          (PerFace [side; side; top; bottom; side; side], n3)
        else if strict_eq type (lit "log_oak") || strict_eq type (lit "cherry_log") then
          let '(t_top, n1) := createBlockTexture type SideTop n in
          let '(t_side, n2) := createBlockTexture type SideSide n1 in
          let top := opaque t_top in
          let side := opaque t_side in
          (PerFace [side; side; top; top; side; side], n2)
        else
          let '(tex, n1) := createBlockTexture type SideAll n in
          let transparent := strict_eq type (lit "glass") || includes (lit "leaves") type in
          (Uniform (MeshStandardMaterial tex transparent
                      (if strict_eq type (lit "glass") then 0.4%float else 1%float)
                      (if includes (lit "leaves") type then 0.5%float else 0%float)),
           n1)
      in
      (mat, Gfx (cache_set (matCache g) type mat) n')
  end.

(** [new THREE.Mesh(geo, mat)] at [mesh.position.set(v.x, v.y, v.z)] *)
Record mesh := Mesh {
  mesh_material : material;
  mesh_position : Z * Z * Z
}.

(** The mesh part of the body of [voxels.forEach(v => { ... })] in [init]:
[[
const mat = getBlockMaterial(v.type);
const mesh = new THREE.Mesh(geo, mat);
mesh.position.set(v.x, v.y, v.z);
root.add(mesh);
]] *)
Definition add_mesh (acc : list mesh * gfx) (v : voxel) : list mesh * gfx :=
  let '(mat, g') := getBlockMaterial (vtype v) (snd acc) in
  (fst acc ++ [Mesh mat (vx v, vy v, vz v)], g').

(** The children of [root] after the loop, and the globals. *)
Definition build_meshes (vs : list voxel) (g : gfx) : list mesh * gfx :=
  fold_left add_mesh vs ([], g).

(** The palette that [AI_INSTRUCTION] tells the generator to use. *)
Definition palette : list str :=
  [lit "planks_oak"; lit "log_oak"; lit "cherry_planks"; lit "cherry_log";
   lit "stone"; lit "cobblestone"; lit "brick"; lit "obsidian"; lit "bedrock";
   lit "wool_white"; lit "wool_orange"; lit "wool_red"; lit "wool_black";
   lit "gold"; lit "iron"; lit "diamond";
   lit "grass"; lit "dirt"; lit "leaves"; lit "cherry_leaves"; lit "sand";
   lit "water"; lit "glass"].

End Materials.

(* ================================================================== *)
(** ** src/services/gemini.ts: pictures in, code out *)
(* ================================================================== *)

Module Gemini.

Import Template.

(** [s.split(',')]: the pieces between the commas; never an empty array. *)
Fixpoint split_comma (s : str) : list str :=
  match s with
  | [] => [[]]
  | c :: t =>
      if ascii_dec c ","%char then [] :: split_comma t
      else match split_comma t with
           | piece :: pieces => (c :: piece) :: pieces
           | [] => [[c]]
           end
  end.

(** [const base64Data = imageBase64.split(',')[1] || imageBase64;] *)
Definition base64Data (imageBase64 : str) : str :=
  match nth_error (split_comma imageBase64) 1 with
  | Some (c :: piece) => c :: piece
  | _ => imageBase64
  end.

(** What [.] does not match, of the characters that a [str] holds: the line
    feed and the carriage return. *)
Definition is_line_terminator (c : ascii) : bool :=
  if ascii_dec c "010"%char then true
  else if ascii_dec c "013"%char then true else false.

(** [(.*?)] followed by the literal [p]: the shortest run of characters
    other than line terminators after which [p] stands; the run is the
    capture. *)
Fixpoint dot_lazy_until (p s : str) : option str :=
  if starts_with p s then Some []
  else match s with
       | [] => None
       | c :: t =>
           if is_line_terminator c then None
           else match dot_lazy_until p t with
                | Some m => Some (c :: m)
                | None => None
                end
       end.

(** [imageBase64.match(/^data:(.*?);base64,/)], its first group. *)
Definition mimeMatch (imageBase64 : str) : option str :=
  if starts_with (lit "data:") imageBase64
  then dot_lazy_until (lit ";base64,") (skipn 5 imageBase64)
  else None.

(** [const mimeType = mimeMatch ? mimeMatch[1] : 'image/jpeg';] *)
Definition mimeType_of (imageBase64 : str) : str :=
  match mimeMatch imageBase64 with
  | Some m => m
  | None => lit "image/jpeg"
  end.

(** [part.inlineData.mimeType || 'image/png'] *)
Definition or_png (mimeType : jsarg) : str :=
  match mimeType with
  | JString (c :: s) => c :: s
  | _ => lit "image/png"
  end.

(** What [generateImage] returns for a part with inline data:
    [`data:${mimeType};base64,${base64ImageBytes}`] *)
Definition image_url (mimeType : jsarg) (base64ImageBytes : str) : str :=
  lit "data:" ++ or_png mimeType ++ lit ";base64," ++ base64ImageBytes.

(** [[
const cleanCode = aiCode.replace(/```javascript/g, '').replace(/```/g, '');
]] *)
Definition cleanCode (aiCode : str) : str :=
  replace_all false (Chars (lit "```")) (fun _ => [])
    (replace_all false (Chars (lit "```javascript")) (fun _ => []) aiCode).

End Gemini.

(* ================================================================== *)
(** ** More on the helpers of html.ts *)
(* ================================================================== *)

Module HtmlMore.

Import Html HtmlProofs.

(** *** Trimming *)

(** Trimming cuts a piece out of the text. *)
Lemma trim_part s : exists a b, s = a ++ trim s ++ b.
Proof. destruct (trim_spec s) as (a & b & E & _). now exists a, b. Qed.

(** *** What [extractHtmlFromText] returns *)

(** [r] is a contiguous part of [s]. *)
Definition part_of (r s : str) : Prop := exists a b, s = a ++ r ++ b.

Lemma part_of_trans r s t : part_of r s -> part_of s t -> part_of r t.
Proof.
  intros (a & b & ->) (a' & b' & ->). exists (a' ++ a), (b ++ b').
  now rewrite <- !app_assoc.
Qed.

Lemma has_document_part r s : part_of r s -> has_document r -> has_document s.
Proof.
  intros (a & b & ->) (pre & o & mid & c & post & -> & O & C).
  exists (a ++ pre), o, mid, c, (post ++ b). split; [|auto].
  now rewrite <- !app_assoc.
Qed.

Lemma has_code_block_part r s : part_of r s -> has_code_block r -> has_code_block s.
Proof.
  intros (a & b & ->) (pre & mid & post & ->).
  exists (a ++ pre), mid, (post ++ b). now rewrite <- !app_assoc.
Qed.

Lemma matches_code_block mid :
  exists caps, matches false code_block_re (fence ++ mid ++ fence) [] caps.
Proof.
  exists ([] ++ [mid]). simpl.
  exists fence, (mid ++ fence), []. split; [reflexivity|]. split; [now split|].
  exists [], (mid ++ fence), []. split; [reflexivity|]. split; [now left|].
  exists [], (mid ++ fence), []. split; [reflexivity|]. split; [now split|].
  exists mid, fence, ([] ++ [mid]). split; [reflexivity|]. split.
  - exists []. split; [|reflexivity]. split; [|reflexivity].
    apply Forall_forall. reflexivity.
  - now split.
Qed.

Lemma exec_code_none text : exec false code_block_re text = None -> ~ has_code_block text.
Proof.
  intros X (pre & mid & post & E).
  destruct (matches_code_block mid) as [caps M].
  apply (exec_none _ _ _ X pre (fence ++ mid ++ fence) post caps); [|exact M].
  rewrite E. now rewrite <- !app_assoc.
Qed.

Lemma exec_code_some text m :
  exec false code_block_re text = Some m -> has_code_block text.
Proof.
  intros X. destruct (exec_sound _ _ _ _ X) as (S & M & _).
  simpl in M. unfold same_text in M.
  destruct M as (m1 & t1 & c1 & E1 & [-> _] & m2 & t2 & c2 & -> & _ &
                 m3 & t3 & c3 & -> & _ & m4 & t4 & c4 & -> & _ & -> & _).
  exists (before m), (m2 ++ m3 ++ m4), (after m).
  rewrite S at 1. rewrite E1. now rewrite <- !app_assoc.
Qed.

(** The three outcomes of the search, read off the two patterns. *)
Lemma extract_cases text :
  (exists pre d post caps,
     exec true html_re text = Some (RMatch pre d caps post) /\
     text = pre ++ d ++ post /\ document d /\ extractHtmlFromText text = d) \/
  (exists pre b body post,
     ~ has_document text /\ text = pre ++ b ++ post /\ code_block b body /\
     extractHtmlFromText text = trim body) \/
  (~ has_document text /\ ~ has_code_block text /\
   extractHtmlFromText text = trim text).
Proof.
  rewrite extract_unfold.
  destruct (exec true html_re text) as [m|] eqn:X.
  - left. destruct (exec_sound _ _ _ _ X) as (S & _ & Hm & _).
    destruct (match_here_html_inv _ _ _ Hm) as (d & Ed & D).
    apply app_inv_tail in Ed. destruct m as [pre mt caps post]. simpl in *. subst mt.
    exists pre, d, post, caps. auto.
  - right. pose proof (exec_html_none _ X) as N.
    destruct (exec false code_block_re text) as [m|] eqn:Y.
    + left. destruct (exec_code_block _ (exec_code_some _ _ Y))
        as (pre & b & body & post & E & B & F & Z).
      rewrite Y in Z. injection Z as ->.
      exists pre, b, body, post. repeat split; auto. apply trim_trimStart.
    + right. pose proof (exec_code_none _ Y). auto.
Qed.

Lemma code_block_body_part b body : code_block b body -> part_of body b.
Proof.
  intros (tag & -> & _). exists (fence ++ tag), fence. now rewrite <- !app_assoc.
Qed.

(** X1. The result is always a contiguous part of the input: nothing is
    added to it and nothing inside it is changed. *)
Theorem extract_returns_part_of_input :
  forall text, part_of (extractHtmlFromText text) text.
Proof.
  intros text.
  destruct (extract_cases text)
    as [(pre & d & post & caps & _ & E & _ & ->)
       |[(pre & b & body & post & _ & E & B & ->)|(_ & _ & ->)]].
  - now exists pre, post.
  - apply (part_of_trans _ body); [apply trim_part|].
    apply (part_of_trans _ b); [now apply code_block_body_part|].
    now exists pre, post.
  - apply trim_part.
Qed.

Lemma lower_lt_not_space a : lower_char a = "<"%char -> is_space a = false.
Proof. destruct a as [[] [] [] [] [] [] [] []]; vm_compute; congruence. Qed.

Lemma lower_gt_not_space a : lower_char a = ">"%char -> is_space a = false.
Proof. destruct a as [[] [] [] [] [] [] [] []]; vm_compute; congruence. Qed.

Lemma document_trimmed d : document d -> trimmed d.
Proof.
  intros (o & mid & c & -> & O & C & _). split.
  - destruct o as [|a o]; [destruct O as [O|O]; discriminate|].
    simpl. apply lower_lt_not_space. destruct O as [O|O]; now injection O.
  - rewrite !rev_app_distr. unfold closes in C.
    assert (L : exists c' z, c = c' ++ [z] /\ lower_char z = ">"%char).
    { do 7 (destruct c as [|? c]; try discriminate). destruct c; [|discriminate].
      injection C as _ _ _ _ _ _ Z. eexists [_; _; _; _; _; _], _.
      split; [reflexivity|exact Z]. }
    destruct L as (c' & z & -> & Z). rewrite rev_app_distr. simpl.
    now apply lower_gt_not_space.
Qed.

(** X2. The result never starts or ends with white space. *)
Theorem extract_result_is_trimmed :
  forall text, trimmed (extractHtmlFromText text) /\
               trim (extractHtmlFromText text) = extractHtmlFromText text.
Proof.
  intros text.
  assert (T : trimmed (extractHtmlFromText text)).
  { destruct (extract_cases text)
      as [(pre & d & post & caps & _ & E & D & ->)
         |[(pre & b & body & post & _ & E & B & ->)|(_ & _ & ->)]].
    - now apply document_trimmed.
    - apply trim_trimmed.
    - apply trim_trimmed. }
  split; [exact T|now apply trimmed_fixed].
Qed.

Lemma fence_in_part r s i :
  part_of r s -> fence_at r i = true ->
  exists j, fence_at s j = true /\ (j + 3 <= List.length s)%nat.
Proof.
  intros (a & b & ->) H. pose proof (fence_at_split _ _ H) as E.
  exists (List.length a + i)%nat. split.
  - rewrite fence_at_shift. unfold fence_at in *.
    rewrite skipn_app. now apply starts_with_prefix.
  - apply (f_equal (@List.length ascii)) in E.
    rewrite !length_app, length_firstn in E. simpl in E.
    rewrite !length_app. lia.
Qed.

Lemma code_block_body_no_block body b : code_block b body -> ~ has_code_block (trim body).
Proof.
  intros (tag & _ & _ & F) (pre & mid & post & E).
  assert (A : fence_at (trim body) (List.length pre) = true)
    by (rewrite E; apply fence_at_middle).
  destruct (fence_in_part _ _ _ (trim_part body) A) as (j & Fj & Lj).
  assert (X : fence_at (body ++ fence) j = true).
  { unfold fence_at in *. rewrite skipn_app. now apply starts_with_prefix. }
  rewrite F in X by lia. discriminate.
Qed.

(** X3. Extracting from an extracted text returns it unchanged. *)
Theorem extract_idempotent :
  forall text,
    extractHtmlFromText (extractHtmlFromText text) = extractHtmlFromText text.
Proof.
  intros text.
  destruct (extract_cases text)
    as [(pre & d & post & caps & _ & E & D & ->)
       |[(pre & b & body & post & N & E & B & ->)|(N & N' & ->)]].
  - destruct (exec_first_document [] d [] D) as [k X].
    { intros i Hi. simpl in Hi. lia. }
    simpl in X. rewrite app_nil_r in X. now rewrite extract_unfold, X.
  - assert (P : part_of (trim body) text).
    { apply (part_of_trans _ body); [apply trim_part|].
      apply (part_of_trans _ b); [now apply code_block_body_part|].
      now exists pre, post. }
    rewrite extract_unfold, exec_no_document, exec_no_code_block.
    + apply trim_idempotent.
    + eapply code_block_body_no_block, B.
    + intros H. apply N. eapply has_document_part; eassumption.
  - rewrite extract_unfold, exec_no_document, exec_no_code_block.
    + apply trim_idempotent.
    + intros H. apply N'. eapply has_code_block_part; [apply trim_part|exact H].
    + intros H. apply N. eapply has_document_part; [apply trim_part|exact H].
Qed.

(** *** The style block is only ever inserted *)

Lemma inject_keeps_document tag html n :
  tag_at tag html n = true ->
  exists old,
    html = firstn n html ++ old ++ skipn (n + List.length tag) html /\
    toLowerCase old = tag.
Proof.
  intros H. exists (firstn (List.length tag) (skipn n html)). split.
  - rewrite <- (firstn_skipn n html) at 1. f_equal.
    rewrite <- (firstn_skipn (List.length tag) (skipn n html)) at 1. f_equal.
    rewrite skipn_skipn. f_equal. lia.
  - unfold tag_at in H. apply starts_with_split in H.
    unfold toLowerCase in *. rewrite <- firstn_map, H.
    rewrite firstn_app, firstn_all, Nat.sub_diag. simpl. apply app_nil_r.
Qed.

(** X4. [hideBodyText] removes nothing from the document and moves nothing:
    the output is the input with the style block put in at one place, the
    closing tag after that place being written in lower case. *)
Theorem hideBodyText_only_inserts :
  forall html,
    exists pre old post,
      html = pre ++ old ++ post /\
      hideBodyText html = pre ++ cssToInject ++ toLowerCase old ++ post /\
      (toLowerCase old = head_close \/ toLowerCase old = body_close \/
       (old = [] /\ post = [])) /\
      List.length (hideBodyText html) = (List.length html + 768)%nat.
Proof.
  intros html.
  assert (G : exists pre old post,
      html = pre ++ old ++ post /\
      hideBodyText html = pre ++ cssToInject ++ toLowerCase old ++ post /\
      (toLowerCase old = head_close \/ toLowerCase old = body_close \/
       (old = [] /\ post = []))).
  { rewrite hideBodyText_cases.
    destruct (includes head_close (toLowerCase html)) eqn:H1.
    - apply includes_contains in H1.
      destruct (inject_before_first_tag head_close eq_refl ltac:(discriminate) eq_refl
                  ltac:(vm_compute; intuition discriminate) html H1)
        as (n & [A _] & B & _).
      destruct (inject_keeps_document _ _ _ A) as (old & E & L).
      exists (firstn n html), old, (skipn (n + List.length head_close) html).
      rewrite L. auto.
    - destruct (includes body_close (toLowerCase html)) eqn:H2.
      + apply includes_contains in H2.
        destruct (inject_before_first_tag body_close eq_refl ltac:(discriminate) eq_refl
                    ltac:(vm_compute; intuition discriminate) html H2)
          as (n & [A _] & B & _).
        destruct (inject_keeps_document _ _ _ A) as (old & E & L).
        exists (firstn n html), old, (skipn (n + List.length body_close) html).
        rewrite L. auto.
      + exists html, [], []. split; [now rewrite app_nil_r|].
        split; [|right; right; auto].
        change (toLowerCase []) with (@nil ascii). now rewrite !app_nil_r. }
  destruct G as (pre & old & post & E & R & C).
  exists pre, old, post. repeat split; auto.
  rewrite R, E, !length_app. unfold toLowerCase. rewrite length_map.
  change (List.length cssToInject) with 768%nat. lia.
Qed.

End HtmlMore.

(* ================================================================== *)
(** ** More on the script of VOXEL_TEMPLATE *)
(* ================================================================== *)

Module TemplateMore.

Import Template TemplateProofs.

(** *** The types that [addBlock] stores *)

(** A type as [addBlock] stores it: not empty, without a space and without
    a capital letter. *)
Definition normalised (t : str) : Prop :=
  t <> [] /\ Forall (fun c => c <> " "%char /\ is_capital c = false) t.

Definition all_normalised (vs : list voxel) : Prop :=
  Forall (fun v => normalised (vtype v)) vs.

Lemma lower_char_small c : is_capital (lower_char c) = false.
Proof. destruct c as [[] [] [] [] [] [] [] []]; reflexivity. Qed.

Lemma stored_type_normalised type :
  normalised (replace_spaces (toLowerCase (or_stone type))).
Proof.
  assert (N : or_stone type <> []) by (destruct type as [| |[|c s]]; discriminate).
  split.
  - destruct (or_stone type); [congruence|discriminate].
  - unfold replace_spaces, toLowerCase. rewrite map_map. apply Forall_map.
    apply Forall_forall. intros c _.
    destruct (ascii_dec (lower_char c) " ") as [E|E].
    + split; [discriminate|reflexivity].
    + split; [exact E|apply lower_char_small].
Qed.

Lemma addBlock_normalised x y z type vs :
  all_normalised vs -> all_normalised (addBlock x y z type vs).
Proof.
  intros H. unfold addBlock. apply Forall_app. split; [exact H|].
  constructor; [apply stored_type_normalised|constructor].
Qed.

Lemma create_fallback_normalised : all_normalised (create_fallback []).
Proof.
  unfold create_fallback.
  repeat first [apply addBlock_normalised | constructor].
Qed.

Definition small_name (t : str) : bool :=
  forallb (fun c => negb (is_capital c)) t.

Lemma normalised_small_name t : normalised t -> small_name t = true.
Proof.
  intros [_ F]. apply forallb_forall. rewrite Forall_forall in F.
  intros c Hc. destruct (F c Hc) as [_ E]. now rewrite E.
Qed.

(** X5. The type of the voxel that [addBlock] appends is not empty and has
    no space and no capital letter, whatever the argument; of the names a
    plain object inherits, only [constructor] and [__proto__] can therefore
    be the type of a voxel that [addBlock] has stored. The voxels of the
    fallback platform are stored by [addBlock] and have such types. *)
Theorem addBlock_types_are_normalised :
  (forall x y z type vs, exists t,
      addBlock x y z type vs = vs ++ [Voxel x y z t] /\
      normalised t /\
      (In t Materials.Object_prototype_names ->
       t = lit "constructor" \/ t = lit "__proto__")) /\
  (forall v, In v (create_fallback []) -> normalised (vtype v)).
Proof.
  split.
  - intros x y z type vs.
    exists (replace_spaces (toLowerCase (or_stone type))).
    split; [reflexivity|].
    pose proof (stored_type_normalised type) as A. split; [exact A|].
    apply normalised_small_name in A. intros I.
    unfold Materials.Object_prototype_names in I. cbn [In] in I.
    repeat match type of I with
           | _ \/ _ => destruct I as [I|I]
           end;
      try (rewrite <- I in A; vm_compute in A; discriminate A);
      try (left; symmetry; exact I); try (right; symmetry; exact I); try contradiction.
  - pose proof create_fallback_normalised as A. unfold all_normalised in A.
    rewrite Forall_forall in A. exact A.
Qed.

(** *** The two lists of the build guide agree *)

Lemma count_in_total_counts vs t :
  (forall v, In v vs -> plain (vtype v)) ->
  count_in (total_counts vs) t = count_type t vs.
Proof.
  intros H. destruct (total_counts_plain vs H) as [_ E].
  unfold count_in. rewrite E. destruct (count_type t vs); reflexivity.
Qed.

Lemma count_type_cons t v vs :
  count_type t (v :: vs) = ((if str_eq_dec (vtype v) t then 1 else 0) + count_type t vs)%nat.
Proof.
  unfold count_type. simpl. destruct (str_eq_dec (vtype v) t); reflexivity.
Qed.

Lemma at_level_cons y v vs :
  at_level y (v :: vs) = if Z.eq_dec (vy v) y then v :: at_level y vs else at_level y vs.
Proof.
  unfold at_level. simpl. destruct (Z.eq_dec (vy v) y) as [->|H].
  - now rewrite Z.eqb_refl.
  - apply Z.eqb_neq in H. now rewrite H.
Qed.

Lemma list_sum_cons x l : list_sum (x :: l) = (x + list_sum l)%nat.
Proof. reflexivity. Qed.

Lemma sum_one_level (a : Z) (k : nat) : forall ys,
  NoDup ys ->
  list_sum (map (fun y => if Z.eq_dec a y then k else 0%nat) ys) =
  if in_dec Z.eq_dec a ys then k else 0%nat.
Proof.
  induction 1 as [|y ys Hn N IH]; [reflexivity|].
  rewrite map_cons, list_sum_cons, IH.
  destruct (Z.eq_dec a y) as [->|Hy].
  - destruct (in_dec Z.eq_dec y ys); [contradiction|].
    destruct (in_dec Z.eq_dec y (y :: ys)) as [_|X]; [lia|].
    exfalso. apply X. now left.
  - destruct (in_dec Z.eq_dec a ys) as [I|I];
      destruct (in_dec Z.eq_dec a (y :: ys)) as [J|J]; try reflexivity.
    + exfalso. apply J. now right.
    + destruct J as [J|J]; [congruence|contradiction].
Qed.

(** The voxels of a type, level by level. *)
Lemma count_type_by_level t ys : forall vs,
  NoDup ys -> (forall v, In v vs -> In (vy v) ys) ->
  list_sum (map (fun y => count_type t (at_level y vs)) ys) = count_type t vs.
Proof.
  intros vs N. induction vs as [|v vs IH]; intros H.
  - clear. induction ys; [reflexivity|exact IHys].
  - rewrite count_type_cons, <- IH by (intros w Hw; apply H; now right).
    set (k := if str_eq_dec (vtype v) t then 1%nat else 0%nat).
    assert (E : forall y, count_type t (at_level y (v :: vs)) =
                ((if Z.eq_dec (vy v) y then k else 0) + count_type t (at_level y vs))%nat).
    { intros y. rewrite at_level_cons. destruct (Z.eq_dec (vy v) y); [|reflexivity].
      apply count_type_cons. }
    rewrite (map_ext _ _ E).
    assert (S : forall (f g : Z -> nat) l,
               list_sum (map (fun y => (f y + g y)%nat) l) =
               (list_sum (map f l) + list_sum (map g l))%nat).
    { intros f g l. induction l as [|a l IHl]; [reflexivity|].
      rewrite !map_cons, !list_sum_cons, IHl. lia. }
    rewrite S, (sum_one_level (vy v) k ys N).
    destruct (in_dec Z.eq_dec (vy v) ys) as [_|X]; [reflexivity|].
    exfalso. apply X, H. now left.
Qed.

Lemma strictly_sorted_NoDup l : StronglySorted Z.lt l -> NoDup l.
Proof.
  induction 1 as [|h t S IH F]; constructor; [|exact IH].
  intros I. rewrite Forall_forall in F. specialize (F h I). lia.
Qed.

(** X8. For types that are no member of [Object.prototype], the two lists
    of the build guide agree: the number that the summary shows for a type
    is the number of voxels of that type, and it is the sum of the numbers
    that the layers show for it. *)
Theorem build_guide_layers_add_up :
  forall vs,
    (forall v, In v vs -> plain (vtype v)) ->
    forall t,
      count_in (list_summary (generateRecipeBook vs)) t = count_type t vs /\
      list_sum (map (fun g => count_in (layer_rows g) t)
                    (list_layers (generateRecipeBook vs))) = count_type t vs.
Proof.
  intros vs P t. split; [now apply count_in_total_counts|].
  destruct (layer_guide_spec vs) as (S & I & _ & R).
  set (groups := list_layers (generateRecipeBook vs)) in *.
  rewrite <- (count_type_by_level t (map layer_y groups) vs).
  - rewrite map_map. f_equal. apply map_ext_in. intros g Hg.
    rewrite (R g Hg). apply count_in_total_counts.
    intros v Hv. apply P. unfold at_level in Hv. apply filter_In in Hv. tauto.
  - now apply strictly_sorted_NoDup.
  - intros v Hv. apply I, in_map, Hv.
Qed.

Lemma build_guide_layers_add_up_witness :
  count_in (list_summary (generateRecipeBook example_voxels)) (lit "stone") =
    count_type (lit "stone") example_voxels /\
  list_sum (map (fun g => count_in (layer_rows g) (lit "stone"))
                (list_layers (generateRecipeBook example_voxels))) =
    count_type (lit "stone") example_voxels.
Proof.
  apply (build_guide_layers_add_up example_voxels).
  intros v [<-|[<-|[<-|[]]]]; split; discriminate.
Defined.

End TemplateMore.

(* ================================================================== *)
(** ** Properties of the textures and materials *)
(* ================================================================== *)

Module MaterialsProofs.

Import Template Materials.

Local Open Scope nat_scope.

(** The canvases that a type costs when its material is built. *)
Definition textures_for (type : str) : nat :=
  if strict_eq type (lit "grass") then 3
  else if strict_eq type (lit "log_oak") || strict_eq type (lit "cherry_log") then 2
  else 1.

Definition cached (g : gfx) (type : str) : option material :=
  cache_get (matCache g) type.

Lemma own_material_set c k m k' :
  own_material (cache_set c k m) k' =
  if str_eq_dec k k' then Some m else own_material c k'.
Proof.
  induction c as [|[k0 m0] c IH]; simpl.
  - destruct (str_eq_dec k k'); reflexivity.
  - destruct (str_eq_dec k0 k) as [->|Hk]; simpl.
    + destruct (str_eq_dec k k'); reflexivity.
    + destruct (str_eq_dec k0 k') as [->|Hk'].
      * destruct (str_eq_dec k k'); [congruence|reflexivity].
      * exact IH.
Qed.

Lemma cache_get_set c k m k' :
  cache_get (cache_set c k m) k' =
  if str_eq_dec k k' then Some m else cache_get c k'.
Proof.
  unfold cache_get. rewrite own_material_set.
  destruct (str_eq_dec k k'); reflexivity.
Qed.

(** One request: the material is in the cache afterwards, what was cached
    stays, and canvases are made only when the type was not cached. *)
Lemma getBlockMaterial_spec type g :
  let m := fst (getBlockMaterial type g) in
  let g' := snd (getBlockMaterial type g) in
  (forall t, cached g' t = if str_eq_dec type t then Some m else cached g t) /\
  (forall m0, cached g type = Some m0 -> m = m0) /\
  canvases g' =
    (canvases g + match cached g type with Some _ => 0 | None => textures_for type end)%nat.
Proof.
  unfold getBlockMaterial, cached, textures_for.
  destruct (cache_get (matCache g) type) as [m0|] eqn:E; cbn [fst snd].
  - split; [|split; [congruence|lia]].
    intros t. destruct (str_eq_dec type t) as [<-|]; [exact E|reflexivity].
  - destruct (strict_eq type (lit "grass"));
      [|destruct (strict_eq type (lit "log_oak") || strict_eq type (lit "cherry_log"))];
      cbn [createBlockTexture fst snd matCache canvases];
      (split; [intros t; apply cache_get_set|split; [discriminate|lia]]).
Qed.

Lemma getBlockMaterial_keeps type g t m :
  cached g t = Some m -> cached (snd (getBlockMaterial type g)) t = Some m.
Proof.
  intros H. destruct (getBlockMaterial_spec type g) as (A & B & _).
  rewrite A. destruct (str_eq_dec type t) as [<-|]; [|exact H].
  now rewrite (B _ H).
Qed.

Lemma getBlockMaterial_cached type g :
  cached (snd (getBlockMaterial type g)) type = Some (fst (getBlockMaterial type g)).
Proof.
  destruct (getBlockMaterial_spec type g) as (A & _). rewrite A.
  destruct (str_eq_dec type type); [reflexivity|congruence].
Qed.

Lemma add_mesh_unfold acc g v :
  add_mesh (acc, g) v =
  (acc ++ [Mesh (fst (getBlockMaterial (vtype v) g)) (vx v, vy v, vz v)],
   snd (getBlockMaterial (vtype v) g)).
Proof. unfold add_mesh. cbn [fst snd]. now destruct (getBlockMaterial (vtype v) g). Qed.

(** The loop, from any state and with any meshes already there. *)
Lemma fold_add_mesh vs : forall acc g,
  exists new,
    fst (fold_left add_mesh vs (acc, g)) = acc ++ new /\
    map mesh_position new = map (fun v => (vx v, vy v, vz v)) vs /\
    (forall t m, cached g t = Some m ->
       cached (snd (fold_left add_mesh vs (acc, g))) t = Some m) /\
    (forall i v m, nth_error vs i = Some v -> nth_error new i = Some m ->
       cached (snd (fold_left add_mesh vs (acc, g))) (vtype v) = Some (mesh_material m)).
Proof.
  induction vs as [|v vs IH]; intros acc g.
  - exists []. cbn. rewrite app_nil_r. repeat split; auto.
    intros [|i] w m; discriminate.
  - cbn [fold_left]. rewrite add_mesh_unfold.
    set (mat := fst (getBlockMaterial (vtype v) g)).
    set (g1 := snd (getBlockMaterial (vtype v) g)).
    destruct (IH (acc ++ [Mesh mat (vx v, vy v, vz v)]) g1) as (new & E1 & E2 & E3 & E4).
    exists (Mesh mat (vx v, vy v, vz v) :: new). split; [|split; [|split]].
    + rewrite E1, <- app_assoc. reflexivity.
    + cbn [map mesh_position]. now rewrite E2.
    + intros t m H. apply E3. now apply getBlockMaterial_keeps.
    + intros [|i] w m Hw Hm.
      * injection Hw as <-. injection Hm as <-. cbn [mesh_material].
        apply E3. apply getBlockMaterial_cached.
      * now apply (E4 i).
Qed.

(** X10. The loop of [init] makes one mesh per voxel, at the voxel's
    position, and voxels of the same type get the very same material (the
    same canvases), whatever was cached before. *)
Theorem voxels_of_a_type_share_one_material :
  forall vs g,
    let meshes := fst (build_meshes vs g) in
    map mesh_position meshes = map (fun v => (vx v, vy v, vz v)) vs /\
    forall i j vi vj mi mj,
      nth_error vs i = Some vi -> nth_error vs j = Some vj ->
      nth_error meshes i = Some mi -> nth_error meshes j = Some mj ->
      vtype vi = vtype vj -> mesh_material mi = mesh_material mj.
Proof.
  intros vs g. cbn zeta. unfold build_meshes.
  destruct (fold_add_mesh vs [] g) as (new & E1 & E2 & _ & E4).
  cbn [app] in E1. rewrite E1. split; [exact E2|].
  intros i j vi vj mi mj Hi Hj Mi Mj T.
  pose proof (E4 i vi mi Hi Mi) as A. pose proof (E4 j vj mj Hj Mj) as B.
  rewrite T in A. congruence.
Qed.

(** The canvases that the types of [ts] cost from state [g]. *)
Definition cost (g : gfx) (ts : list str) : nat :=
  list_sum (map (fun t => match cached g t with Some _ => 0 | None => textures_for t end) ts).

Lemma cost_cons g t ts :
  cost g (t :: ts) =
  (match cached g t with Some _ => 0 | None => textures_for t end + cost g ts)%nat.
Proof. reflexivity. Qed.

(** Once [type] is cached it costs nothing more; the other types cost what
    they did. *)
Lemma cost_after type g : forall ts,
  NoDup ts -> cached g type = None ->
  cost g ts =
  (cost (snd (getBlockMaterial type g)) ts +
   if in_dec str_eq_dec type ts then textures_for type else 0)%nat.
Proof.
  intros ts N H. destruct (getBlockMaterial_spec type g) as (A & _).
  induction N as [|t ts Hn N IH]; [reflexivity|].
  rewrite !cost_cons, IH, A.
  destruct (str_eq_dec type t) as [<-|Ht].
  - rewrite H. destruct (in_dec str_eq_dec type ts); [contradiction|].
    destruct (in_dec str_eq_dec type (type :: ts)) as [_|X]; [lia|].
    exfalso. apply X. now left.
  - destruct (in_dec str_eq_dec type ts) as [I|I];
      destruct (in_dec str_eq_dec type (t :: ts)) as [J|J]; try lia.
    + exfalso. apply J. now right.
    + destruct J as [J|J]; [congruence|contradiction].
Qed.

Lemma cost_hit type g ts :
  cached g type <> None -> cost (snd (getBlockMaterial type g)) ts = cost g ts.
Proof.
  intros H. unfold getBlockMaterial. fold (cached g type).
  destruct (cached g type); [reflexivity|congruence].
Qed.

Lemma fold_add_mesh_canvases vs : forall acc g,
  canvases (snd (fold_left add_mesh vs (acc, g))) =
  (canvases g + cost g (nodup str_eq_dec (map vtype vs)))%nat.
Proof.
  induction vs as [|v vs IH]; intros acc g.
  - cbn. unfold cost. cbn. lia.
  - cbn [fold_left]. rewrite add_mesh_unfold, IH.
    destruct (getBlockMaterial_spec (vtype v) g) as (_ & _ & K). rewrite K.
    cbn [map nodup].
    pose proof (NoDup_nodup str_eq_dec (map vtype vs)) as N.
    destruct (cached g (vtype v)) as [m0|] eqn:E.
    + rewrite cost_hit by congruence.
      destruct (in_dec str_eq_dec (vtype v) (map vtype vs)); [lia|].
      rewrite cost_cons, E. lia.
    + destruct (in_dec str_eq_dec (vtype v) (map vtype vs)) as [I|I].
      * rewrite (cost_after (vtype v) g _ N E).
        destruct (in_dec str_eq_dec (vtype v) (nodup str_eq_dec (map vtype vs))) as [_|X]; [lia|].
        exfalso. apply X. now apply nodup_In.
      * rewrite cost_cons, E, (cost_after (vtype v) g _ N E).
        destruct (in_dec str_eq_dec (vtype v) (nodup str_eq_dec (map vtype vs))) as [X|_]; [|lia].
        exfalso. apply I. now apply nodup_In in X.
Qed.

(** X11. The canvases drawn while the voxels are meshed are counted by the
    types, not by the voxels: each type that occurs and is not cached yet
    costs three canvases when it is [grass], two when it is [log_oak] or
    [cherry_log], one otherwise, once. *)
Theorem canvases_are_drawn_once_per_type :
  forall vs g,
    canvases (snd (build_meshes vs g)) =
    (canvases g + cost g (nodup str_eq_dec (map vtype vs)))%nat /\
    (canvases (snd (build_meshes vs g)) <=
     canvases g + 3 * List.length (nodup str_eq_dec (map vtype vs)))%nat.
Proof.
  intros vs g. unfold build_meshes. rewrite fold_add_mesh_canvases. split; [reflexivity|].
  apply Nat.add_le_mono_l.
  induction (nodup str_eq_dec (map vtype vs)) as [|t ts IH]; [cbn; lia|].
  rewrite cost_cons. cbn [List.length].
  assert (textures_for t <= 3)%nat.
  { unfold textures_for. destruct (strict_eq t (lit "grass")); [lia|].
    destruct (strict_eq t (lit "log_oak") || strict_eq t (lit "cherry_log")); lia. }
  destruct (cached g t); lia.
Qed.

(** The first coat is a colour of its own, not the magenta of the last
    branch. *)
Definition has_texture (type : str) (s : side) : bool :=
  match base_coat type s with
  | Pane => true
  | Noise (VString c) _ => negb (strict_eq c (lit "#ff00ff")) && negb (strict_eq c [])
  | Noise _ _ => false
  end.

(** X12. Every block type of the palette that the generator is told to use
    has a texture of its own on every side: none falls through to the
    magenta of an unknown type. A type outside the palette can:
    [wool_blue] is drawn in that magenta. *)
Theorem palette_types_have_textures :
  (forall type s, In type palette -> has_texture type s = true) /\
  has_texture (lit "wool_blue") SideAll = false /\
  base_coat (lit "wool_blue") SideAll = Noise (VString (lit "#ff00ff")) 30.
Proof.
  split; [|split; reflexivity].
  intros type s H. unfold palette in H. cbn [In] in H.
  repeat match type of H with
         | _ \/ _ => destruct H as [H|H]
         end; try contradiction; subst type; destruct s; reflexivity.
Qed.

End MaterialsProofs.

(* ================================================================== *)
(** ** More on the ['message'] listener *)
(* ================================================================== *)

Module EnvironmentMore.

Import Environment.

Local Open Scope float_scope.

(** A sun above the horizon is above [-10] as well, for every binary64
    value of its height (a NaN is neither). *)
Lemma above_horizon_is_day (sy : float) : (0 <? sy) = true -> isDay sy = true.
Proof.
  unfold isDay. rewrite !ltb_spec.
  replace (Prim2SF 0) with (S754_zero false) by reflexivity.
  replace (Prim2SF (-10)) with (S754_finite true 5629499534213120 (-49)) by reflexivity.
  intros H.
  destruct (Prim2SF sy) as [s|s| |s m e]; try destruct s; simpl in *;
    try discriminate; reflexivity.
Qed.

(** X13. After an environment message the light shafts sit at the sun, and
    they show only while the sun is lit: when they are visible the sun has
    its day intensity and the moon is dark, and their opacity is 0.3 times
    the [godrays] of the message; when the moon is lit they are hidden, and
    hidden shafts have opacity 0. *)
Theorem light_shafts_only_by_day :
  forall Math_sin Math_cos sunlight godrays w r ray,
    lights (onMessage Math_sin Math_cos (MsgEnvironment sunlight godrays) w) = Some r ->
    godRayMesh r = Some ray ->
    ray_position ray = position (sunLight r) /\
    (ray_visible ray = true ->
       lit_up (sunLight r) = true /\ lit_up (moonLight r) = false /\
       ray_opacity ray = godrays * 0.3) /\
    (ray_visible ray = false -> ray_opacity ray = 0) /\
    (lit_up (moonLight r) = true -> ray_visible ray = false).
Proof.
  intros Math_sin Math_cos sunlight godrays w r ray. cbn [onMessage].
  destruct (lights w) as [r0|] eqn:E; cbn [lights]; [|rewrite E; discriminate].
  intros [= <-]. unfold set_environment. cbn [godRayMesh sunLight moonLight].
  destruct (godRayMesh r0); [|discriminate]. intros [= <-].
  cbn [ray_position ray_visible ray_opacity position intensity lit_up].
  pose proof (above_horizon_is_day (sun_y Math_sin sunlight)) as D.
  destruct (0 <? sun_y Math_sin sunlight).
  - rewrite (D eq_refl). repeat split; try reflexivity; discriminate.
  - destruct (isDay (sun_y Math_sin sunlight)); repeat split; try reflexivity; discriminate.
Qed.

Lemma light_shafts_only_by_day_witness :
  let w := World (Some (Rig (Light 1.2 (50, 80, 30)) (Light 0.5 (-50, -80, -30))
                            (Some (GodRay (50, 80, 30) true 0)) (Hex 10146815) (Hex 10146815)))
                 DisplayNone in
  let r := set_environment (fun _ => 1) (fun _ => 0) 0.25 0.5
             (Rig (Light 1.2 (50, 80, 30)) (Light 0.5 (-50, -80, -30))
                  (Some (GodRay (50, 80, 30) true 0)) (Hex 10146815) (Hex 10146815)) in
  let ray := GodRay (0 * 120, 1 * 120, 20) true (0.5 * 0.3) in
  ray_position ray = position (sunLight r) /\
  (ray_visible ray = true ->
     lit_up (sunLight r) = true /\ lit_up (moonLight r) = false /\
     ray_opacity ray = 0.5 * 0.3) /\
  (ray_visible ray = false -> ray_opacity ray = 0) /\
  (lit_up (moonLight r) = true -> ray_visible ray = false).
Proof.
  intros w r ray.
  apply (light_shafts_only_by_day (fun _ => 1) (fun _ => 0) 0.25 0.5 w r ray);
    reflexivity.
Defined.

(** *** A run of messages *)







End EnvironmentMore.

(* ================================================================== *)
(** ** Properties of the service functions of gemini.ts *)
(* ================================================================== *)

Module GeminiProofs.

Import Template Gemini Html HtmlProofs.

(** *** Cleaning the model's answer *)


Definition javascript_fence : str := lit "```javascript".

(** Removing every occurrence of a literal. *)
Definition strip (p s : str) : str := replace_all false (Chars p) (fun _ => []) s.

Lemma cleanCode_unfold s : cleanCode s = strip fence (strip javascript_fence s).
Proof. reflexivity. Qed.

Lemma match_here_literal p v :
  match_here false (Chars p) v =
  if starts_with p v then Some (skipn (List.length p) v, []) else None.
Proof.
  unfold match_here. cbn [run]. rewrite match_chars_exact.
  now destruct (starts_with p v).
Qed.

Lemma exec_literal_none p s :
  exec false (Chars p) s = None <-> includes p s = false.
Proof.
  rewrite exec_none_iff. split.
  - intros H. destruct (includes p s) eqn:I; [|reflexivity].
    apply includes_spec in I. destruct I as [i Hi].
    destruct (Nat.le_gt_cases i (List.length s)) as [L|L].
    + specialize (H i L). rewrite match_here_literal, Hi in H. discriminate.
    + specialize (H (List.length s) (Nat.le_refl _)).
      rewrite match_here_literal in H.
      rewrite skipn_all2 in Hi by lia. rewrite skipn_all in H. rewrite Hi in H.
      discriminate.
  - intros H i _. rewrite match_here_literal.
    destruct (starts_with p (skipn i s)) eqn:X; [|reflexivity].
    assert (includes p s = true) by (apply includes_spec; now exists i). congruence.
Qed.

Lemma exec_literal_some p s m :
  exec false (Chars p) s = Some m ->
  s = before m ++ p ++ after m /\ matched m = p /\
  forall i, (i < List.length (before m))%nat -> starts_with p (skipn i s) = false.
Proof.
  intros H. destruct (exec_sound _ _ _ _ H) as (S & [M _] & _ & F).
  simpl in M. rewrite M in S. repeat split; auto.
  intros i Hi. specialize (F i Hi). rewrite match_here_literal in F.
  now destruct (starts_with p (skipn i s)).
Qed.

Lemma strip_none p s : includes p s = false -> strip p s = s.
Proof. intros H. apply replace_all_none. now apply exec_literal_none. Qed.

(** A fence cannot come into being where a fence is taken out: the text
    before the first fence does not end with a backtick that the rest could
    complete. *)
Lemma starts_with_cons a p b v :
  starts_with (a :: p) (b :: v) = if ascii_dec a b then starts_with p v else false.
Proof. reflexivity. Qed.

Lemma fence_chars : fence = ["`"; "`"; "`"]%char.
Proof. reflexivity. Qed.

Lemma fence_gap u x y :
  u <> [] -> starts_with fence (u ++ fence ++ x) = false ->
  starts_with fence (u ++ y) = false.
Proof.
  intros N. destruct u as [|a [|b [|c u]]]; [congruence| | |];
    rewrite fence_chars; cbn [app]; rewrite !starts_with_cons;
    repeat match goal with |- context [ascii_dec ?a ?b] => destruct (ascii_dec a b) end;
    try congruence; intros H; discriminate H.
Qed.

Lemma strip_fence_free : forall n s,
  (List.length s <= n)%nat -> includes fence (strip fence s) = false.
Proof.
  induction n as [|n IH]; intros s L.
  - destruct s; [reflexivity|simpl in L; lia].
  - destruct (exec false (Chars fence) s) as [m|] eqn:E.
    + destruct (exec_literal_some _ _ _ E) as (S & M & F).
      unfold strip. rewrite (replace_all_step _ _ _ _ _ E) by (rewrite M; discriminate).
      fold (strip fence (after m)). cbn [app].
      assert (La : (List.length (after m) <= n)%nat).
      { apply (f_equal (@List.length ascii)) in S. rewrite !length_app in S.
        simpl in S. lia. }
      specialize (IH _ La).
      destruct (includes fence (before m ++ strip fence (after m))) eqn:I; [|reflexivity].
      apply includes_spec in I. destruct I as [i Hi].
      destruct (Nat.lt_ge_cases i (List.length (before m))) as [Li|Li].
      * specialize (F i Li). rewrite S, skipn_app in F. rewrite skipn_app in Hi.
        replace (i - List.length (before m))%nat with 0%nat in * by lia.
        rewrite skipn_O in *.
        assert (Nu : skipn i (before m) <> []).
        { intros X. apply (f_equal (@List.length ascii)) in X.
          rewrite length_skipn in X. simpl in X. lia. }
        rewrite (fence_gap _ _ _ Nu F) in Hi. discriminate.
      * rewrite skipn_app, skipn_all2 in Hi by exact Li. cbn [app] in Hi.
        assert (includes fence (strip fence (after m)) = true).
        { apply includes_spec. exists (i - List.length (before m))%nat. exact Hi. }
        congruence.
    + unfold strip. rewrite replace_all_none by exact E.
      now apply exec_literal_none.
Qed.

(** X15. No code fence is left in the code that goes into the page,
    whatever the model answered. *)
Theorem cleanCode_has_no_fence :
  forall aiCode, includes fence (cleanCode aiCode) = false.
Proof.
  intros aiCode. rewrite cleanCode_unfold. eapply strip_fence_free, Nat.le_refl.
Qed.

Lemma includes_app_false p a b : includes p (a ++ b) = false -> includes p b = false.
Proof.
  intros H. destruct (includes p b) eqn:I; [|reflexivity].
  apply includes_spec in I. destruct I as [i Hi].
  assert (includes p (a ++ b) = true).
  { apply includes_spec. exists (List.length a + i)%nat.
    rewrite skipn_app, skipn_all2 by lia.
    now replace (List.length a + i - List.length a)%nat with i by lia. }
  congruence.
Qed.

Lemma includes_longer p q s : includes p s = false -> includes (p ++ q) s = false.
Proof.
  intros H. destruct (includes (p ++ q) s) eqn:I; [|reflexivity].
  apply includes_spec in I. destruct I as [i Hi].
  assert (includes p s = true).
  { apply includes_spec. exists i. apply starts_with_split in Hi.
    rewrite Hi, <- app_assoc. apply starts_with_app. }
  congruence.
Qed.

Lemma starts_with_length p : forall v,
  starts_with p v = true -> (List.length p <= List.length v)%nat.
Proof.
  induction p as [|a p IH]; intros [|b v] H; simpl in *; try lia; try discriminate.
  destruct (ascii_dec a b); [|discriminate]. apply IH in H. lia.
Qed.

Lemma fence_free_at body i :
  includes fence body = false -> (i + 3 <= List.length body)%nat ->
  fence_at (body ++ fence) i = false.
Proof.
  intros H L. unfold fence_at. rewrite skipn_app.
  replace (i - List.length body)%nat with 0%nat by lia. rewrite skipn_O.
  rewrite starts_with_app_long by (rewrite length_skipn; simpl; lia).
  destruct (starts_with fence (skipn i body)) eqn:X; [|reflexivity].
  assert (includes fence body = true) by (apply includes_spec; eauto). congruence.
Qed.

(** The closing fence after a body without fences. *)
Lemma strip_closing_fence body :
  includes fence body = false -> strip fence (body ++ fence) = body.
Proof.
  intros H.
  assert (A : fence_at (body ++ fence) (List.length body) = true).
  { rewrite <- (app_nil_r fence). apply fence_at_middle. }
  destruct (first_position (fence_at (body ++ fence)) _ A) as (n & Ln & Fn & Hn).
  set (w := skipn n body).
  assert (Lw : (List.length w < 3)%nat).
  { destruct (Nat.lt_ge_cases (List.length w) 3) as [L|L]; [exact L|].
    unfold w in L. rewrite length_skipn in L.
    rewrite fence_free_at in Fn by (auto; lia). discriminate. }
  assert (Eb : body = firstn n body ++ w) by (symmetry; apply firstn_skipn).
  assert (Fw : starts_with fence (w ++ fence) = true).
  { unfold fence_at in Fn. rewrite skipn_app in Fn.
    replace (n - List.length body)%nat with 0%nat in Fn by lia. exact Fn. }
  assert (Sw : skipn 3 (w ++ fence) = w).
  { destruct w as [|a [|b [|c w']]]; [reflexivity| | |simpl in Lw; lia];
      rewrite fence_chars in Fw |- *; cbn [app] in Fw; rewrite !starts_with_cons in Fw;
      repeat match type of Fw with context [ascii_dec ?a ?b] =>
               destruct (ascii_dec a b); [subst|discriminate] end; reflexivity. }
  assert (Ew : w ++ fence = fence ++ w).
  { pose proof (starts_with_split _ _ Fw) as E.
    change (List.length fence) with 3%nat in E. now rewrite Sw in E. }
  assert (X : exec false (Chars fence) (firstn n body ++ fence ++ w) =
              Some (RMatch (firstn n body) fence [] w)).
  { rewrite (exec_first false (Chars fence) (firstn n body) (fence ++ w) w []).
    - now rewrite consumed_app.
    - rewrite match_here_literal, starts_with_app.
      change (List.length fence) with 3%nat. now rewrite <- Ew, Sw.
    - intros i Hi. rewrite match_here_literal.
      rewrite <- Ew, app_assoc, <- Eb.
      assert (Li : (i < n)%nat) by (rewrite length_firstn in Hi; lia).
      specialize (Hn i Li). unfold fence_at in Hn. now rewrite Hn. }
  rewrite Eb at 1. rewrite <- app_assoc, Ew. unfold strip.
  rewrite (replace_all_step _ _ _ _ _ X) by discriminate. cbn [before after app].
  rewrite replace_all_none.
  - now rewrite <- Eb.
  - apply exec_literal_none. rewrite Eb in H. now apply includes_app_false in H.
Qed.

Lemma javascript_fence_split : javascript_fence = fence ++ lit "javascript".
Proof. reflexivity. Qed.

(** X16. Code that has no fence goes into the page as it is, and code that
    the model wrapped in one [```javascript] block goes in without the two
    fences. *)
Theorem cleanCode_unwraps_javascript_block :
  forall code,
    includes fence code = false ->
    cleanCode code = code /\
    cleanCode (javascript_fence ++ code ++ fence) = code.
Proof.
  intros code H. rewrite !cleanCode_unfold.
  assert (J : includes javascript_fence code = false)
    by (rewrite javascript_fence_split; now apply includes_longer).
  split.
  - now rewrite (strip_none _ _ J), (strip_none _ _ H).
  - assert (X : exec false (Chars javascript_fence) (javascript_fence ++ code ++ fence) =
                Some (RMatch [] javascript_fence [] (code ++ fence))).
    { change (javascript_fence ++ code ++ fence)
        with ([] ++ javascript_fence ++ code ++ fence) at 1.
      rewrite (exec_first false (Chars javascript_fence) []
                 (javascript_fence ++ code ++ fence) (code ++ fence) []).
      - now rewrite consumed_app.
      - rewrite match_here_literal, starts_with_app.
        do 2 f_equal.
      - intros i Hi. simpl in Hi. lia. }
    assert (R : strip javascript_fence (javascript_fence ++ code ++ fence) = code ++ fence).
    { unfold strip.
      rewrite (replace_all_step _ _ _ _ _ X) by discriminate. cbn [before after app].
      apply strip_none.
      destruct (includes javascript_fence (code ++ fence)) eqn:I; [|reflexivity].
      apply includes_spec in I. destruct I as [i Hi].
      pose proof (starts_with_length _ _ Hi) as L.
      rewrite length_skipn, length_app in L.
      change (List.length javascript_fence) with 13%nat in L. simpl in L.
      assert (F : fence_at (code ++ fence) i = true).
      { unfold fence_at. apply starts_with_split in Hi. rewrite Hi.
        rewrite javascript_fence_split, <- app_assoc. apply starts_with_app. }
      rewrite fence_free_at in F by (auto; lia). discriminate. }
    rewrite R. now apply strip_closing_fence.
Qed.

Lemma cleanCode_unwraps_javascript_block_witness :
  cleanCode (lit "addBlock(0, 0, 0, 'stone');") = lit "addBlock(0, 0, 0, 'stone');" /\
  cleanCode (javascript_fence ++ lit "addBlock(0, 0, 0, 'stone');" ++ fence) =
    lit "addBlock(0, 0, 0, 'stone');".
Proof.
  apply (cleanCode_unwraps_javascript_block (lit "addBlock(0, 0, 0, 'stone');")).
  reflexivity.
Defined.


(** *** The picture, from [generateImage] to [generateVoxelScene] *)


Definition comma : ascii := ","%char.

(** The first comma ends the first piece. *)
Lemma split_comma_first u : forall rest,
  ~ In comma u ->
  split_comma (u ++ comma :: rest) = u :: split_comma rest.
Proof.
  induction u as [|c u IH]; intros rest H.
  - simpl. destruct (ascii_dec comma ","); [reflexivity|congruence].
  - cbn [app split_comma]. destruct (ascii_dec c ",") as [E|_].
    + exfalso. apply H. left. exact E.
    + rewrite IH by (intros X; apply H; now right). reflexivity.
Qed.

Lemma split_comma_none u : ~ In comma u -> split_comma u = [u].
Proof.
  induction u as [|c u IH]; intros H; [reflexivity|].
  cbn [split_comma]. destruct (ascii_dec c ",") as [E|_].
  - exfalso. apply H. left. exact E.
  - rewrite IH by (intros X; apply H; now right). reflexivity.
Qed.

Definition base64_mark : str := lit ";base64,".

Lemma base64_mark_chars :
  base64_mark = [";"; "b"; "a"; "s"; "e"; "6"; "4"; ","]%char.
Proof. reflexivity. Qed.

(** The mark cannot start inside a text without a comma that the mark
    follows. *)
Lemma no_mark_before u rest :
  u <> [] -> ~ In comma u ->
  starts_with base64_mark (u ++ base64_mark ++ rest) = false.
Proof.
  intros N H. rewrite base64_mark_chars.
  destruct u as [|c1 [|c2 [|c3 [|c4 [|c5 [|c6 [|c7 [|c8 u]]]]]]]]; [congruence|..];
    cbn [app]; rewrite !starts_with_cons;
    repeat match goal with
           | |- context [ascii_dec ?a ?b] => destruct (ascii_dec a b)
           end; try reflexivity; try discriminate.
  exfalso. apply H. subst. unfold comma. cbn. tauto.
Qed.

Lemma dot_lazy_until_mark u rest :
  ~ In comma u -> Forall (fun c => is_line_terminator c = false) u ->
  dot_lazy_until base64_mark (u ++ base64_mark ++ rest) = Some u.
Proof.
  induction u as [|c u IH]; intros H F.
  - cbn [app]. destruct (base64_mark ++ rest) eqn:E; [discriminate|].
    cbn [dot_lazy_until]. rewrite <- E, starts_with_app. reflexivity.
  - pose proof (no_mark_before (c :: u) rest ltac:(discriminate) H) as X.
    cbn [app] in X |- *. cbn [dot_lazy_until]. rewrite X.
    inversion F as [|? ? Fc Fu]; subst. rewrite Fc.
    rewrite IH by (auto; intros Y; apply H; now right). reflexivity.
Qed.

(** X17. The picture that [generateImage] returns is taken apart again by
    [generateVoxelScene] into the same parts: the bytes that are sent on are
    the bytes of the picture, and the MIME type is the one of the picture
    (or [image/png] when the part named none), provided the type holds no
    comma and no line break and the bytes are not empty and hold no comma,
    as Base64 text does not. *)
Theorem image_url_round_trip :
  forall mimeType base64ImageBytes,
    ~ In comma (or_png mimeType) ->
    Forall (fun c => is_line_terminator c = false) (or_png mimeType) ->
    ~ In comma base64ImageBytes ->
    base64ImageBytes <> [] ->
    base64Data (image_url mimeType base64ImageBytes) = base64ImageBytes /\
    mimeType_of (image_url mimeType base64ImageBytes) = or_png mimeType.
Proof.
  intros mimeType bytes Hm Fm Hb Nb. unfold image_url. split.
  - unfold base64Data.
    assert (E : lit "data:" ++ or_png mimeType ++ lit ";base64," ++ bytes =
                (lit "data:" ++ or_png mimeType ++ lit ";base64") ++ comma :: bytes).
    { rewrite <- !app_assoc. reflexivity. }
    rewrite E, split_comma_first.
    + rewrite split_comma_none by exact Hb. cbn [nth_error].
      destruct bytes; [congruence|reflexivity].
    + intros X. apply in_app_or in X. destruct X as [X|X].
      * vm_compute in X. intuition discriminate.
      * apply in_app_or in X. destruct X as [X|X]; [contradiction|].
        vm_compute in X. intuition discriminate.
  - unfold mimeType_of, mimeMatch. rewrite starts_with_app.
    change (skipn 5 (lit "data:" ++ ?x)) with x.
    fold base64_mark. now rewrite dot_lazy_until_mark.
Qed.

Lemma image_url_round_trip_witness :
  base64Data (image_url (JString (lit "image/webp")) (lit "UklGRg==")) = lit "UklGRg==" /\
  mimeType_of (image_url (JString (lit "image/webp")) (lit "UklGRg==")) = lit "image/webp".
Proof.
  apply (image_url_round_trip (JString (lit "image/webp")) (lit "UklGRg==")).
  - vm_compute. intuition discriminate.
  - vm_compute. repeat constructor.
  - vm_compute. intuition discriminate.
  - discriminate.
Defined.

End GeminiProofs.
